(** * Sandbox avatar converter: a shallow embedding of [convert]

    The converter ([src/main.js], function [convert]) mutates one glTF
    document in place, stage after stage.  Each stage is embedded here as
    a function on an explicit document state:

    - [Skeleton]  : donor graft, joint pruning, inverse bind matrices
                    (lines 122-173);
    - [Animation] : the channel filter and the release of animations
                    (lines 176-224);
    - [RigidSkin] : reparenting and rigid skinning of mesh nodes
                    (lines 261-334);
    - [Atlas]     : the atlas grid (lines 383-394);
    - [DataPath]  : the search for the data files (lines 17-50);
    - [Collect]   : the traversal that lists the nodes of a scene
                    (lines 96-119);
    - [TPose]     : the world node and the T-pose (lines 227-258);
    - [Merge]     : the collection of the primitives to merge
                    (lines 369-381).

    Objects of the document library are addressed by identifiers in
    finite maps; an identifier that is no longer in its map is a disposed
    object, and every edge to it is gone, as in the library's property
    graph.  A [TypeError] thrown by the JavaScript (a method called on
    [null] or [undefined]) is the result [None]; the graft of the donor
    skeleton returns the exception itself. *)

From Stdlib Require Import ZArith QArith Floats Lia Field.
From stdpp Require Import base option list gmap strings.

Set Default Proof Using "Type".

(** * JavaScript numbers

    The arithmetic the converter performs, as an interface: IEEE binary64
    for the real program ([JsNumber_float]) and exact rationals as its
    idealisation ([JsNumber_Q]).  [fround] is the conversion a
    [Float32Array] applies to a stored value, [falsy x] is [!x], and
    [decimal m d] is the decimal literal whose value is [m / d]. *)

Class JsNumber (num : Type) := {
  num0 : num;
  num1 : num;
  nadd : num → num → num;
  nsub : num → num → num;
  nmul : num → num → num;
  ndiv : num → num → num;
  falsy : num → bool;
  decimal : Z → positive → num;
  fround : num → num
}.

(** Exact rationals.  A stored number is put in lowest terms, so that the
    contents of two buffers are equal terms when they are equal numbers. *)
#[export] Instance JsNumber_Q : JsNumber Q := {|
  num0 := 0%Q;
  num1 := 1%Q;
  nadd := Qplus;
  nsub := Qminus;
  nmul := Qmult;
  ndiv := Qdiv;
  falsy x := Qeq_bool x 0;
  decimal m d := (m # d)%Q;
  fround := Qred
|}.

(** IEEE binary64, the numbers of the JavaScript engine. *)
Definition float_of_Z (z : Z) : float :=
  match z with
  | Z0 => 0%float
  | Zpos p => PrimFloat.of_uint63 (Uint63.of_Z (Zpos p))
  | Zneg p => PrimFloat.opp (PrimFloat.of_uint63 (Uint63.of_Z (Zpos p)))
  end.

(** [Math.fround]: round to binary32 (precision 24, maximal exponent 128),
    then read the result back as a double. *)
Definition Math_fround (f : float) : float :=
  match Prim2SF f with
  | S754_finite s m e =>
      SF2Prim (binary_normalize 24 128 (cond_Zopp s (Zpos m)) e s)
  | _ => f
  end.

#[export] Instance JsNumber_float : JsNumber float := {|
  num0 := 0%float;
  num1 := 1%float;
  nadd := PrimFloat.add;
  nsub := PrimFloat.sub;
  nmul := PrimFloat.mul;
  ndiv := PrimFloat.div;
  falsy x := PrimFloat.eqb x 0%float || PrimFloat.is_nan x;
  decimal m d := PrimFloat.div (float_of_Z m) (float_of_Z (Zpos d));
  fround := Math_fround
|}.

(** [const scale = 0.032 * 1.1] (line 62). *)
Definition scale {num : Type} `{JsNumber num} : num :=
  nmul (decimal 32 1000) (decimal 11 10).

(** ** Plain objects

    The tables the converter reads by name, [{ }] and the result of
    [JSON.parse], are plain objects: a name that is not an own property of
    the table is looked up in [Object.prototype], where these names are
    found, with a function or an object as their value. *)
Definition inheritedKeys : list string :=
  ["constructor"; "__defineGetter__"; "__defineSetter__"; "hasOwnProperty";
   "__lookupGetter__"; "__lookupSetter__"; "isPrototypeOf";
   "propertyIsEnumerable"; "toString"; "valueOf"; "__proto__";
   "toLocaleString"].

Definition inheritedKey (name : string) : bool :=
  bool_decide (name ∈ inheritedKeys).

(** ** Loops that may throw *)

(** [foldM step l s] runs [step] over [l] from left to right, threading
    the state, and stops at the first exception. *)
Fixpoint foldM {S A : Type} (step : S → A → option S) (l : list A) (s : S)
  : option S :=
  match l with
  | [] => Some s
  | x :: l' =>
      match step s x with
      | Some s' => foldM step l' s'
      | None => None
      end
  end.

(** * The matrix library

    The functions of gl-matrix the converter calls, with the library's own
    formulas; a matrix is stored by columns, [a00 a01 a02 a03] being the
    first column (indices 0 to 3 of the array). *)

Module GlMatrix.
Section ops.
Context {num : Type} `{JsNumber num}.

Record mat4 := Mat4 {
  a00 : num; a01 : num; a02 : num; a03 : num;
  a10 : num; a11 : num; a12 : num; a13 : num;
  a20 : num; a21 : num; a22 : num; a23 : num;
  a30 : num; a31 : num; a32 : num; a33 : num
}.

Definition vec3 : Type := num * num * num.

Definition mat4_map (f : num → num) (a : mat4) : mat4 :=
  Mat4 (f (a00 a)) (f (a01 a)) (f (a02 a)) (f (a03 a))
       (f (a10 a)) (f (a11 a)) (f (a12 a)) (f (a13 a))
       (f (a20 a)) (f (a21 a)) (f (a22 a)) (f (a23 a))
       (f (a30 a)) (f (a31 a)) (f (a32 a)) (f (a33 a)).

(** [mat4.identity(out)] *)
Definition mat4_identity : mat4 :=
  Mat4 num1 num0 num0 num0
       num0 num1 num0 num0
       num0 num0 num1 num0
       num0 num0 num0 num1.

(** [mat4.fromScaling(out, v)] *)
Definition mat4_fromScaling (v : vec3) : mat4 :=
  let '(x, y, z) := v in
  Mat4 x num0 num0 num0
       num0 y num0 num0
       num0 num0 z num0
       num0 num0 num0 num1.

(** [mat4.fromTranslation(out, v)] *)
Definition mat4_fromTranslation (v : vec3) : mat4 :=
  let '(x, y, z) := v in
  Mat4 num1 num0 num0 num0
       num0 num1 num0 num0
       num0 num0 num1 num0
       x y z num1.

Notation "x + y" := (nadd x y).
Notation "x - y" := (nsub x y).
Notation "x * y" := (nmul x y).
Notation "x / y" := (ndiv x y).

(** One column of [mat4.multiply(out, a, b)]: the column [b0 b1 b2 b3] of
    [b], combined with the columns of [a]. *)
Definition multiply_column (a : mat4) (b0 b1 b2 b3 : num) : num * num * num * num :=
  (b0 * a00 a + b1 * a10 a + b2 * a20 a + b3 * a30 a,
   b0 * a01 a + b1 * a11 a + b2 * a21 a + b3 * a31 a,
   b0 * a02 a + b1 * a12 a + b2 * a22 a + b3 * a32 a,
   b0 * a03 a + b1 * a13 a + b2 * a23 a + b3 * a33 a).

(** [mat4.multiply(out, a, b)] *)
Definition mat4_multiply (a b : mat4) : mat4 :=
  let '(o0, o1, o2, o3) := multiply_column a (a00 b) (a01 b) (a02 b) (a03 b) in
  let '(o4, o5, o6, o7) := multiply_column a (a10 b) (a11 b) (a12 b) (a13 b) in
  let '(o8, o9, o10, o11) := multiply_column a (a20 b) (a21 b) (a22 b) (a23 b) in
  let '(o12, o13, o14, o15) := multiply_column a (a30 b) (a31 b) (a32 b) (a33 b) in
  Mat4 o0 o1 o2 o3 o4 o5 o6 o7 o8 o9 o10 o11 o12 o13 o14 o15.

(** [mat4.invert(out, a)]: [None] is the library's [null], returned when
    the determinant is zero or not a number. *)
Definition mat4_invert (a : mat4) : option mat4 :=
  let b00 := a00 a * a11 a - a01 a * a10 a in
  let b01 := a00 a * a12 a - a02 a * a10 a in
  let b02 := a00 a * a13 a - a03 a * a10 a in
  let b03 := a01 a * a12 a - a02 a * a11 a in
  let b04 := a01 a * a13 a - a03 a * a11 a in
  let b05 := a02 a * a13 a - a03 a * a12 a in
  let b06 := a20 a * a31 a - a21 a * a30 a in
  let b07 := a20 a * a32 a - a22 a * a30 a in
  let b08 := a20 a * a33 a - a23 a * a30 a in
  let b09 := a21 a * a32 a - a22 a * a31 a in
  let b10 := a21 a * a33 a - a23 a * a31 a in
  let b11 := a22 a * a33 a - a23 a * a32 a in
  let det :=
    b00 * b11 - b01 * b10 + b02 * b09 + b03 * b08 - b04 * b07 + b05 * b06 in
  if falsy det then None
  else
    let det := num1 / det in
    Some (Mat4
      ((a11 a * b11 - a12 a * b10 + a13 a * b09) * det)
      ((a02 a * b10 - a01 a * b11 - a03 a * b09) * det)
      ((a31 a * b05 - a32 a * b04 + a33 a * b03) * det)
      ((a22 a * b04 - a21 a * b05 - a23 a * b03) * det)
      ((a12 a * b08 - a10 a * b11 - a13 a * b07) * det)
      ((a00 a * b11 - a02 a * b08 + a03 a * b07) * det)
      ((a32 a * b02 - a30 a * b05 - a33 a * b01) * det)
      ((a20 a * b05 - a22 a * b02 + a23 a * b01) * det)
      ((a10 a * b10 - a11 a * b08 + a13 a * b06) * det)
      ((a01 a * b08 - a00 a * b10 - a03 a * b06) * det)
      ((a30 a * b04 - a31 a * b02 + a33 a * b00) * det)
      ((a21 a * b02 - a20 a * b04 - a23 a * b00) * det)
      ((a11 a * b07 - a10 a * b09 - a12 a * b06) * det)
      ((a00 a * b09 - a01 a * b07 + a02 a * b06) * det)
      ((a31 a * b01 - a30 a * b03 - a32 a * b00) * det)
      ((a20 a * b03 - a21 a * b01 + a22 a * b00) * det)).

(** [vec3.transformMat4(out, a, m)] *)
Definition vec3_transformMat4 (a : vec3) (m : mat4) : vec3 :=
  let '(x, y, z) := a in
  let w := a03 m * x + a13 m * y + a23 m * z + a33 m in
  let w := if falsy w then num1 else w in
  ((a00 m * x + a10 m * y + a20 m * z + a30 m) / w,
   (a01 m * x + a11 m * y + a21 m * z + a31 m) / w,
   (a02 m * x + a12 m * y + a22 m * z + a32 m) / w).

(** The sixteen entries, in array order. *)
Definition mat4_entries (a : mat4) : list num :=
  [a00 a; a01 a; a02 a; a03 a; a10 a; a11 a; a12 a; a13 a;
   a20 a; a21 a; a22 a; a23 a; a30 a; a31 a; a32 a; a33 a].

End ops.
Arguments mat4 : clear implicits.
Arguments vec3 : clear implicits.

(** Two matrices of rationals with equal entries. *)
Definition mat4_equiv (a b : mat4 Q) : Prop :=
  Forall2 Qeq (mat4_entries a) (mat4_entries b).

(** Two matrices of doubles whose entries differ by at most [tolerance]. *)
Definition withinTolerance (tolerance : float) (a b : mat4 float) : bool :=
  forallb (λ xy, PrimFloat.leb (PrimFloat.abs (PrimFloat.sub xy.1 xy.2)) tolerance)
          (zip (mat4_entries a) (mat4_entries b)).

End GlMatrix.

(** * The animation filter (lines 176-224) *)

Module Animation.

Abbreviation AccessorId := nat (only parsing).
Abbreviation SamplerId := nat (only parsing).
Abbreviation ChannelId := nat (only parsing).
Abbreviation AnimationId := nat (only parsing).

(** The filter reads one thing of a channel's target node: its name. *)
Record Node := { getName : string }.

Record Channel := {
  targetNode : option Node;
  targetPath : string;
  sampler : option SamplerId
}.

Record Sampler := { output : option AccessorId }.

Record Animation := {
  channels : list ChannelId;
  samplers : list SamplerId
}.

(** An accessor is the sequence of its elements; the output of a
    translation sampler is a [Float32Array] of VEC3 elements. *)
Abbreviation Accessor num := (list (list num)) (only parsing).

Section model.
Context {num : Type} `{JsNumber num}.

Record Document := {
  accessorStore : gmap nat (Accessor num);
  samplerStore : gmap nat Sampler;
  channelStore : gmap nat Channel;
  animationStore : gmap nat Animation;
  rootAnimations : list AnimationId
}.

Definition withAccessors (d : Document) (m : gmap nat (Accessor num)) :=
  {| accessorStore := m; samplerStore := samplerStore d;
     channelStore := channelStore d; animationStore := animationStore d;
     rootAnimations := rootAnimations d |}.
Definition withSamplers (d : Document) (m : gmap nat Sampler) :=
  {| accessorStore := accessorStore d; samplerStore := m;
     channelStore := channelStore d; animationStore := animationStore d;
     rootAnimations := rootAnimations d |}.
Definition withChannels (d : Document) (m : gmap nat Channel) :=
  {| accessorStore := accessorStore d; samplerStore := samplerStore d;
     channelStore := m; animationStore := animationStore d;
     rootAnimations := rootAnimations d |}.
Definition withAnimations (d : Document) (m : gmap nat Animation) :=
  {| accessorStore := accessorStore d; samplerStore := samplerStore d;
     channelStore := channelStore d; animationStore := m;
     rootAnimations := rootAnimations d |}.
Definition withRootAnimations (d : Document) (l : list AnimationId) :=
  {| accessorStore := accessorStore d; samplerStore := samplerStore d;
     channelStore := channelStore d; animationStore := animationStore d;
     rootAnimations := l |}.

(** ** The document library's view of the graph *)

Definition alive {A : Type} (m : gmap nat A) (i : nat) : bool :=
  bool_decide (is_Some (m !! i)).

(** [root.listAnimations()] *)
Definition listAnimations (d : Document) : list AnimationId :=
  List.filter (alive (animationStore d)) (rootAnimations d).

(** [animation.listChannels()] *)
Definition listChannels (d : Document) (a : AnimationId) : list ChannelId :=
  match animationStore d !! a with
  | Some an => List.filter (alive (channelStore d)) (channels an)
  | None => []
  end.

(** [animation.listSamplers()] *)
Definition listSamplers (d : Document) (a : AnimationId) : list SamplerId :=
  match animationStore d !! a with
  | Some an => List.filter (alive (samplerStore d)) (samplers an)
  | None => []
  end.

(** [channel.getSampler()], then [sampler.getOutput()]: [None] is the
    [TypeError] of a method called on [null]. *)
Definition getSampler (d : Document) (ch : Channel) : option SamplerId :=
  match sampler ch with
  | Some s => if alive (samplerStore d) s then Some s else None
  | None => None
  end.

Definition getOutput (d : Document) (s : SamplerId) : option AccessorId :=
  match samplerStore d !! s with
  | Some sm =>
      match output sm with
      | Some a => if alive (accessorStore d) a then Some a else None
      | None => None
      end
  | None => None
  end.

Definition removeId (i : nat) (l : list nat) : list nat :=
  List.filter (λ j, negb (Nat.eqb j i)) l.

(** [animation.removeChannel(channel)] *)
Definition removeChannel (d : Document) (a : AnimationId) (c : ChannelId) :=
  withAnimations d
    (alter (λ an, {| channels := removeId c (channels an);
                     samplers := samplers an |}) a (animationStore d)).

(** [channel.detach()]: the channel leaves every animation. *)
Definition detachChannel (d : Document) (c : ChannelId) :=
  withAnimations d
    ((λ an, {| channels := removeId c (channels an);
               samplers := samplers an |}) <$> animationStore d).

(** [channel.dispose()] *)
Definition disposeChannel (d : Document) (c : ChannelId) :=
  withChannels d (delete c (channelStore d)).

(** [sampler.detach()] and [sampler.dispose()] *)
Definition detachSampler (d : Document) (s : SamplerId) :=
  withAnimations d
    ((λ an, {| channels := channels an;
               samplers := removeId s (samplers an) |}) <$> animationStore d).

Definition disposeSampler (d : Document) (s : SamplerId) :=
  withSamplers d (delete s (samplerStore d)).

(** [animation.detach()] and [animation.dispose()] *)
Definition detachAnimation (d : Document) (a : AnimationId) :=
  withRootAnimations d (removeId a (rootAnimations d)).

Definition disposeAnimation (d : Document) (a : AnimationId) :=
  withAnimations d (delete a (animationStore d)).

(** ** The keyframe rescaling (lines 194-202) *)

(** [vec3.scale(element, element, scale)]: the first three components
    are multiplied, a fourth and later ones are left as read. *)
Definition vec3_scale (a : list num) (b : num) : list num :=
  ((λ x, nmul x b) <$> take 3 a) ++ drop 3 a.

(** [accessor.setElement(e, element)] on a [Float32Array]. *)
Definition setElement (acc : Accessor num) (e : nat) (element : list num)
  : Accessor num :=
  <[e := fround <$> element]> acc.

(** The loop [for (let e = 0; e < accessor.getCount(); e++)]. *)
Definition scaleKeyframes (acc : Accessor num) : Accessor num :=
  foldl (λ acc e,
           match acc !! e with
           | Some element => setElement acc e (vec3_scale element scale)
           | None => acc
           end)
        acc (seq 0 (length acc)).

(** ** The channel loop (lines 182-213) *)

(** Lines 189-191 and 208-210: the channel leaves the animation and is
    disposed. *)
Definition deleteChannel (d : Document) (a : AnimationId) (c : ChannelId) :=
  disposeChannel (detachChannel (removeChannel d a c) c) c.

(** One turn of the loop over the channels of animation [a].  A channel
    without a target node makes [target] null, and [target.getName()]
    throws; so does a channel that was disposed on an earlier turn. *)
Definition processChannel (a : AnimationId) (d : Document) (c : ChannelId)
  : option Document :=
  match channelStore d !! c with
  | None => None
  | Some ch =>
      match targetNode ch with
      | None => None
      | Some target =>
          if String.eqb (getName target) "Controller-Global" then
            if String.eqb (targetPath ch) "scale" then
              Some (deleteChannel d a c)
            else if String.eqb (targetPath ch) "translation" then
              match getSampler d ch with
              | None => None
              | Some s =>
                  match getOutput d s with
                  | None => None
                  | Some acc =>
                      Some (withAccessors d
                              (alter scaleKeyframes acc (accessorStore d)))
                  end
              end
            else Some d
          else
            if negb (String.eqb (targetPath ch) "rotation") then
              Some (deleteChannel d a c)
            else Some d
      end
  end.

(** ** The animation loop (lines 177-224) *)

(** Lines 216-221: every sampler of the animation is released. *)
Definition releaseSamplers (d : Document) (a : AnimationId) : Document :=
  foldl (λ d s, disposeSampler (detachSampler d s) s)
        d (rev (listSamplers d a)).

(** One turn of the loop over the animations: the channels from the last
    to the first, then the samplers, then the animation itself (lines
    222-223). *)
Definition processAnimation (d : Document) (a : AnimationId)
  : option Document :=
  match foldM (processChannel a) (rev (listChannels d a)) d with
  | None => None
  | Some d1 =>
      let d2 := releaseSamplers d1 a in
      Some (disposeAnimation (detachAnimation d2 a) a)
  end.

(** The loop [while (i--)] over [root.listAnimations()]. *)
Definition removeAnimations (d : Document) : option Document :=
  foldM processAnimation (rev (listAnimations d)) d.

(** ** What the statements about the filter speak of *)

(** The element written back by one turn of the keyframe loop. *)
Definition rescaled (el : list num) : list num := fround <$> vec3_scale el scale.

(** The channels the channel loop leaves in place. *)
Definition kept (ch : Channel) : bool :=
  match targetNode ch with
  | None => true
  | Some t =>
      if String.eqb (getName t) "Controller-Global"
      then negb (String.eqb (targetPath ch) "scale")
      else String.eqb (targetPath ch) "rotation"
  end.

(** The channels that are rescaled in place. *)
Definition rootTranslation (ch : Channel) : Prop :=
  (∃ t, targetNode ch = Some t ∧ getName t = "Controller-Global") ∧
  targetPath ch = "translation".

(** The accessor a channel's keyframes live in. *)
Definition outputOf (d : Document) (c : ChannelId) : option AccessorId :=
  match channelStore d !! c with
  | Some ch =>
      match sampler ch with
      | Some s => match samplerStore d !! s with
                  | Some sm => output sm
                  | None => None
                  end
      | None => None
      end
  | None => None
  end.

(** No other rescaled channel writes to the accessor of [c]. *)
Definition unshared (d : Document) (c : ChannelId) (acc : AccessorId) : Prop :=
  ∀ c' ch', channelStore d !! c' = Some ch' → rootTranslation ch' →
            outputOf d c' = Some acc → c' = c.

(** Number of occurrences of an identifier in a list of references. *)
Definition occ (l : list nat) (i : nat) : nat := count_occ Nat.eq_dec l i.

(** [evolves d d']: [d'] is [d] after some steps of the filter.  Objects
    are only ever disposed, a reference list only loses the references to
    disposed objects, and no accessor is created or disposed. *)
Record evolves (d d' : Document) : Prop := {
  ev_channels : channelStore d' ⊆ channelStore d;
  ev_samplers : samplerStore d' ⊆ samplerStore d;
  ev_accessors :
    ∀ i, is_Some (accessorStore d' !! i) ↔ is_Some (accessorStore d !! i);
  ev_animations : ∀ a an', animationStore d' !! a = Some an' →
    ∃ an, animationStore d !! a = Some an ∧
      (∀ c, occ (channels an') c ≤ occ (channels an) c) ∧
      (∀ c, is_Some (channelStore d' !! c) →
            occ (channels an') c = occ (channels an) c) ∧
      (∀ s, is_Some (samplerStore d' !! s) →
            occ (samplers an') s = occ (samplers an) s);
  ev_root : ∀ a, occ (rootAnimations d') a ≤ occ (rootAnimations d) a
}.

(** The last clause of the filter as the specification words it: an
    animation that keeps a rotation channel is still listed afterwards. *)
Definition retains_rotation_animations (d d' : Document) : Prop :=
  ∀ a c ch t,
    a ∈ listAnimations d → c ∈ listChannels d a →
    channelStore d !! c = Some ch → targetNode ch = Some t →
    getName t ≠ "Controller-Global" → targetPath ch = "rotation" →
    a ∈ listAnimations d'.

(** The rescaling as the specification words it: every translation channel
    of the root ends with its keyframes multiplied once. *)
Definition rescales_every_root_translation (d d' : Document) : Prop :=
  ∀ a c ch acc keyframes,
    a ∈ listAnimations d → c ∈ listChannels d a →
    channelStore d !! c = Some ch → rootTranslation ch →
    outputOf d c = Some acc → accessorStore d !! acc = Some keyframes →
    channelStore d' !! c = Some ch ∧
    accessorStore d' !! acc = Some (rescaled <$> keyframes).

End model.

(** ** Example documents (exact arithmetic) *)

Definition controllerGlobal : Node := {| getName := "Controller-Global" |}.
Definition arm : Node := {| getName := "Arm" |}.

Definition hipsTranslation (s : SamplerId) : Channel :=
  {| targetNode := Some controllerGlobal; targetPath := "translation";
     sampler := Some s |}.
Definition hipsScale (s : SamplerId) : Channel :=
  {| targetNode := Some controllerGlobal; targetPath := "scale";
     sampler := Some s |}.
Definition armRotation (s : SamplerId) : Channel :=
  {| targetNode := Some arm; targetPath := "rotation"; sampler := Some s |}.
Definition armTranslation (s : SamplerId) : Channel :=
  {| targetNode := Some arm; targetPath := "translation"; sampler := Some s |}.

(** One animation: the root is translated and scaled, an arm is rotated
    and translated.  Each channel has a sampler and an accessor of its
    own; the root's translation has the single keyframe (10, 0, 0). *)
Definition walkDoc : Document (num := Q) :=
  {| accessorStore := {[ 0 := [[10; 0; 0]%Q]; 1 := [[2; 2; 2]%Q];
                         2 := [[0; 0; 0; 1]%Q]; 3 := [[1; 2; 3]%Q] ]};
     samplerStore := {[ 0 := {| output := Some 0 |};
                        1 := {| output := Some 1 |};
                        2 := {| output := Some 2 |};
                        3 := {| output := Some 3 |} ]};
     channelStore := {[ 0 := hipsTranslation 0; 1 := hipsScale 1;
                        2 := armRotation 2; 3 := armTranslation 3 ]};
     animationStore := {[ 0 := {| channels := [0; 1; 2; 3];
                                  samplers := [0; 1; 2; 3] |} ]};
     rootAnimations := [0] |}.

(** What the filter leaves of [walkDoc]. *)
Definition walkDoc_filtered : Document (num := Q) :=
  {| accessorStore := {[ 0 := [[44 # 125; 0; 0]%Q]; 1 := [[2; 2; 2]%Q];
                         2 := [[0; 0; 0; 1]%Q]; 3 := [[1; 2; 3]%Q] ]};
     samplerStore := ∅;
     channelStore := {[ 0 := hipsTranslation 0; 2 := armRotation 2 ]};
     animationStore := ∅;
     rootAnimations := [] |}.

(** One animation with one channel, the rotation of an arm. *)
Definition rotationDoc : Document (num := Q) :=
  {| accessorStore := {[ 0 := [[0; 0; 0; 1]%Q] ]};
     samplerStore := {[ 0 := {| output := Some 0 |} ]};
     channelStore := {[ 0 := armRotation 0 ]};
     animationStore := {[ 0 := {| channels := [0]; samplers := [0] |} ]};
     rootAnimations := [0] |}.

Definition rotationDoc_filtered : Document (num := Q) :=
  {| accessorStore := {[ 0 := [[0; 0; 0; 1]%Q] ]};
     samplerStore := ∅;
     channelStore := {[ 0 := armRotation 0 ]};
     animationStore := ∅;
     rootAnimations := [] |}.

(** Two animations translate the root, and their samplers read the same
    accessor, with the single keyframe (10, 0, 0). *)
Definition sharedDoc : Document (num := Q) :=
  {| accessorStore := {[ 0 := [[10; 0; 0]%Q] ]};
     samplerStore := {[ 0 := {| output := Some 0 |};
                        1 := {| output := Some 0 |} ]};
     channelStore := {[ 0 := hipsTranslation 0; 1 := hipsTranslation 1 ]};
     animationStore := {[ 0 := {| channels := [0]; samplers := [0] |};
                          1 := {| channels := [1]; samplers := [1] |} ]};
     rootAnimations := [0; 1] |}.

(** What the filter leaves of [sharedDoc]: 10 * 0.0352 * 0.0352. *)
Definition sharedDoc_filtered : Document (num := Q) :=
  {| accessorStore := {[ 0 := [[968 # 78125; 0; 0]%Q] ]};
     samplerStore := ∅;
     channelStore := {[ 0 := hipsTranslation 0; 1 := hipsTranslation 1 ]};
     animationStore := ∅;
     rootAnimations := [] |}.

End Animation.

(** * The skeleton stage (lines 122-173) *)

Module Skeleton.
Import GlMatrix.

Abbreviation NodeId := nat (only parsing).

Section model.
Context {num : Type} `{JsNumber num}.

(** A node of the scene graph: its name, the node it is a child of, and
    its local transform, kept as the matrix [getMatrix()] returns. *)
Record Node := {
  name : string;
  parent : option NodeId;
  matrix : mat4 num
}.

(** A skin: [listJoints()], the accessor of inverse bind matrices (the
    sequence of its MAT4 elements, a [Float32Array]), and the skeleton
    root. *)
Record Skin := {
  joints : list NodeId;
  inverseBindMatrices : option (list (mat4 num));
  skeleton : option NodeId
}.

(** The document after [mergeDocuments]: [scene] is [scenes[0]] and
    [sceneDonor] is [scenes[1]], each with its root children. *)
Record Document := {
  nodeStore : gmap nat Node;
  skin : Skin;
  scene : list NodeId;
  sceneDonor : option (list NodeId)
}.

Definition withNodes (d : Document) (m : gmap nat Node) :=
  {| nodeStore := m; skin := skin d; scene := scene d;
     sceneDonor := sceneDonor d |}.
Definition withSkin (d : Document) (s : Skin) :=
  {| nodeStore := nodeStore d; skin := s; scene := scene d;
     sceneDonor := sceneDonor d |}.

(** ** The document library's view of the graph *)

Definition isNode (d : Document) (n : NodeId) : bool :=
  bool_decide (is_Some (nodeStore d !! n)).

(** [scene.listChildren()] *)
Definition listChildren (d : Document) (l : list NodeId) : list NodeId :=
  List.filter (isNode d) l.

(** [skin.listJoints()] *)
Definition listJoints (d : Document) : list NodeId :=
  List.filter (isNode d) (joints (skin d)).

(** [node.getName()] of a listed node. *)
Definition getName (d : Document) (n : NodeId) : string :=
  match nodeStore d !! n with
  | Some nd => name nd
  | None => ""
  end.

(** [node.getParentNode()]: [None] is [null]. *)
Definition getParentNode (d : Document) (n : NodeId) : option NodeId :=
  match nodeStore d !! n with
  | Some nd =>
      match parent nd with
      | Some p => if isNode d p then Some p else None
      | None => None
      end
  | None => None
  end.

(** The loop of [node.getWorldMatrix()] that collects the node and its
    ancestors, the node first.  A tree of [size (nodeStore d)] nodes has
    no longer chain. *)
Fixpoint ancestorsFrom (fuel : nat) (d : Document) (n : NodeId) : list Node :=
  match fuel with
  | 0 => []
  | S fuel' =>
      match nodeStore d !! n with
      | Some nd =>
          nd :: match getParentNode d n with
                | Some p => ancestorsFrom fuel' d p
                | None => []
                end
      | None => []
      end
  end.

(** [node.getWorldMatrix()]: the local matrices multiplied from the root
    down to the node. *)
Definition getWorldMatrix (d : Document) (n : NodeId) : mat4 num :=
  match rev (ancestorsFrom (size (nodeStore d)) d n) with
  | [] => mat4_identity
  | top :: below =>
      foldl (λ world nd, mat4_multiply world (matrix nd)) (matrix top) below
  end.

Definition removeId (i : nat) (l : list nat) : list nat :=
  List.filter (λ j, negb (Nat.eqb j i)) l.

(** [parent.removeChild(node)] *)
Definition removeChild (d : Document) (p n : NodeId) : Document :=
  withNodes d
    (alter (λ nd, if bool_decide (parent nd = Some p)
                  then {| name := name nd; parent := None; matrix := matrix nd |}
                  else nd) n (nodeStore d)).

(** [skin.removeJoint(node)] *)
Definition removeJoint (d : Document) (n : NodeId) : Document :=
  withSkin d {| joints := removeId n (joints (skin d));
                inverseBindMatrices := inverseBindMatrices (skin d);
                skeleton := skeleton (skin d) |}.

Definition clearId (n : NodeId) (o : option NodeId) : option NodeId :=
  match o with
  | Some m => if Nat.eqb m n then None else Some m
  | None => None
  end.

(** [node.detach()]: the node leaves its parent, the scenes and the
    skin. *)
Definition detach (d : Document) (n : NodeId) : Document :=
  {| nodeStore :=
       alter (λ nd, {| name := name nd; parent := None; matrix := matrix nd |})
             n (nodeStore d);
     skin := {| joints := removeId n (joints (skin d));
                inverseBindMatrices := inverseBindMatrices (skin d);
                skeleton := clearId n (skeleton (skin d)) |};
     scene := removeId n (scene d);
     sceneDonor := removeId n <$> sceneDonor d |}.

(** [node.dispose()]: the node leaves the graph, with every edge to it
    and from it; its children are left without a parent. *)
Definition dispose (d : Document) (n : NodeId) : Document :=
  withNodes d
    ((λ nd, {| name := name nd; parent := clearId n (parent nd);
               matrix := matrix nd |}) <$> delete n (nodeStore d)).

(** ** Grafting the donor skeleton (lines 122-131) *)

(** What the stage can throw, by the [name] of the error.  The lines of
    the stage have no [throw] of their own and no check: the one error is
    the [TypeError] of the engine, for a property read of [undefined] or
    [null]. *)
Inductive Exception := TypeError.


(** [scene.addChild(skinRoot)], [skin.setSkeleton(skinRoot)], and the
    disposal of the donor scene.  A donor scene without children makes
    [skinRoot] undefined, and [scene.addChild(undefined)] reads a property
    of [undefined] in the document library: a [TypeError].  A document
    with one scene makes [sceneDonor] undefined, and the same error comes
    from [sceneDonor.listChildren()].  A root child of a scene has no
    parent node to be taken from. *)
Definition graft (d : Document) : Exception + Document :=
  match sceneDonor d with
  | None => inl TypeError
  | Some donor =>
      match listChildren d donor with
      | [] => inl TypeError
      | skinRoot :: _ =>
          inr {| nodeStore := nodeStore d;
                 skin := {| joints := joints (skin d);
                            inverseBindMatrices := inverseBindMatrices (skin d);
                            skeleton := Some skinRoot |};
                 scene := scene d ++ [skinRoot];
                 sceneDonor := None |}
      end
  end.

(** ** Removing joints (lines 134-152) *)

(** Lines 147-150: the joint leaves its parent and the skin, and is
    disposed. *)
Definition removeJointNode (d : Document) (p joint : NodeId) : Document :=
  dispose (detach (removeJoint (removeChild d p joint) joint) joint) joint.

Section prune.
(** [joints-remove.json] *)
Variable jointsToRemove : list string.

(** The index of the joints by name (lines 137-140), a later joint
    replacing an earlier one of the same name.  The index is a plain
    object: the map holds its own properties.  (For a joint named
    __proto__ the assignment replaces the prototype of the index by the
    joint, and reading that name gives the joint, as here; what the other
    names then inherit is left to [indexIsMap].) *)
Definition jointsByName (d : Document) : gmap string NodeId :=
  foldl (λ index j, <[getName d j := j]> index) ∅ (listJoints d).

(** One turn of the loop over [jointsToRemove]; [index] was built before
    the loop.  A name that is not an own property of the index is skipped
    when the index gives [undefined] for it; for a property name of
    [Object.prototype] it gives a function or an object, which passes
    [if (!joint) continue], and [joint.getParentNode()] throws.  A joint
    without a parent node makes [parent] null, and
    [parent.removeChild(joint)] throws. *)
Definition removeNamed (index : gmap string NodeId) (d : Document)
    (nm : string) : option Document :=
  match index !! nm with
  | None => if inheritedKey nm then None else Some d
  | Some joint =>
      match getParentNode d joint with
      | None => None
      | Some p => Some (removeJointNode d p joint)
      end
  end.

Definition pruneJoints (d : Document) : option Document :=
  foldM (removeNamed (jointsByName d)) jointsToRemove d.

(** ** Inverse bind matrices (lines 155-164) *)

(** An element of [new Float32Array(n * 16)]. *)
Definition mat4_zero : mat4 num := mat4_map (λ _, num0) mat4_identity.

(** [accessor.setElement(i, m)] on the [Float32Array]; [m] is [null] when
    the matrix has no inverse, and the call throws. *)
Definition setElement (ibm : list (mat4 num)) (i : nat)
    (m : option (mat4 num)) : option (list (mat4 num)) :=
  match m with
  | Some m => Some (<[i := mat4_map fround m]> ibm)
  | None => None
  end.

Definition recomputeInverseBindMatrices (d : Document) : option Document :=
  match inverseBindMatrices (skin d) with
  | None => None
  | Some _ =>
      let js := listJoints d in
      let raw := replicate (length js) mat4_zero in
      match foldM (λ ibm '(i, j),
                     setElement ibm i (mat4_invert (getWorldMatrix d j)))
                  (imap (λ i j, (i, j)) js) raw with
      | Some ibm =>
          Some (withSkin d {| joints := joints (skin d);
                              inverseBindMatrices := Some ibm;
                              skeleton := skeleton (skin d) |})
      | None => None
      end
  end.

(** ** The joint index (lines 167-173) *)

(** [jointsIndex[joints[i].getName()] = i] on the plain object of line
    123: the assignment makes an own property of every name but
    __proto__, for which the setter of [Object.prototype] discards a
    number. *)
Definition jointsIndex (d : Document) : gmap string nat :=
  foldl (λ index '(i, j),
           if String.eqb (getName d j) "__proto__" then index
           else <[getName d j := i]> index)
        ∅ (imap (λ i j, (i, j)) (listJoints d)).

(** The stage as a whole: an exception of the graft aborts it. *)
Definition spliceSkeleton (d : Document) : option Document :=
  match graft d with
  | inr d1 =>
      match pruneJoints d1 with
      | Some d2 => recomputeInverseBindMatrices d2
      | None => None
      end
  | inl _ => None
  end.

End prune.

(** ** What the statements about the stage speak of *)

(** The matrix stored for a joint. *)
Definition storedInverse (d : Document) (j : NodeId) : option (mat4 num) :=
  mat4_map fround <$> mat4_invert (getWorldMatrix d j).

(** The buffer of inverse bind matrices has one matrix per joint. *)
Definition aligned (d : Document) : Prop :=
  ∀ ibm, inverseBindMatrices (skin d) = Some ibm →
         length ibm = length (listJoints d).

(** The precondition of the joint index: no two joints of a name. *)
Definition uniqueNames (d : Document) : Prop :=
  NoDup (getName d <$> listJoints d).

(** The skins and deny lists for which the index of the joints by name
    is a map: no joint is named __proto__, and no name of the list is a
    property name of [Object.prototype]. *)
Definition indexIsMap (jointsToRemove : list string) (d : Document) : Prop :=
  (∀ j, j ∈ listJoints d → getName d j ≠ "__proto__") ∧
  (∀ nm, nm ∈ jointsToRemove → inheritedKey nm = false).


(** [d2] is the processed document [d1] with a donor document merged in
    again: the skin and its joints are as they were, the joints are where
    they were, and there is a donor scene with a root. *)
Definition remerged (d1 d2 : Document) : Prop :=
  skin d2 = skin d1 ∧
  (∀ j, j ∈ joints (skin d1) → nodeStore d2 !! j = nodeStore d1 !! j) ∧
  (∀ j, j ∈ listJoints d1 → getWorldMatrix d2 j = getWorldMatrix d1 j) ∧
  (∃ donor, sceneDonor d2 = Some donor ∧ listChildren d2 donor ≠ []).

(** The second run as the specification words it, for every skin: the
    run on [d2] leaves the joints and the inverse bind matrices of [d1]
    as they were. *)
Definition rerun_keeps_skin (jointsToRemove : list string)
    (d1 d2 : Document) : Prop :=
  ∀ d3, spliceSkeleton jointsToRemove d2 = Some d3 →
        listJoints d3 = listJoints d1 ∧
        inverseBindMatrices (skin d3) = inverseBindMatrices (skin d1).

End model.

(** ** Example documents (exact arithmetic) *)

Definition translated (x y z : Q) : mat4 Q := mat4_fromTranslation (x, y, z).

Definition worldGlobal : Node (num := Q) :=
  {| name := "World-Global"; parent := None; matrix := mat4_identity |}.
Definition hips (p : option NodeId) : Node (num := Q) :=
  {| name := "Hips"; parent := p; matrix := translated 0 1 0 |}.
Definition spine (p : option NodeId) : Node (num := Q) :=
  {| name := "Spine"; parent := p; matrix := translated 0 (1 # 2) 0 |}.
Definition tail (p : option NodeId) : Node (num := Q) :=
  {| name := "Tail"; parent := p; matrix := translated 0 0 (-1 # 4) |}.
Definition tailTip (p : option NodeId) : Node (num := Q) :=
  {| name := "TailTip"; parent := p; matrix := translated 0 0 (-1 # 4) |}.

(** The names to remove: the rig has a tail and no wing. *)
Definition denyList : list string := ["Tail"; "Wing"].

(** A merged document: the asset's scene with its world node, and the
    donor scene with a skeleton of four joints. *)
Definition tailRig : Document (num := Q) :=
  {| nodeStore := {[ 0 := worldGlobal; 10 := hips None; 11 := spine (Some 10);
                     12 := tail (Some 10); 13 := tailTip (Some 12) ]};
     skin := {| joints := [10; 11; 12; 13];
                inverseBindMatrices := Some (replicate 4 mat4_identity);
                skeleton := None |};
     scene := [0];
     sceneDonor := Some [10] |}.

(** [tailRig] after [pruneJoints] alone. *)
Definition tailRig_pruned : Document (num := Q) :=
  {| nodeStore := {[ 0 := worldGlobal; 10 := hips None; 11 := spine (Some 10);
                     13 := tailTip None ]};
     skin := {| joints := [10; 11; 13];
                inverseBindMatrices := Some (replicate 4 mat4_identity);
                skeleton := None |};
     scene := [0];
     sceneDonor := Some [10] |}.

(** [tailRig_pruned] after [recomputeInverseBindMatrices]. *)
Definition tailRig_recomputed : Document (num := Q) :=
  {| nodeStore := nodeStore tailRig_pruned;
     skin := {| joints := [10; 11; 13];
                inverseBindMatrices :=
                  Some [translated 0 (-1) 0; translated 0 (-3 # 2) 0;
                        translated 0 0 (1 # 4)];
                skeleton := None |};
     scene := [0];
     sceneDonor := Some [10] |}.

(** [tailRig] after the whole stage. *)
Definition tailRig_spliced : Document (num := Q) :=
  {| nodeStore := nodeStore tailRig_pruned;
     skin := {| joints := [10; 11; 13];
                inverseBindMatrices :=
                  Some [translated 0 (-1) 0; translated 0 (-3 # 2) 0;
                        translated 0 0 (1 # 4)];
                skeleton := Some 10 |};
     scene := [0; 10];
     sceneDonor := None |}.

(** [tailRig_spliced] with the donor document merged in a second time. *)
Definition tailRig_remerged : Document (num := Q) :=
  {| nodeStore := {[ 0 := worldGlobal; 10 := hips None; 11 := spine (Some 10);
                     13 := tailTip None;
                     20 := hips None; 21 := spine (Some 20);
                     22 := tail (Some 20); 23 := tailTip (Some 22) ]};
     skin := skin tailRig_spliced;
     scene := [0; 10];
     sceneDonor := Some [20] |}.

(** A rig with two joints of the name Tail. *)
Definition twinRig : Document (num := Q) :=
  {| nodeStore := {[ 0 := worldGlobal; 10 := hips None; 11 := tail (Some 10);
                     12 := tail (Some 10) ]};
     skin := {| joints := [10; 11; 12];
                inverseBindMatrices := Some (replicate 3 mat4_identity);
                skeleton := None |};
     scene := [0];
     sceneDonor := Some [10] |}.

(** [twinRig] after the stage: the later of the two tails is removed. *)
Definition twinRig_spliced : Document (num := Q) :=
  {| nodeStore := {[ 0 := worldGlobal; 10 := hips None;
                     11 := tail (Some 10) ]};
     skin := {| joints := [10; 11];
                inverseBindMatrices :=
                  Some [translated 0 (-1) 0; translated 0 (-1) (1 # 4)];
                skeleton := Some 10 |};
     scene := [0; 10];
     sceneDonor := None |}.

(** [twinRig_spliced] with the donor document merged in a second time. *)
Definition twinRig_remerged : Document (num := Q) :=
  {| nodeStore := {[ 0 := worldGlobal; 10 := hips None; 11 := tail (Some 10);
                     20 := hips None; 21 := tail (Some 20);
                     22 := tail (Some 20) ]};
     skin := skin twinRig_spliced;
     scene := [0; 10];
     sceneDonor := Some [20] |}.

(** [twinRig_remerged] after a second run of the stage: the other tail is
    removed as well. *)
Definition twinRig_respliced : Document (num := Q) :=
  {| nodeStore := {[ 0 := worldGlobal; 10 := hips None;
                     20 := hips None; 21 := tail (Some 20);
                     22 := tail (Some 20) ]};
     skin := {| joints := [10];
                inverseBindMatrices := Some [translated 0 (-1) 0];
                skeleton := Some 20 |};
     scene := [0; 10; 20];
     sceneDonor := None |}.

(** The round trip of the specification, in the engine's arithmetic: the
    stored matrix of every joint, multiplied by the joint's world matrix,
    is the identity within [tolerance]. *)
Definition roundTripWithin (tolerance : float)
    (d d' : Document (num := float)) : Prop :=
  ∀ i j ibm m,
    listJoints d' !! i = Some j →
    inverseBindMatrices (skin d') = Some ibm → ibm !! i = Some m →
    withinTolerance tolerance (mat4_multiply m (getWorldMatrix d j))
                    mat4_identity = true.

(** A skin of one joint, 1000.00003 units from the origin along x, in the
    engine's arithmetic. *)
Definition farJointRig : Document (num := float) :=
  {| nodeStore :=
       {[ 10 := {| name := "Hips"; parent := None;
                   matrix := mat4_fromTranslation
                               (decimal 100000003 100000, num0, num0) |} ]};
     skin := {| joints := [10];
                inverseBindMatrices := Some [mat4_identity];
                skeleton := Some 10 |};
     scene := [10];
     sceneDonor := None |}.

(** [farJointRig] after [recomputeInverseBindMatrices]: the inverse moves
    by -1000.00003, which the buffer stores as -1000. *)
Definition farJointRig_recomputed : Document (num := float) :=
  {| nodeStore := nodeStore farJointRig;
     skin := {| joints := [10];
                inverseBindMatrices :=
                  Some [mat4_fromTranslation
                          (PrimFloat.opp (decimal 1000 1), num0, num0)];
                skeleton := Some 10 |};
     scene := [10];
     sceneDonor := None |}.


End Skeleton.

(** * Rigid skinning of the mesh nodes (lines 261-334) *)

Module RigidSkin.
Import GlMatrix.

Abbreviation NodeId := nat (only parsing).
Abbreviation MeshId := nat (only parsing).

(** [joints_0_array[i] = x] on a [Uint8Array]: the value is stored modulo
    2^8. *)
Definition toUint8 (x : nat) : Z := (Z.of_nat x mod 256)%Z.

(** Element [w] of an accessor of type VEC4 over a flat array. *)
Definition getElement4 {A : Type} (array : list A) (w : nat) : list A :=
  take 4 (drop (w * 4) array).

(** The four components written for one vertex: the first is set, the
    others keep the zero of the fresh array. *)
Definition element {A : Type} (v z : A) : list A := [v; z; z; z].

Section model.
Context {num : Type} `{JsNumber num}.

(** A primitive with the three attributes the stage reads or writes: the
    elements of POSITION, and the flat arrays of JOINTS_0 (a
    [Uint8Array]) and WEIGHTS_0 (a [Float32Array]). *)
Record Primitive := {
  POSITION : option (list (vec3 num));
  JOINTS_0 : option (list Z);
  WEIGHTS_0 : option (list num)
}.

(** A node of the scene graph: its name, the node it is a child of, its
    local transform as the matrix [getMatrix()] returns, its mesh, and
    whether [setSkin] was called on it. *)
Record Node := {
  name : string;
  parent : option NodeId;
  matrix : mat4 num;
  mesh : option MeshId;
  skinned : bool
}.

(** The document of the stage; a mesh is the list
    [mesh.listPrimitives()] of its primitives, and [scene] lists the root
    children of the scene. *)
Record Document := {
  nodeStore : gmap nat Node;
  meshStore : gmap nat (list Primitive);
  scene : list NodeId
}.

Definition withNodes (d : Document) (m : gmap nat Node) :=
  {| nodeStore := m; meshStore := meshStore d; scene := scene d |}.
Definition withMeshes (d : Document) (m : gmap nat (list Primitive)) :=
  {| nodeStore := nodeStore d; meshStore := m; scene := scene d |}.
Definition withScene (d : Document) (l : list NodeId) :=
  {| nodeStore := nodeStore d; meshStore := meshStore d; scene := l |}.

(** ** The document library's view of the graph *)

Definition isNode (d : Document) (n : NodeId) : bool :=
  bool_decide (is_Some (nodeStore d !! n)).

(** [node.getName()] *)
Definition getName (d : Document) (n : NodeId) : string :=
  match nodeStore d !! n with
  | Some nd => name nd
  | None => ""
  end.

(** [node.getParentNode()] *)
Definition getParentNode (d : Document) (n : NodeId) : option NodeId :=
  match nodeStore d !! n with
  | Some nd =>
      match parent nd with
      | Some p => if isNode d p then Some p else None
      | None => None
      end
  | None => None
  end.

(** [node.getMesh()] *)
Definition getMesh (d : Document) (n : NodeId) : option MeshId :=
  match nodeStore d !! n with
  | Some nd =>
      match mesh nd with
      | Some m => if bool_decide (is_Some (meshStore d !! m)) then Some m else None
      | None => None
      end
  | None => None
  end.

(** [node.getWorldMatrix()], as in the skeleton stage. *)
Fixpoint ancestorsFrom (fuel : nat) (d : Document) (n : NodeId) : list Node :=
  match fuel with
  | 0 => []
  | S fuel' =>
      match nodeStore d !! n with
      | Some nd =>
          nd :: match getParentNode d n with
                | Some p => ancestorsFrom fuel' d p
                | None => []
                end
      | None => []
      end
  end.

Definition getWorldMatrix (d : Document) (n : NodeId) : mat4 num :=
  match rev (ancestorsFrom (size (nodeStore d)) d n) with
  | [] => mat4_identity
  | top :: below =>
      foldl (λ world nd, mat4_multiply world (matrix nd)) (matrix top) below
  end.

Definition setParent (nd : Node) (p : option NodeId) : Node :=
  {| name := name nd; parent := p; matrix := matrix nd; mesh := mesh nd;
     skinned := skinned nd |}.

(** [node.setMatrix(m)] *)
Definition setMatrix (d : Document) (n : NodeId) (m : mat4 num) : Document :=
  withNodes d
    (alter (λ nd, {| name := name nd; parent := parent nd; matrix := m;
                     mesh := mesh nd; skinned := skinned nd |})
           n (nodeStore d)).

(** [node.setSkin(skin)] *)
Definition setSkin (d : Document) (n : NodeId) : Document :=
  withNodes d
    (alter (λ nd, {| name := name nd; parent := parent nd;
                     matrix := matrix nd; mesh := mesh nd; skinned := true |})
           n (nodeStore d)).

(** [parent.removeChild(node)] *)
Definition removeChild (d : Document) (p n : NodeId) : Document :=
  withNodes d
    (alter (λ nd, if bool_decide (parent nd = Some p) then setParent nd None
                  else nd) n (nodeStore d)).

(** [scene.addChild(node)] *)
Definition addChild (d : Document) (n : NodeId) : Document :=
  withScene d (scene d ++ [n]).

Definition removeId (i : nat) (l : list nat) : list nat :=
  List.filter (λ j, negb (Nat.eqb j i)) l.

Definition clearId (n : NodeId) (o : option NodeId) : option NodeId :=
  match o with
  | Some m => if Nat.eqb m n then None else Some m
  | None => None
  end.

(** [node.detach()] and [node.dispose()]: the node leaves its parent and
    the scene, then the graph; its children are left without a parent. *)
Definition detach (d : Document) (n : NodeId) : Document :=
  {| nodeStore := alter (λ nd, setParent nd None) n (nodeStore d);
     meshStore := meshStore d;
     scene := removeId n (scene d) |}.

Definition dispose (d : Document) (n : NodeId) : Document :=
  withNodes d
    ((λ nd, setParent nd (clearId n (parent nd))) <$> delete n (nodeStore d)).

(** ** Baking a transform into a mesh *)

(** A position written to the [Float32Array] of a POSITION accessor. *)
Definition storeVec3 (v : vec3 num) : vec3 num :=
  let '(x, y, z) := v in (fround x, fround y, fround z).

(** What [transformMesh(mesh, m)] of the document library does to the
    geometry: every position of every primitive of the mesh is replaced
    by its image under [m]. *)
Definition transformPrimitive (m : mat4 num) (p : Primitive) : Primitive :=
  {| POSITION := fmap (M := list) (λ v, storeVec3 (vec3_transformMat4 v m))
                   <$> POSITION p;
     JOINTS_0 := JOINTS_0 p;
     WEIGHTS_0 := WEIGHTS_0 p |}.

Definition transformMesh (m : mat4 num) (ps : list Primitive) : list Primitive :=
  transformPrimitive m <$> ps.

(** ** The joint of a mesh node (lines 279-290) *)

Section config.
(** [joints-map.json], and the joint index of the skeleton stage. *)
Variable jointsTuples : gmap string string.
Variable jointsIndex : gmap string nat.

(** [jointsIndex[jointsTuples[name]]]: a name that is not mapped gives
    [undefined], which as a property key is the string "undefined". *)
Definition lookupJoint (nm : string) : option nat :=
  jointsIndex !! default "undefined" (jointsTuples !! nm).

(** The loop [while (parentNode)], for at most [fuel] ancestors. *)
Fixpoint findJointIndex (fuel : nat) (d : Document) (parentNode : option NodeId)
  : option nat :=
  match fuel with
  | 0 => None
  | S fuel' =>
      match parentNode with
      | None => None
      | Some p =>
          match lookupJoint (getName d p) with
          | Some index => Some index
          | None => findJointIndex fuel' d (getParentNode d p)
          end
      end
  end.

(** The joint found from [parentNode] in document [d]. *)
Definition jointOf (d : Document) (parentNode : option NodeId) : option nat :=
  findJointIndex (size (nodeStore d)) d parentNode.

(** ** Skinning (lines 296-326) *)

(** [new Uint8Array(n * 4)] with [array[w * 4 + 0] = jointIndex] for
    every vertex [w]. *)
Definition joints_0_array (n jointIndex : nat) : list Z :=
  foldl (λ array w, <[w * 4 + 0 := toUint8 jointIndex]> array)
        (replicate (n * 4) 0%Z) (seq 0 n).

(** [new Float32Array(n * 4)] with [array[w * 4 + 0] = 1]. *)
Definition weights_0_array (n : nat) : list num :=
  foldl (λ array w, <[w * 4 + 0 := num1]> array)
        (replicate (n * 4) num0) (seq 0 n).

(** One turn of the loop over the primitives: primitive [p] gets its two
    attributes, then the whole mesh is transformed and the node's matrix
    is reset. *)
Definition skinPrimitive (worldTransform : mat4 num) (jointIndex : nat)
    (n : NodeId) (m : MeshId) (d : Document) (p : nat) : option Document :=
  match meshStore d !! m with
  | None => None
  | Some ps =>
      match ps !! p with
      | None => None
      | Some primitive =>
          match POSITION primitive with
          | None => None
          | Some positions =>
              let count := length positions in
              let primitive' :=
                {| POSITION := POSITION primitive;
                   JOINTS_0 := Some (joints_0_array count jointIndex);
                   WEIGHTS_0 := Some (weights_0_array count) |} in
              let ps' := transformMesh worldTransform (<[p := primitive']> ps) in
              Some (setMatrix (withMeshes d (<[m := ps']> (meshStore d)))
                              n mat4_identity)
          end
      end
  end.

Definition skinMesh (worldTransform : mat4 num) (jointIndex : nat)
    (n : NodeId) (m : MeshId) (d : Document) : option Document :=
  match meshStore d !! m with
  | None => None
  | Some ps =>
      foldM (skinPrimitive worldTransform jointIndex n m)
            (seq 0 (length ps)) (setSkin d n)
  end.

(** ** One node of the loop (lines 262-334) *)

Definition endsWith (s suffix : string) : bool :=
  let n := String.length s in
  let k := String.length suffix in
  (k <=? n) && String.eqb (String.substring (n - k) k s) suffix.

(** Lines 269-276: the node becomes a child of the scene with its world
    matrix as its matrix, and the mesh is scaled down. *)
Definition reparent (d : Document) (n p : NodeId) (m : MeshId) : Document :=
  let worldTransform := getWorldMatrix d n in
  let d1 := setMatrix (addChild (removeChild d p n) n) n worldTransform in
  withMeshes d1
    (alter (transformMesh (mat4_fromScaling (scale, scale, scale))) m
           (meshStore d1)).

(** One turn of the loop over [nodes].  A mesh node without a parent node
    (a root child of the scene) makes [parent] null, and
    [parent.removeChild(node)] throws; so does a node without a mesh whose
    name ends in -Local.  A node of the list that was disposed before the
    loop has neither mesh nor parent, and is passed over. *)
Definition processNode (d : Document) (n : NodeId) : option Document :=
  match nodeStore d !! n with
  | None => Some d
  | Some nd =>
      let parent := getParentNode d n in
      match getMesh d n with
      | Some m =>
          match parent with
          | None => None
          | Some p =>
              let worldTransform := getWorldMatrix d n in
              let d1 := reparent d n p m in
              match jointOf d1 parent with
              | Some jointIndex => skinMesh worldTransform jointIndex n m d1
              | None => Some d1
              end
          end
      | None =>
          if endsWith (name nd) "-Local" then
            match parent with
            | None => None
            | Some p => Some (dispose (detach (removeChild d p n) n) n)
            end
          else Some d
      end
  end.

(** The loop over [nodes], the nodes of the scene collected before the
    donor skeleton was grafted. *)
Definition processMeshes (nodes : list NodeId) (d : Document) : option Document :=
  foldM processNode nodes d.

End config.

(** ** What the statements about the stage speak of *)

(** The positions of a primitive after one [transformMesh(mesh, m)]. *)
Definition bake (m : mat4 num) (positions : list (vec3 num)) : list (vec3 num) :=
  (λ v, storeVec3 (vec3_transformMat4 v m)) <$> positions.

(** Every vertex of the primitive has the joints [v, 0, 0, 0] and the
    weights [1, 0, 0, 0]. *)
Definition boundTo (v : Z) (prim : Primitive) : Prop :=
  ∃ positions js ws,
    POSITION prim = Some positions ∧
    JOINTS_0 prim = Some js ∧ WEIGHTS_0 prim = Some ws ∧
    length js = length positions * 4 ∧ length ws = length positions * 4 ∧
    ∀ w, w < length positions →
         getElement4 js w = [v; 0; 0; 0]%Z ∧
         getElement4 ws w = [num1; num0; num0; num0].

(** The primitives [ps] are the primitives [ps0] after [j] turns of the
    skinning loop for joint [k] and transform [m]. *)
Definition skinnedUpTo (m : mat4 num) (k j : nat) (ps0 ps : list Primitive)
  : Prop :=
  length ps = length ps0 ∧
  ∀ p prim0, ps0 !! p = Some prim0 →
    ∃ prim, ps !! p = Some prim ∧
      POSITION prim = Nat.iter j (bake m) <$> POSITION prim0 ∧
      (p < j → ∃ positions0, POSITION prim0 = Some positions0 ∧
         JOINTS_0 prim = Some (joints_0_array (length positions0) k) ∧
         WEIGHTS_0 prim = Some (weights_0_array (length positions0))) ∧
      (j ≤ p → JOINTS_0 prim = JOINTS_0 prim0 ∧ WEIGHTS_0 prim = WEIGHTS_0 prim0).

Section claims.
Variable jointsTuples : gmap string string.
Variable jointsIndex : gmap string nat.

(** Rigid binding as the specification words it: the joints of every
    vertex are [k, 0, 0, 0] for the joint index [k] that was found. *)
Definition binds_to_found_joint (d : Document) (n : NodeId) (d' : Document)
  : Prop :=
  ∀ p m k prims' i prim',
    getParentNode d n = Some p → getMesh d n = Some m →
    jointOf jointsTuples jointsIndex (reparent d n p m) (Some p) = Some k →
    meshStore d' !! m = Some prims' → prims' !! i = Some prim' →
    boundTo (Z.of_nat k) prim'.

(** The baking as the specification words it: the geometry of a skinned
    mesh is the scaled geometry under the captured world transform,
    applied once. *)
Definition bakes_world_transform_once (d : Document) (n : NodeId)
    (d' : Document) : Prop :=
  ∀ p m k prims prims' i prim prim',
    getParentNode d n = Some p → getMesh d n = Some m →
    jointOf jointsTuples jointsIndex (reparent d n p m) (Some p) = Some k →
    meshStore d !! m = Some prims → prims !! i = Some prim →
    meshStore d' !! m = Some prims' → prims' !! i = Some prim' →
    POSITION prim' =
      (λ positions,
         bake (getWorldMatrix d n)
              (bake (mat4_fromScaling (scale, scale, scale)) positions))
      <$> POSITION prim.
End claims.

End model.

(** ** Example documents (exact arithmetic) *)

Definition translated (x y z : Q) : mat4 Q := mat4_fromTranslation (x, y, z).

(** A primitive of two vertices, not skinned yet. *)
Definition twoVertices : Primitive (num := Q) :=
  {| POSITION := Some [(10, 0, 0)%Q; (0, 0, 0)%Q];
     JOINTS_0 := None; WEIGHTS_0 := None |}.

(** The primitive after the stage, bound to the joint value [v] and with
    its geometry moved by [t] along x and y. *)
Definition twoVertices_skinned (v : Z) (x y : Q) : Primitive (num := Q) :=
  {| POSITION := Some [(x, y, 0)%Q; (y, y, 0)%Q];
     JOINTS_0 := Some [v; 0; 0; 0; v; 0; 0; 0]%Z;
     WEIGHTS_0 := Some [1; 0; 0; 0; 1; 0; 0; 0]%Q |}.

(** A hand mesh under an arm node: the arm is one unit up, the hand one
    unit to the side of it, so the hand's world transform is the
    translation by (1, 1, 0). *)
Definition handDoc (primitives : list Primitive) : Document (num := Q) :=
  {| nodeStore :=
       {[ 0 := {| name := "World-Global"; parent := None;
                  matrix := mat4_identity; mesh := None; skinned := false |};
          1 := {| name := "Arm-Global"; parent := Some 0;
                  matrix := translated 0 1 0; mesh := None; skinned := false |};
          2 := {| name := "Hand-Mesh"; parent := Some 1;
                  matrix := translated 1 0 0; mesh := Some 0;
                  skinned := false |} ]};
     meshStore := {[ 0 := primitives ]};
     scene := [0] |}.

(** [handDoc] after the hand node was processed. *)
Definition handDoc_processed (primitives : list Primitive) : Document (num := Q) :=
  {| nodeStore :=
       {[ 0 := {| name := "World-Global"; parent := None;
                  matrix := mat4_identity; mesh := None; skinned := false |};
          1 := {| name := "Arm-Global"; parent := Some 0;
                  matrix := translated 0 1 0; mesh := None; skinned := false |};
          2 := {| name := "Hand-Mesh"; parent := None;
                  matrix := mat4_identity; mesh := Some 0;
                  skinned := true |} ]};
     meshStore := {[ 0 := primitives ]};
     scene := [0; 2] |}.

(** The arm is mapped to a joint of the donor skeleton, whose index in
    the skin is [k]. *)
Definition armMap : gmap string string := {[ "Arm-Global" := "upperarm_l" ]}.
Definition armIndex (k : nat) : gmap string nat := {[ "upperarm_l" := k ]}.

End RigidSkin.

(** * The atlas grid (lines 383-394) *)

Module Atlas.

(** [Math.ceil(Math.sqrt(n))] for the length [n] of an array.  The
    engine's square root is correctly rounded and [n] is below 2^32, so
    the result is the integer ceiling of the square root: the root [r] of
    the integer square root when [n] is a square, and [r + 1] otherwise. *)
Definition Math_ceil_sqrt (n : N) : N :=
  let r := N.sqrt n in
  if (r * r =? n)%N then r else (r + 1)%N.

(** [atlasWidth = Math.ceil(Math.sqrt(allPrimitives.length))] *)
Definition atlasWidth (primitiveCount : N) : N := Math_ceil_sqrt primitiveCount.

(** [targetAtlasSize = atlasWidth * 64] *)
Definition targetAtlasSize (primitiveCount : N) : N :=
  (atlasWidth primitiveCount * 64)%N.

(** The same computation in the engine's arithmetic: the double nearest to
    [n], its square root, and the least integer not below it. *)
Definition Math_ceil (f : float) : Z :=
  match Prim2SF f with
  | S754_finite s m e =>
      let z := cond_Zopp s (Zpos m) in
      if (0 <=? e)%Z then (z * 2 ^ e)%Z
      else (- ((- z) / 2 ^ (- e)))%Z
  | _ => 0%Z
  end.

Definition atlasWidth_float (primitiveCount : N) : Z :=
  Math_ceil (PrimFloat.sqrt (float_of_Z (Z.of_N primitiveCount))).

Section remap.
Context {num : Type} `{JsNumber num}.

(** Modelled from the spec: [remapUvsToAtlas] of [includes/atlas.js] is not
    among the sources.  The column of a slot is [slotIndex % gridSide]. *)
Definition slotColumn (slotIndex gridSide : N) : N := (slotIndex mod gridSide)%N.

(** Modelled from the spec: the row of a slot is [slotIndex / gridSide], by
    integer division. *)
Definition slotRow (slotIndex gridSide : N) : N := (slotIndex / gridSide)%N.

(** Modelled from the spec: a coordinate [(u, v)] of slot [slotIndex] is
    mapped to [((u + col) / gridSide, (v + row) / gridSide)]. *)
Definition remapUv (uv : num * num) (slotIndex gridSide : N) : num * num :=
  let col := decimal (Z.of_N (slotColumn slotIndex gridSide)) 1 in
  let row := decimal (Z.of_N (slotRow slotIndex gridSide)) 1 in
  let g := decimal (Z.of_N gridSide) 1 in
  (ndiv (nadd (fst uv) col) g, ndiv (nadd (snd uv) row) g).

(** Modelled from the spec: [remapUvsToAtlas(uv, slotIndex, gridSide)]
    maps every coordinate of the buffer. *)
Definition remapUvsToAtlas (uvs : list (num * num)) (slotIndex gridSide : N)
  : list (num * num) :=
  (λ uv, remapUv uv slotIndex gridSide) <$> uvs.

(** A collected primitive, with the two attributes the loop reads:
    [getAttribute] gives an accessor of the document, or null.  An
    accessor may be the attribute of several primitives, and a primitive
    may be collected more than once. *)
Record Primitive := {
  TEXCOORD_0 : option nat;
  TEXCOORD_1 : option nat
}.

(** [if (uv) remapUvsToAtlas(uv, i, atlasWidth)]: the coordinates of the
    accessor are rewritten in place. *)
Definition remapAttribute (i gridSide : N) (uv : option nat)
    (accessors : gmap nat (list (num * num))) : gmap nat (list (num * num)) :=
  match uv with
  | Some a => alter (λ uvs, remapUvsToAtlas uvs i gridSide) a accessors
  | None => accessors
  end.

(** Lines 385-394: primitive [i] of the collection is remapped into slot
    [i] of a grid of side [atlasWidth], in each of the two sets of
    coordinates it has. *)
Definition updateUvs (allPrimitives : list Primitive)
    (accessors : gmap nat (list (num * num))) : gmap nat (list (num * num)) :=
  let gridSide := atlasWidth (N.of_nat (length allPrimitives)) in
  foldl (λ accessors '(i, primitive),
           let uv0 := TEXCOORD_0 primitive in
           let uv1 := TEXCOORD_1 primitive in
           remapAttribute (N.of_nat i) gridSide uv1
             (remapAttribute (N.of_nat i) gridSide uv0 accessors))
        accessors (imap (λ i primitive, (i, primitive)) allPrimitives).

(** ** What the statements about the loop speak of *)

(** How many of the two attributes of a primitive are the accessor [a]. *)
Definition references (a : nat) (primitive : Primitive) : nat :=
  (if decide (TEXCOORD_0 primitive = Some a) then 1 else 0) +
  (if decide (TEXCOORD_1 primitive = Some a) then 1 else 0).

(** The slots accessor [a] is remapped into, in the order of the loop:
    slot [i] once for each attribute of primitive [i] that is [a]. *)
Definition slotsOf (allPrimitives : list Primitive) (a : nat) : list N :=
  mjoin ((λ '(i, primitive), replicate (references a primitive) (N.of_nat i))
           <$> imap (λ i primitive, (i, primitive)) allPrimitives).

End remap.

(** ** An example collection (exact arithmetic): five primitives with
    coordinates of their own, the fourth with the single coordinate
    (0.5, 0.5); the last two share an accessor. *)
Definition fivePrimitives : list Primitive :=
  [ {| TEXCOORD_0 := Some 0; TEXCOORD_1 := None |};
    {| TEXCOORD_0 := Some 1; TEXCOORD_1 := None |};
    {| TEXCOORD_0 := Some 2; TEXCOORD_1 := None |};
    {| TEXCOORD_0 := Some 3; TEXCOORD_1 := None |};
    {| TEXCOORD_0 := Some 4; TEXCOORD_1 := Some 4 |} ].

Definition fiveAccessors : gmap nat (list (Q * Q)) :=
  {[ 0 := [(0, 0)%Q]; 1 := [(0, 0)%Q]; 2 := [(0, 0)%Q];
     3 := [((1 # 2)%Q, (1 # 2)%Q)]; 4 := [(0, 0)%Q] ]}.

End Atlas.

(** * Locating the data files (lines 17-50) *)

Module DataPath.

(** What a call gives: the value it returns, or the message of the
    [Error] it throws. *)
Inductive Outcome :=
  | Return (path : string)
  | Throw (message : string).

Section environment.
(** The file system, as [existsSync] sees it; [path.join] and
    [path.resolve] of the platform, on the list of their arguments; the
    directory of the module and [process.cwd()]. *)
Variable existsSync : string → bool.
Variable path_join : list string → string.
Variable path_resolve : list string → string.
Variable __dirname : string.
Variable process_cwd : string.

Definition standardPath (relativePath : string) : string :=
  path_join [__dirname; "./data"; relativePath].
Definition vercelPath (relativePath : string) : string :=
  path_join [__dirname; relativePath].
Definition upperPath (relativePath : string) : string :=
  path_join [__dirname; "../data"; relativePath].
Definition publicPath (relativePath : string) : string :=
  path_join [process_cwd; "public"; "data"; relativePath].
Definition projectRootPath (relativePath : string) : string :=
  path_resolve [process_cwd; "converter/data"; relativePath].

(** The message of the error of line 49. *)
Definition notFound (relativePath : string) : string :=
  "Could not find data file: " +:+ relativePath +:+ ". Tried paths: "
  +:+ standardPath relativePath +:+ ", " +:+ vercelPath relativePath
  +:+ ", " +:+ upperPath relativePath +:+ ", " +:+ publicPath relativePath
  +:+ ", " +:+ projectRootPath relativePath.

Definition resolveDataPath (relativePath : string) : Outcome :=
  if existsSync (standardPath relativePath) then
    Return (standardPath relativePath)
  else if existsSync (vercelPath relativePath) then
    Return (vercelPath relativePath)
  else if existsSync (upperPath relativePath) then
    Return (upperPath relativePath)
  else if existsSync (publicPath relativePath) then
    Return (publicPath relativePath)
  else if existsSync (projectRootPath relativePath) then
    Return (projectRootPath relativePath)
  else Throw (notFound relativePath).

(** The five places, in the order they are tried. *)
Definition candidates (relativePath : string) : list string :=
  [standardPath relativePath; vercelPath relativePath;
   upperPath relativePath; publicPath relativePath;
   projectRootPath relativePath].

End environment.

(** ** An example deployment

    The module lives in [/app/dist]; of the places tried, only the data
    directory one level up holds the files.  The paths are joined with a
    separator, without the normalisation of the platform. *)
Definition joinWithSlash (parts : list string) : string :=
  String.concat "/" parts.
Definition deployedFiles (p : string) : bool :=
  bool_decide (p ∈ ["/app/dist/../data/t-pose.json";
                    "/app/public/data/t-pose.json"]).

End DataPath.

(** * Collecting the nodes of a scene (lines 96-119) *)

Module Collect.

(** A node as the traversal sees it: an object of the document (its
    identity is [ident]), its name, and [node.listChildren()].  The scene
    graph of a document is a forest: a node is the child of one parent. *)
#[local] Unset Elimination Schemes.
Inductive Node := mkNode {
  ident : nat;
  getName : string;
  listChildren : list Node
}.
#[local] Set Elimination Schemes.

(** [collectNodes(node, list)]: the node is pushed, then the nodes below
    each of its children, child after child. *)
Fixpoint collectNodes (node : Node) (list : list Node)
  : Datatypes.list Node :=
  foldl (λ list child, collectNodes child list) (list ++ [node])
        (listChildren node).

(** Lines 109-113: the nodes below the root children of a scene, in a
    fresh list. *)
Definition collectScene (children : list Node) : list Node :=
  foldl (λ nodes child, collectNodes child nodes) [] children.

(** ** What the statements about the traversal speak of *)

(** [below n x]: [x] is [n] or a descendant of [n]. *)
Inductive below (n : Node) : Node → Prop :=
  | below_refl : below n n
  | below_child c x : c ∈ listChildren n → below c x → below n x.

(** The number of nodes of a subtree. *)
Fixpoint size (n : Node) : nat :=
  S (foldr (λ c k, size c + k) 0 (listChildren n)).

(** [x] has a place in [l] before a place of [y]. *)
Definition precedes (l : list Node) (x y : Node) : Prop :=
  ∃ l1 l2 l3, l = l1 ++ x :: l2 ++ y :: l3.

(** The identities of the nodes of a subtree, a node before its
    descendants. *)
Fixpoint identities (n : Node) : list nat :=
  ident n :: foldr (λ c k, identities c ++ k) [] (listChildren n).

(** ** An example scene: a world node over a hip with two legs, and a
    prop beside it. *)
Definition leaf (i : nat) (nm : string) : Node := mkNode i nm [].
Definition hipsTree : Node :=
  mkNode 1 "Hips-Global" [leaf 2 "LegL-Global"; leaf 3 "LegR-Global"].
Definition worldTree : Node := mkNode 0 "World-Global" [hipsTree].
Definition propTree : Node := leaf 4 "Prop-Local".

End Collect.

(** * The world node and the T-pose (lines 227-258) *)

Module TPose.
Import GlMatrix.

Abbreviation NodeId := nat (only parsing).

Section model.
Context {num : Type} `{JsNumber num}.

Definition quat : Type := num * num * num * num.

(** A node object with what the stage reads and writes: its name and its
    local translation, rotation and scale. *)
Record Node := {
  getName : string;
  getTranslation : vec3 num;
  getRotation : quat;
  getScale : vec3 num
}.

(** An entry of [t-pose.json]. *)
Record Pose := {
  position : vec3 num;
  rotation : quat
}.

Definition setTranslation (nd : Node) (t : vec3 num) : Node :=
  {| getName := getName nd; getTranslation := t;
     getRotation := getRotation nd; getScale := getScale nd |}.
Definition setRotation (nd : Node) (r : quat) : Node :=
  {| getName := getName nd; getTranslation := getTranslation nd;
     getRotation := r; getScale := getScale nd |}.
Definition setScale (nd : Node) (s : vec3 num) : Node :=
  {| getName := getName nd; getTranslation := getTranslation nd;
     getRotation := getRotation nd; getScale := s |}.

(** [vec3.scale([], a, b)] *)
Definition vec3_scale (a : vec3 num) (b : num) : vec3 num :=
  let '(x, y, z) := a in (nmul x b, nmul y b, nmul z b).

(** The node objects of the document, by identity.  The list [nodes] of
    the converter holds references to them; a node that was disposed is
    still an object with its name and transform. *)
Definition nameOf (d : gmap nat Node) (node : NodeId) : string :=
  match d !! node with
  | Some nd => getName nd
  | None => ""
  end.

Definition isWorldName (name : string) : bool :=
  String.eqb name "World-Global" || String.eqb name "Root-Global".

(** Lines 228-230: the first node of [nodes] with one of the two names,
    [None] when [filter] gives the empty array. *)
Definition findWorldNode (d : gmap nat Node) (nodes : list NodeId)
  : option NodeId :=
  head (List.filter (λ node, isWorldName (nameOf d node)) nodes).

(** Lines 233-238: the world node gets the unit scale and the identity
    rotation; without a world node there is a warning and nothing else. *)
Definition resetWorldNode (d : gmap nat Node) (worldNode : option NodeId)
  : gmap nat Node :=
  match worldNode with
  | Some w =>
      alter (λ nd, setRotation (setScale nd (num1, num1, num1))
                               (num0, num0, num0, num1)) w d
  | None => d
  end.

Section config.
(** [t-pose.json] *)
Variable tPose : gmap string Pose.

(** One turn of the loop of lines 242-258.  The table is read as
    [tPose[name]], and the map holds the entries of the table.  (A name
    that has no entry and is a property name of [Object.prototype] reads
    a function or an object there, and the node is given the position
    and rotation of that, which are undefined; the turn of the loop below
    is that of every other name, and of every name that has an entry.) *)
Definition poseNode (worldNode : option NodeId) (d : gmap nat Node)
    (node : NodeId) : gmap nat Node :=
  match d !! node with
  | None => d
  | Some nd =>
      let name := getName nd in
      if match worldNode with
         | Some w => String.eqb name (nameOf d w)
         | None => false
         end
      then d
      else
        match tPose !! name with
        | Some raw =>
            <[node := setRotation (setTranslation nd (position raw))
                                  (rotation raw)]> d
        | None =>
            <[node := setTranslation nd
                        (vec3_scale (getTranslation nd) scale)]> d
        end
  end.

(** Lines 227-258. *)
Definition transformToTPose (nodes : list NodeId) (d : gmap nat Node)
  : gmap nat Node :=
  let worldNode := findWorldNode d nodes in
  foldl (poseNode worldNode) (resetWorldNode d worldNode) nodes.

End config.

(** ** What the statements about the stage speak of *)

(** The name the loop passes over: the name of the world node. *)
Definition worldName (d : gmap nat Node) (nodes : list NodeId)
  : option string :=
  nameOf d <$> findWorldNode d nodes.

(** The world node after the stage: upright and of unit scale, where it
    was. *)
Definition upright (nd : Node) : Node :=
  {| getName := getName nd; getTranslation := getTranslation nd;
     getRotation := (num0, num0, num0, num1);
     getScale := (num1, num1, num1) |}.

(** A node in the pose of its entry of the table. *)
Definition posed (raw : Pose) (nd : Node) : Node :=
  {| getName := getName nd; getTranslation := position raw;
     getRotation := rotation raw; getScale := getScale nd |}.

(** A node without an entry, brought to the scale of the target. *)
Definition rescaled (nd : Node) : Node :=
  {| getName := getName nd;
     getTranslation := vec3_scale (getTranslation nd) scale;
     getRotation := getRotation nd; getScale := getScale nd |}.

End model.

(** ** An example (exact arithmetic): a tilted world node of scale 100
    over the hips, an arm, and a second node of the world node's name. *)
Definition tilted : quat (num := Q) := (0, 0, 1, 0)%Q.
Definition level : quat (num := Q) := (0, 0, 0, 1)%Q.

Definition rigNodes : gmap nat (Node (num := Q)) :=
  {[ 0 := {| getName := "World-Global"; getTranslation := (0, 5, 0)%Q;
             getRotation := tilted; getScale := (100, 100, 100)%Q |};
     1 := {| getName := "Hips-Global"; getTranslation := (0, 30, 0)%Q;
             getRotation := tilted; getScale := (1, 1, 1)%Q |};
     2 := {| getName := "Arm-Global"; getTranslation := (10, 0, 0)%Q;
             getRotation := tilted; getScale := (2, 2, 2)%Q |};
     3 := {| getName := "World-Global"; getTranslation := (10, 0, 0)%Q;
             getRotation := tilted; getScale := (1, 1, 1)%Q |};
     9 := {| getName := "pelvis"; getTranslation := (10, 0, 0)%Q;
             getRotation := tilted; getScale := (1, 1, 1)%Q |} ]}.

(** The pose table has an entry for the hips and one for the world node. *)
Definition poseTable : gmap string (Pose (num := Q)) :=
  {[ "Hips-Global" := {| position := (0, 1, 0)%Q; rotation := level |};
     "World-Global" := {| position := (7, 7, 7)%Q; rotation := tilted |} ]}.

End TPose.

(** * Collecting the primitives to merge (lines 369-381) *)

Module Merge.

Abbreviation NodeId := nat (only parsing).
Abbreviation MeshId := nat (only parsing).
Abbreviation PrimitiveId := nat (only parsing).
Abbreviation MaterialId := nat (only parsing).

(** A primitive object: [getMaterial()], [None] being [null], and the
    property [materialOld] the loop adds to it, [None] while it is
    undefined. *)
Record Primitive := {
  getMaterial : option MaterialId;
  materialOld : option (option MaterialId)
}.

(** [node.getMesh()] of the nodes that have a mesh,
    [mesh.listPrimitives()], and the primitive objects. *)
Record Document := {
  getMesh : gmap nat MeshId;
  listPrimitives : gmap nat (list PrimitiveId);
  primitiveStore : gmap nat Primitive
}.

(** Lines 377-379, for one primitive: the material it has is remembered,
    the new material is set, and the primitive is pushed. *)
Definition collectPrimitive (material : MaterialId)
    (state : list PrimitiveId * gmap nat Primitive) (p : PrimitiveId)
  : list PrimitiveId * gmap nat Primitive :=
  let '(allPrimitives, store) := state in
  (allPrimitives ++ [p],
   alter (λ primitive, {| getMaterial := Some material;
                          materialOld := Some (getMaterial primitive) |})
         p store).

(** The primitives of a node: none for a node without a mesh. *)
Definition primitivesOf (d : Document) (n : NodeId) : list PrimitiveId :=
  match getMesh d !! n with
  | Some mesh => default [] (listPrimitives d !! mesh)
  | None => []
  end.

(** Lines 371-381: the loop over [nodes], giving [allPrimitives] and the
    primitive objects as the loop leaves them. *)
Definition collectPrimitives (material : MaterialId) (nodes : list NodeId)
    (d : Document) : list PrimitiveId * gmap nat Primitive :=
  foldl (λ state n, foldl (collectPrimitive material) state (primitivesOf d n))
        ([], primitiveStore d) nodes.

(** ** What the statements about the loop speak of *)

(** How many times a primitive was pushed. *)
Definition pushes (allPrimitives : list PrimitiveId) (p : PrimitiveId) : nat :=
  count_occ Nat.eq_dec allPrimitives p.

(** A primitive with the new material, and with [old] remembered. *)
Definition rematerialed (material : MaterialId) (old : option MaterialId)
  : Primitive :=
  {| getMaterial := Some material; materialOld := Some old |}.

(** What lines 377-378 do to a primitive object. *)
Definition visit (material : MaterialId) (primitive : Primitive) : Primitive :=
  rematerialed material (getMaterial primitive).

(** ** An example: two nodes with a mesh of their own, and two nodes
    that share a mesh. *)
Definition wardrobe : Document :=
  {| getMesh := {[ 1 := 10; 2 := 11; 3 := 12; 4 := 12 ]};
     listPrimitives := {[ 10 := [100; 101]; 11 := [102]; 12 := [103] ]};
     primitiveStore :=
       {[ 100 := {| getMaterial := Some 1; materialOld := None |};
          101 := {| getMaterial := Some 2; materialOld := None |};
          102 := {| getMaterial := None; materialOld := None |};
          103 := {| getMaterial := Some 3; materialOld := None |} ]} |}.

End Merge.

(** * Further notions and example documents *)

Module SkeletonOrder.
Import Skeleton.
Section order.
Context {num : Type} `{JsNumber num}.
Implicit Types d : Document (num := num).

(** [survives d d']: the nodes of [d'] are nodes of [d], with their name
    and matrix, and with the parent they had or none. *)
Definition survives d d' : Prop :=
  ∀ j nd', nodeStore d' !! j = Some nd' →
    ∃ nd, nodeStore d !! j = Some nd ∧ name nd' = name nd ∧
          matrix nd' = matrix nd ∧
          (parent nd' = parent nd ∨ parent nd' = None).

End order.
End SkeletonOrder.

Module RigidSkinOrder.
Import RigidSkin.
Section order.
Context {num : Type} `{JsNumber num}.
Implicit Types d : Document (num := num).


(** [settles d d']: the meshes of [d'] are those of [d], and the nodes of
    [d'] are nodes of [d], with their name and mesh, and with the parent
    they had or none. *)
Definition settles d d' : Prop :=
  (∀ m, is_Some (meshStore d' !! m) ↔ is_Some (meshStore d !! m)) ∧
  (∀ y nd', nodeStore d' !! y = Some nd' →
     ∃ nd, nodeStore d !! y = Some nd ∧ name nd' = name nd ∧
           mesh nd' = mesh nd ∧
           (parent nd' = parent nd ∨ parent nd' = None)).

(** [quiet d d']: moreover, every node of [d] is a node of [d']. *)
Definition quiet d d' : Prop :=
  settles d d' ∧
  ∀ y, is_Some (nodeStore d !! y) → is_Some (nodeStore d' !! y).

End order.
End RigidSkinOrder.

Module Examples.

(** ** Animations *)

(** A channel without a target node. *)
Definition untargeted (s : nat) : Animation.Channel :=
  {| Animation.targetNode := None; Animation.targetPath := "weights";
     Animation.sampler := Some s |}.

(** One animation: an arm is rotated, and a second channel has no
    target. *)
Definition untargetedDoc : Animation.Document (num := Q) :=
  {| Animation.accessorStore := {[ 0 := [[0; 0; 0; 1]%Q]; 1 := [[1]%Q] ]};
     Animation.samplerStore :=
       {[ 0 := {| Animation.output := Some 0 |};
          1 := {| Animation.output := Some 1 |} ]};
     Animation.channelStore :=
       {[ 0 := Animation.armRotation 0; 1 := untargeted 1 ]};
     Animation.animationStore :=
       {[ 0 := {| Animation.channels := [0; 1];
                  Animation.samplers := [0; 1] |} ]};
     Animation.rootAnimations := [0] |}.

(** ** Mesh nodes *)

Definition plainNode (nm : string) (p : option nat) (m : option nat)
  : RigidSkin.Node (num := Q) :=
  {| RigidSkin.name := nm; RigidSkin.parent := p;
     RigidSkin.matrix := GlMatrix.mat4_identity;
     RigidSkin.mesh := m; RigidSkin.skinned := false |}.

(** A prop whose mesh node is a root child of the scene. *)
Definition rootMeshDoc : RigidSkin.Document (num := Q) :=
  {| RigidSkin.nodeStore :=
       {[ 0 := plainNode "World-Global" None None;
          5 := plainNode "Prop-Mesh" None (Some 0) ]};
     RigidSkin.meshStore := {[ 0 := [RigidSkin.twoVertices] ]};
     RigidSkin.scene := [0; 5] |}.

(** An arm with a helper node that has no mesh. *)
Definition helperDoc : RigidSkin.Document (num := Q) :=
  {| RigidSkin.nodeStore :=
       {[ 0 := plainNode "World-Global" None None;
          1 := plainNode "Arm-Global" (Some 0) None;
          3 := plainNode "Helper-Local" (Some 1) None ]};
     RigidSkin.meshStore := ∅;
     RigidSkin.scene := [0] |}.

(** [helperDoc] after the loop over its nodes. *)
Definition helperDoc_processed : RigidSkin.Document (num := Q) :=
  {| RigidSkin.nodeStore :=
       {[ 0 := plainNode "World-Global" None None;
          1 := plainNode "Arm-Global" (Some 0) None ]};
     RigidSkin.meshStore := ∅;
     RigidSkin.scene := [0] |}.

(** A joint map that sends the arm of the asset to the spine of the
    donor skeleton. *)
Definition spineMap : gmap string string := {[ "Arm-Global" := "Spine" ]}.

End Examples.
(** * Facts shared by the stages *)

Section foldM_facts.
Context {S A : Type} (step : S → A → option S).

Lemma foldM_app (l1 l2 : list A) (s : S) :
  foldM step (l1 ++ l2) s =
  match foldM step l1 s with Some s1 => foldM step l2 s1 | None => None end.
Proof.
  revert s. induction l1 as [|x l1 IH]; intros s; simpl; [done|].
  destruct (step s x); [apply IH | done].
Qed.

Lemma foldM_preserves (R : S → S → Prop) `{!Reflexive R} `{!Transitive R}
    (l : list A) (s s' : S) :
  (∀ s1 x s2, x ∈ l → step s1 x = Some s2 → R s1 s2) →
  foldM step l s = Some s' → R s s'.
Proof.
  revert s. induction l as [|x l IH]; intros s Hstep; simpl.
  - intros [= <-]. reflexivity.
  - destruct (step s x) as [s1|] eqn:E; [|done]. intros Hrun.
    transitivity s1.
    + eapply Hstep; [left|done].
    + apply IH; [|done]. intros. eapply Hstep; [by right|done].
Qed.

Lemma foldM_split `{!EqDecision A} (l : list A) (x : A) (s s' : S) :
  x ∈ l → foldM step l s = Some s' →
  ∃ l1 l2 s1 s2, l = l1 ++ x :: l2 ∧ (x ∉ l1) ∧
    foldM step l1 s = Some s1 ∧ step s1 x = Some s2 ∧
    foldM step l2 s2 = Some s'.
Proof.
  intros Hin Hrun.
  apply list_elem_of_split_l in Hin as (l1 & l2 & -> & Hnot).
  rewrite foldM_app in Hrun.
  destruct (foldM step l1 s) as [s1|] eqn:E1; [|done].
  simpl in Hrun. destruct (step s1 x) as [s2|] eqn:E2; [|done].
  by exists l1, l2, s1, s2.
Qed.

Lemma foldM_invariant (P : S → Prop) (l : list A) (s s' : S) :
  (∀ s1 x s2, x ∈ l → step s1 x = Some s2 → P s1 → P s2) →
  foldM step l s = Some s' → P s → P s'.
Proof.
  revert s. induction l as [|x l IH]; intros s Hstep; simpl.
  - by intros [= <-].
  - destruct (step s x) as [s1|] eqn:E; [|done]. intros Hrun Hs.
    apply (IH s1); [|done|].
    + intros. eapply Hstep; [by right|done|done].
    + eapply Hstep; [left|done|done].
Qed.
End foldM_facts.

Lemma foldM_ext_in {S A : Type} (f g : S → A → option S) (l : list A) (s : S) :
  (∀ s x, x ∈ l → f s x = g s x) → foldM f l s = foldM g l s.
Proof.
  revert s. induction l as [|x l IH]; intros s Hfg; simpl; [done|].
  rewrite <- (Hfg s x) by left. destruct (f s x); [|done].
  apply IH. intros. apply Hfg. by right.
Qed.


(** * The animation filter: proofs *)

Module AnimationFacts.
Import Animation.




Lemma occ_filter (p : nat → bool) (l : list nat) (j : nat) :
  occ (List.filter p l) j = if p j then occ l j else 0.
Proof.
  unfold occ. induction l as [|x l IH]; simpl.
  - by destruct (p j).
  - destruct (p x) eqn:Ex; simpl; destruct (Nat.eq_dec x j) as [->|Hne];
      rewrite IH; destruct (p j); congruence.
Qed.

Lemma occ_removeId (i j : nat) (l : list nat) :
  occ (removeId i l) j = if decide (j = i) then 0 else occ l j.
Proof.
  unfold removeId. rewrite occ_filter.
  destruct (decide (j = i)) as [->|Hne].
  - by rewrite Nat.eqb_refl.
  - apply Nat.eqb_neq in Hne. by rewrite Hne.
Qed.

Lemma occ_elem_of (l : list nat) (i : nat) : i ∈ l ↔ 0 < occ l i.
Proof. rewrite list_elem_of_In. apply count_occ_In. Qed.

Lemma elem_of_rev {A : Type} (l : list A) (x : A) : x ∈ rev l ↔ x ∈ l.
Proof. rewrite !list_elem_of_In. symmetry. apply in_rev. Qed.

Lemma occ_rev (l : list nat) (i : nat) : occ (rev l) i = occ l i.
Proof. apply count_occ_rev. Qed.

Lemma alive_true {A : Type} (m : gmap nat A) (i : nat) :
  alive m i = true ↔ is_Some (m !! i).
Proof. unfold alive. apply bool_decide_eq_true. Qed.

Section facts.
Context {num : Type} `{JsNumber num}.
Implicit Types d : Document (num := num).


#[global] Instance evolves_refl : Reflexive (@evolves num).
Proof.
  intros d. split; try done.
  intros a an Ha. exists an. split_and!; auto.
Qed.

#[global] Instance evolves_trans : Transitive (@evolves num).
Proof.
  intros d1 d2 d3 [C1 S1 A1 N1 R1] [C2 S2 A2 N2 R2]. split.
  - by etrans.
  - by etrans.
  - intros i. by rewrite A2.
  - intros a an3 Ha3.
    destruct (N2 _ _ Ha3) as (an2 & Ha2 & L2 & E2 & F2).
    destruct (N1 _ _ Ha2) as (an1 & Ha1 & L1 & E1 & F1).
    exists an1. split_and!; [done|..].
    + intros c. etrans; [apply L2|apply L1].
    + intros c Hc. rewrite E2 by done. apply E1.
      destruct Hc as [x Hx]. exists x. by eapply lookup_weaken.
    + intros s Hs. rewrite F2 by done. apply F1.
      destruct Hs as [x Hx]. exists x. by eapply lookup_weaken.
  - intros a. etrans; [apply R2|apply R1].
Qed.

Lemma deleteChannel_evolves d a c : evolves d (deleteChannel d a c).
Proof.
  split; simpl.
  - apply delete_subseteq.
  - done.
  - done.
  - intros a' an' Ha'. rewrite lookup_fmap in Ha'.
    destruct (decide (a' = a)) as [->|Hne].
    + rewrite lookup_alter_eq in Ha'.
      destruct (animationStore d !! a) as [an|] eqn:Ean; [|done].
      simpl in Ha'. injection Ha' as <-. exists an. simpl.
      split_and!; [done|..].
      * intros c'. rewrite !occ_removeId. case_decide; lia.
      * intros c' Hc'. rewrite !occ_removeId. case_decide; [|done].
        subst. rewrite lookup_delete_eq in Hc'. by destruct Hc'.
      * done.
    + rewrite lookup_alter_ne in Ha' by done.
      destruct (animationStore d !! a') as [an|] eqn:Ean; [|done].
      simpl in Ha'. injection Ha' as <-. exists an. simpl.
      split_and!; [done|..].
      * intros c'. rewrite !occ_removeId. case_decide; lia.
      * intros c' Hc'. rewrite !occ_removeId. case_decide; [|done].
        subst. rewrite lookup_delete_eq in Hc'. by destruct Hc'.
      * done.
  - done.
Qed.

Lemma scaleAccessor_evolves d acc :
  evolves d (withAccessors d (alter scaleKeyframes acc (accessorStore d))).
Proof.
  split; simpl; try done.
  - intros i. destruct (decide (i = acc)) as [->|Hne].
    + rewrite lookup_alter_eq. by rewrite fmap_is_Some.
    + by rewrite lookup_alter_ne.
  - intros a an Ha. exists an. split_and!; auto.
Qed.

Lemma processChannel_evolves a d c d' :
  processChannel a d c = Some d' → evolves d d'.
Proof.
  unfold processChannel. intros Hp.
  repeat case_match; simplify_eq;
    auto using deleteChannel_evolves, scaleAccessor_evolves, evolves_refl.
Qed.

Lemma detach_dispose_sampler_evolves d s :
  evolves d (disposeSampler (detachSampler d s) s).
Proof.
  split; simpl; try done.
  - apply delete_subseteq.
  - intros a' an' Ha'. rewrite lookup_fmap in Ha'.
    destruct (animationStore d !! a') as [an|] eqn:Ean; [|done].
    simpl in Ha'. injection Ha' as <-. exists an. simpl.
    split_and!; [done|done|done|].
    intros s' Hs'. rewrite occ_removeId. case_decide; [|done].
    subst. rewrite lookup_delete_eq in Hs'. by destruct Hs'.
Qed.

Lemma foldl_evolves {A : Type} (f : Document → A → Document) (l : list A) d :
  (∀ d x, evolves d (f d x)) → evolves d (foldl f d l).
Proof.
  intros Hf. revert d. induction l as [|x l IH]; intros d; simpl.
  - reflexivity.
  - etrans; [apply Hf|apply IH].
Qed.

Lemma releaseSamplers_evolves d a : evolves d (releaseSamplers d a).
Proof. apply foldl_evolves. intros. apply detach_dispose_sampler_evolves. Qed.

Lemma release_animation_evolves d a :
  evolves d (disposeAnimation (detachAnimation d a) a).
Proof.
  split; simpl; try done.
  - intros a' an' Ha'. apply lookup_delete_Some in Ha' as [_ Ha'].
    exists an'. split_and!; auto.
  - intros a'. rewrite occ_removeId. case_decide; lia.
Qed.

Lemma processChannels_evolves a l d d' :
  foldM (processChannel a) l d = Some d' → evolves d d'.
Proof.
  apply (foldM_preserves _ evolves). intros ? ? ? _.
  apply processChannel_evolves.
Qed.

Lemma processAnimation_evolves d a d' :
  processAnimation d a = Some d' → evolves d d'.
Proof.
  unfold processAnimation. intros Hp.
  destruct (foldM _ _ _) as [d1|] eqn:E1; [|done]. injection Hp as <-.
  etrans; [by eapply processChannels_evolves|].
  etrans; [apply releaseSamplers_evolves|apply release_animation_evolves].
Qed.

Lemma processAnimations_evolves l d d' :
  foldM processAnimation l d = Some d' → evolves d d'.
Proof.
  apply (foldM_preserves _ evolves). intros ? ? ? _.
  apply processAnimation_evolves.
Qed.


Lemma processChannel_other a d c d' c' :
  processChannel a d c = Some d' → c' ≠ c →
  channelStore d' !! c' = channelStore d !! c'.
Proof.
  unfold processChannel. intros Hp Hne.
  repeat case_match; simplify_eq; simpl; try done;
    by rewrite lookup_delete_ne.
Qed.

Lemma processChannel_visit a d c d' :
  processChannel a d c = Some d' →
  ∃ ch, channelStore d !! c = Some ch ∧
    channelStore d' !! c = (if kept ch then Some ch else None).
Proof.
  unfold processChannel, kept. intros Hp.
  destruct (channelStore d !! c) as [ch|] eqn:Ech; [|done].
  exists ch. split; [done|].
  repeat case_match; simplify_eq; simpl in *; try done;
    by rewrite lookup_delete_eq.
Qed.

Lemma processChannel_kept a d c d' c0 ch0 :
  processChannel a d c = Some d' →
  channelStore d !! c0 = Some ch0 → kept ch0 = true →
  channelStore d' !! c0 = Some ch0.
Proof.
  intros Hp Hc0 Hk. destruct (decide (c0 = c)) as [->|Hne].
  - destruct (processChannel_visit _ _ _ _ Hp) as (ch & Hch & ->).
    simplify_eq. by rewrite Hk.
  - by rewrite (processChannel_other _ _ _ _ _ Hp Hne).
Qed.

Lemma processChannel_samplers a d c d' :
  processChannel a d c = Some d' → samplerStore d' = samplerStore d.
Proof.
  unfold processChannel. intros Hp. by repeat case_match; simplify_eq.
Qed.

Lemma processChannel_alive a d c d' a' :
  processChannel a d c = Some d' →
  is_Some (animationStore d !! a') → is_Some (animationStore d' !! a').
Proof.
  unfold processChannel. intros Hp Ha.
  repeat case_match; simplify_eq; simpl; try done;
    rewrite lookup_fmap, fmap_is_Some;
    (destruct (decide (a' = a)) as [->|Hne];
     [rewrite lookup_alter_eq; by rewrite fmap_is_Some
     |by rewrite lookup_alter_ne]).
Qed.

Lemma foldl_invariant {A : Type} (P : Document (num := num) → Prop)
    (f : Document → A → Document) (l : list A) d :
  (∀ d x, P d → P (f d x)) → P d → P (foldl f d l).
Proof.
  intros Hf. revert d. induction l as [|x l IH]; intros d; simpl; auto.
Qed.

Lemma releaseSamplers_channels d a :
  channelStore (releaseSamplers d a) = channelStore d.
Proof.
  unfold releaseSamplers. generalize (rev (listSamplers d a)). intros l.
  revert d. induction l as [|s l IH]; intros d; simpl; [done|].
  by rewrite IH.
Qed.

Lemma releaseSamplers_alive d a a' :
  is_Some (animationStore d !! a') →
  is_Some (animationStore (releaseSamplers d a) !! a').
Proof.
  unfold releaseSamplers.
  apply (foldl_invariant (λ d, is_Some (animationStore d !! a'))).
  intros d0 s Ha. simpl. by rewrite lookup_fmap, fmap_is_Some.
Qed.

Lemma releaseSamplers_releases d a s :
  s ∈ listSamplers d a → samplerStore (releaseSamplers d a) !! s = None.
Proof.
  unfold releaseSamplers. intros Hs. apply elem_of_rev in Hs.
  revert Hs. generalize (rev (listSamplers d a)). intros l. revert d.
  induction l as [|x l IH]; intros d Hs; [by apply elem_of_nil in Hs|].
  simpl. destruct (decide (s ∈ l)) as [Hin|Hnin]; [by apply IH|].
  apply elem_of_cons in Hs as [->|?]; [|done].
  assert (∀ d', samplerStore d' !! x = None →
            samplerStore (foldl (λ d s, disposeSampler (detachSampler d s) s) d' l) !! x = None)
    as Hkeep.
  { clear. intros d'. apply (foldl_invariant (λ d, samplerStore d !! x = None)).
    intros d s Hd. simpl. destruct (decide (x = s)) as [->|Hne].
    - apply lookup_delete_eq.
    - by rewrite lookup_delete_ne. }
  apply Hkeep. simpl. apply lookup_delete_eq.
Qed.

Lemma elem_of_listChannels d a c :
  c ∈ listChannels d a ↔
  ∃ an, animationStore d !! a = Some an ∧ c ∈ channels an ∧
        is_Some (channelStore d !! c).
Proof.
  unfold listChannels. destruct (animationStore d !! a) as [an|].
  - rewrite list_elem_of_In, filter_In, alive_true, <- list_elem_of_In.
    split; [intros []; by exists an|intros (? & ? & ? & ?); by simplify_eq].
  - split; [by intros ?%elem_of_nil|by intros (? & ? & _)].
Qed.

Lemma elem_of_listSamplers d a s :
  s ∈ listSamplers d a ↔
  ∃ an, animationStore d !! a = Some an ∧ s ∈ samplers an ∧
        is_Some (samplerStore d !! s).
Proof.
  unfold listSamplers. destruct (animationStore d !! a) as [an|].
  - rewrite list_elem_of_In, filter_In, alive_true, <- list_elem_of_In.
    split; [intros []; by exists an|intros (? & ? & ? & ?); by simplify_eq].
  - split; [by intros ?%elem_of_nil|by intros (? & ? & _)].
Qed.

Lemma elem_of_listAnimations d a :
  a ∈ listAnimations d ↔ a ∈ rootAnimations d ∧ is_Some (animationStore d !! a).
Proof.
  unfold listAnimations.
  by rewrite list_elem_of_In, filter_In, alive_true, <- list_elem_of_In.
Qed.

Lemma evolves_channel_None d d' c :
  evolves d d' → channelStore d !! c = None → channelStore d' !! c = None.
Proof. intros [Hc _ _ _ _] Hn. by eapply lookup_weaken_None. Qed.

Lemma evolves_sampler_None d d' s :
  evolves d d' → samplerStore d !! s = None → samplerStore d' !! s = None.
Proof. intros [_ Hs _ _ _] Hn. by eapply lookup_weaken_None. Qed.

Lemma evolves_animation_None d d' a :
  evolves d d' → animationStore d !! a = None → animationStore d' !! a = None.
Proof.
  intros [_ _ _ Ha _] Hn. destruct (animationStore d' !! a) as [an'|] eqn:E; [|done].
  destruct (Ha _ _ E) as (an & Han & _). congruence.
Qed.

Lemma processChannels_alive a l d d' a' :
  foldM (processChannel a) l d = Some d' →
  is_Some (animationStore d !! a') → is_Some (animationStore d' !! a').
Proof.
  apply (foldM_invariant _ (λ d, is_Some (animationStore d !! a'))).
  intros ? ? ? _. apply processChannel_alive.
Qed.

Lemma processChannels_samplers a l d d' :
  foldM (processChannel a) l d = Some d' → samplerStore d' = samplerStore d.
Proof.
  intros Hrun.
  eapply (foldM_invariant _ (λ d1, samplerStore d1 = samplerStore d));
    [|exact Hrun|done].
  intros s1 x s2 _ Hp Heq. rewrite <- Heq. by eapply processChannel_samplers.
Qed.

Lemma processAnimation_other_alive d b d' a :
  processAnimation d b = Some d' → a ≠ b →
  is_Some (animationStore d !! a) → is_Some (animationStore d' !! a).
Proof.
  unfold processAnimation. intros Hp Hne Ha.
  destruct (foldM _ _ _) as [d1|] eqn:E1; [|done]. injection Hp as <-.
  simpl. rewrite lookup_delete_ne by done.
  apply releaseSamplers_alive. by eapply processChannels_alive.
Qed.

Lemma processAnimation_releases d a d' :
  processAnimation d a = Some d' → animationStore d' !! a = None.
Proof.
  unfold processAnimation. intros Hp.
  destruct (foldM _ _ _) as [d1|] eqn:E1; [|done]. injection Hp as <-.
  simpl. apply lookup_delete_eq.
Qed.

Lemma processAnimation_kept d a d' c0 ch0 :
  processAnimation d a = Some d' →
  channelStore d !! c0 = Some ch0 → kept ch0 = true →
  channelStore d' !! c0 = Some ch0.
Proof.
  unfold processAnimation. intros Hp Hc0 Hk.
  destruct (foldM _ _ _) as [d1|] eqn:E1; [|done]. injection Hp as <-.
  simpl. rewrite releaseSamplers_channels.
  revert Hc0. apply (foldM_invariant _ (λ d, channelStore d !! c0 = Some ch0) _ _ _)
    with (1 := λ s1 x s2 _ Hp H0, processChannel_kept _ _ _ _ _ _ Hp H0 Hk) (2 := E1).
Qed.

Lemma processAnimation_deletes d a d' c ch :
  processAnimation d a = Some d' → c ∈ listChannels d a →
  channelStore d !! c = Some ch → kept ch = false →
  channelStore d' !! c = None.
Proof.
  unfold processAnimation. intros Hp Hc Hch Hk.
  destruct (foldM _ _ _) as [d1|] eqn:E1; [|done]. injection Hp as <-.
  simpl. rewrite releaseSamplers_channels.
  apply elem_of_rev in Hc.
  destruct (foldM_split _ _ _ _ _ Hc E1) as (l1 & l2 & s1 & s2 & _ & _ & R1 & Hv & R2).
  apply processChannels_evolves in R1, R2.
  destruct (processChannel_visit _ _ _ _ Hv) as (ch' & Hch' & Hres).
  assert (ch' = ch) as ->.
  { destruct R1 as [Hsub _ _ _ _].
    pose proof (lookup_weaken _ _ _ _ Hch' Hsub). congruence. }
  rewrite Hk in Hres. by eapply evolves_channel_None.
Qed.

Lemma processAnimation_samplers d a d' s :
  processAnimation d a = Some d' → s ∈ listSamplers d a →
  samplerStore d' !! s = None.
Proof.
  unfold processAnimation. intros Hp Hs.
  destruct (foldM _ _ _) as [d1|] eqn:E1; [|done]. injection Hp as <-.
  simpl. apply releaseSamplers_releases.
  apply elem_of_listSamplers in Hs as (an & Han & Hin & Hlive).
  pose proof (processChannels_alive _ _ _ _ a E1 (mk_is_Some _ _ Han)) as [an1 Han1].
  pose proof (processChannels_samplers _ _ _ _ E1) as Hsame.
  apply processChannels_evolves in E1 as [_ _ _ Hanim _].
  destruct (Hanim _ _ Han1) as (an0 & Han0 & _ & _ & Hocc).
  simplify_eq. apply elem_of_listSamplers. exists an1.
  rewrite Hsame. split_and!; [done| |done].
  apply occ_elem_of. rewrite Hocc by (by rewrite Hsame). by apply occ_elem_of.
Qed.

Lemma removeAnimations_visit d d' a :
  removeAnimations d = Some d' → a ∈ listAnimations d →
  ∃ dk dk', evolves d dk ∧ is_Some (animationStore dk !! a) ∧
    processAnimation dk a = Some dk' ∧ evolves dk' d'.
Proof.
  unfold removeAnimations. intros Hrun Ha.
  pose proof Ha as [_ Hlive]%elem_of_listAnimations.
  apply elem_of_rev in Ha.
  destruct (foldM_split _ _ _ _ _ Ha Hrun) as (l1 & l2 & s1 & s2 & _ & Hnot & R1 & Hv & R2).
  exists s1, s2. split_and!; [by eapply processAnimations_evolves| |done|by eapply processAnimations_evolves].
  revert Hlive. apply (foldM_invariant _ (λ d, is_Some (animationStore d !! a)) _ _ _)
    with (2 := R1).
  intros ? b ? Hb Hp. eapply processAnimation_other_alive; [done|].
  intros ->. done.
Qed.


Lemma scaleKeyframes_fmap (acc : list (list num)) :
  scaleKeyframes acc = rescaled <$> acc.
Proof.
  unfold scaleKeyframes.
  assert (∀ k, k ≤ length acc →
            foldl (λ acc e, match acc !! e with
                            | Some element => setElement acc e (vec3_scale element scale)
                            | None => acc
                            end) acc (seq 0 k)
            = (rescaled <$> take k acc) ++ drop k acc) as Hk.
  { induction k as [|k IH]; intros Hle; [done|].
    rewrite seq_S, foldl_app, IH by lia. simpl.
    destruct (lookup_lt_is_Some_2 acc k) as [el Hel]; [lia|].
    assert (length (rescaled <$> take k acc) = k) as Hlen.
    { rewrite length_fmap, length_take. lia. }
    rewrite lookup_app_r by lia. rewrite Hlen, Nat.sub_diag.
    rewrite lookup_drop, Nat.add_0_r, Hel. unfold setElement.
    rewrite insert_app_r_alt by lia. rewrite Hlen, Nat.sub_diag.
    rewrite (take_S_r _ _ _ Hel), fmap_app, <- app_assoc. f_equal.
    rewrite (drop_S _ _ _ Hel). done. }
  rewrite Hk by done. by rewrite firstn_all, drop_all, app_nil_r.
Qed.


Lemma rootTranslation_kept ch : rootTranslation ch → kept ch = true.
Proof.
  intros [(t & Ht & Hn) Hp]. unfold kept. rewrite Ht, Hn, Hp. done.
Qed.

Section one_accessor.
Context (d0 : Document (num := num)) (c : ChannelId) (ch0 : Channel)
  (acc : AccessorId).
Context (Hch0 : channelStore d0 !! c = Some ch0) (Hrt : rootTranslation ch0)
  (Hout : outputOf d0 c = Some acc) (Hun : unshared d0 c acc).

Lemma processChannel_accessor a d x d' :
  evolves d0 d → processChannel a d x = Some d' →
  accessorStore d' !! acc =
    if decide (x = c) then scaleKeyframes <$> accessorStore d !! acc
    else accessorStore d !! acc.
Proof using Hch0 Hrt Hout Hun.
  intros [Hc Hs _ _ _] Hp. unfold processChannel in Hp.
  destruct (channelStore d !! x) as [ch|] eqn:Ech; [|done].
  pose proof (lookup_weaken _ _ _ _ Ech Hc) as Ech0.
  destruct (targetNode ch) as [t|] eqn:Et; [|done].
  assert (∀ s a', getSampler d ch = Some s → getOutput d s = Some a' →
            outputOf d0 x = Some a') as Hres.
  { intros s a' Hgs Hgo. unfold getSampler in Hgs. unfold getOutput in Hgo.
    destruct (sampler ch) as [s'|] eqn:Es; [|done].
    destruct (alive _ s'); [|done]. injection Hgs as ->.
    destruct (samplerStore d !! s) as [sm|] eqn:Esm; [|done].
    pose proof (lookup_weaken _ _ _ _ Esm Hs) as Esm0.
    destruct (output sm) as [o|] eqn:Eo; [|done].
    destruct (alive _ o); [|done]. injection Hgo as ->.
    unfold outputOf. by rewrite Ech0, Es, Esm0. }
  assert (accessorStore (deleteChannel d a x) = accessorStore d) as Hdel by done.
  destruct (decide (x = c)) as [->|Hne].
  - (* the channel itself: a translation channel of the root *)
    assert (ch = ch0) as -> by congruence.
    destruct Hrt as [(t0 & Ht0 & Hn0) Hp0].
    assert (t = t0) as -> by congruence.
    rewrite Hn0, Hp0 in Hp. simpl in Hp.
    destruct (getSampler d ch0) as [s|] eqn:Egs; [|done].
    destruct (getOutput d s) as [a'|] eqn:Ego; [|done].
    injection Hp as <-. simpl.
    pose proof (Hres _ _ eq_refl Ego) as Hx. assert (a' = acc) as -> by congruence.
    by rewrite lookup_alter_eq.
  - destruct (String.eqb (getName t) "Controller-Global") eqn:En.
    + destruct (String.eqb (targetPath ch) "scale") eqn:Eps.
      { injection Hp as <-. by rewrite Hdel. }
      destruct (String.eqb (targetPath ch) "translation") eqn:Ept.
      * destruct (getSampler d ch) as [s|] eqn:Egs; [|done].
        destruct (getOutput d s) as [a'|] eqn:Ego; [|done].
        injection Hp as <-. simpl.
        destruct (decide (a' = acc)) as [->|Hna]; [|by rewrite lookup_alter_ne].
        exfalso. apply Hne. apply (Hun x ch); [done| |by eapply (Hres _ _ eq_refl)].
        split; [exists t; split; [done|by apply String.eqb_eq]
               |by apply String.eqb_eq].
      * by injection Hp as <-.
    + destruct (negb _); injection Hp as <-; [by rewrite Hdel|done].
Qed.

Lemma processChannels_accessor a l d d' :
  evolves d0 d → foldM (processChannel a) l d = Some d' →
  accessorStore d' !! acc =
    Nat.iter (occ l c) (fmap scaleKeyframes) (accessorStore d !! acc).
Proof using Hch0 Hrt Hout Hun.
  revert d. induction l as [|x l IH]; intros d Hev; simpl.
  - by intros [= <-].
  - destruct (processChannel a d x) as [d1|] eqn:E1; [|done]. intros Hrun.
    rewrite (IH d1); [|by etrans; [|eapply processChannel_evolves]|done].
    rewrite (processChannel_accessor _ _ _ _ Hev E1).
    unfold occ. simpl. destruct (Nat.eq_dec x c) as [->|Hne].
    + rewrite decide_True by done. by rewrite Nat.iter_succ_r.
    + by rewrite decide_False.
Qed.

Lemma releaseSamplers_accessors d a :
  accessorStore (releaseSamplers d a) = accessorStore d.
Proof.
  unfold releaseSamplers. generalize (rev (listSamplers d a)). intros l.
  revert d. induction l as [|s l IH]; intros d; simpl; [done|].
  by rewrite IH.
Qed.

Lemma processAnimation_accessor d a d' :
  evolves d0 d → processAnimation d a = Some d' →
  accessorStore d' !! acc =
    Nat.iter (occ (listChannels d a) c) (fmap scaleKeyframes)
             (accessorStore d !! acc).
Proof using Hch0 Hrt Hout Hun.
  unfold processAnimation. intros Hev Hp.
  destruct (foldM _ _ _) as [d1|] eqn:E1; [|done]. injection Hp as <-.
  simpl. rewrite releaseSamplers_accessors.
  rewrite (processChannels_accessor _ _ _ _ Hev E1). by rewrite occ_rev.
Qed.

Lemma evolves_listChannels d a x :
  evolves d0 d → x ∈ listChannels d a → x ∈ listChannels d0 a.
Proof.
  intros [Hc _ _ Ha _] (an & Han & Hin & [chx Hx])%elem_of_listChannels.
  destruct (Ha _ _ Han) as (an0 & Han0 & Hle & _).
  apply elem_of_listChannels. exists an0. split_and!; [done| |].
  - apply occ_elem_of. apply occ_elem_of in Hin. specialize (Hle x). lia.
  - exists chx. by eapply lookup_weaken.
Qed.

Lemma processAnimations_others (a : AnimationId) l d d' :
  evolves d0 d → a ∉ l →
  (∀ a', a' ∈ l → a' ≠ a → c ∉ listChannels d0 a') →
  foldM processAnimation l d = Some d' →
  accessorStore d' !! acc = accessorStore d !! acc.
Proof using Hch0 Hrt Hout Hun.
  revert d. induction l as [|x l IH]; intros d Hev Hnot Hoth; simpl.
  - by intros [= <-].
  - destruct (processAnimation d x) as [d1|] eqn:E1; [|done]. intros Hrun.
    apply not_elem_of_cons in Hnot as [Hne Hnot].
    rewrite (IH d1); [|by etrans; [|eapply processAnimation_evolves]|done| |done].
    + rewrite (processAnimation_accessor _ _ _ Hev E1).
      assert (occ (listChannels d x) c = 0) as ->; [|done].
      destruct (occ (listChannels d x) c) eqn:E; [done|exfalso].
      apply (Hoth x); [left|done|].
      eapply evolves_listChannels; [done|]. apply occ_elem_of. lia.
    + intros a' Ha'. apply Hoth. by right.
Qed.
End one_accessor.

Lemma processAnimations_kept l d d' c0 ch0 :
  foldM processAnimation l d = Some d' →
  channelStore d !! c0 = Some ch0 → kept ch0 = true →
  channelStore d' !! c0 = Some ch0.
Proof.
  intros Hrun Hc0 Hk. revert Hc0.
  apply (foldM_invariant _ (λ d, channelStore d !! c0 = Some ch0) _ _ _)
    with (2 := Hrun).
  intros s1 x s2 _ Hp H0. by eapply processAnimation_kept.
Qed.

Lemma removeAnimations_leaves_none d d' :
  removeAnimations d = Some d' → listAnimations d' = [].
Proof.
  intros Hrun.
  destruct (listAnimations d') as [|a l] eqn:E; [done|exfalso].
  assert (a ∈ listAnimations d') as Ha by (rewrite E; left).
  apply elem_of_listAnimations in Ha as [Hroot [an' Hlive]].
  pose proof (processAnimations_evolves _ _ _ Hrun) as Hev.
  assert (a ∈ listAnimations d) as Hin.
  { destruct Hev as [_ _ _ Hanim Hr]. apply elem_of_listAnimations. split.
    - apply occ_elem_of. apply occ_elem_of in Hroot. specialize (Hr a). lia.
    - destruct (Hanim _ _ Hlive) as (an & Han & _). by exists an. }
  destruct (removeAnimations_visit _ _ _ Hrun Hin) as (dk & dk' & _ & _ & Hp & Hev').
  apply processAnimation_releases in Hp.
  pose proof (evolves_animation_None _ _ _ Hev' Hp). congruence.
Qed.

Lemma occ_listChannels d a c :
  is_Some (channelStore d !! c) →
  occ (listChannels d a) c =
    match animationStore d !! a with
    | Some an => occ (channels an) c
    | None => 0
    end.
Proof.
  intros Hlive. unfold listChannels.
  destruct (animationStore d !! a) as [an|]; [|done].
  rewrite occ_filter. by apply alive_true in Hlive as ->.
Qed.
End facts.

(** C1, as amended.  When the filter returns: a channel of a listed
    animation whose target node is not named Controller-Global is disposed
    unless its target path is rotation, and a rotation channel stays as it
    was; every sampler of every listed animation is released; and every
    listed animation is released, whether or not channels of it remain, so
    that the document lists no animation afterwards. *)
Theorem filter_releases_every_animation {num : Type} `{JsNumber num}
    (d d' : Document (num := num)) :
  removeAnimations d = Some d' →
  (∀ a c ch t,
      a ∈ listAnimations d → c ∈ listChannels d a →
      channelStore d !! c = Some ch → targetNode ch = Some t →
      getName t ≠ "Controller-Global" →
      channelStore d' !! c =
        if decide (targetPath ch = "rotation") then Some ch else None) ∧
  (∀ a s, a ∈ listAnimations d → s ∈ listSamplers d a →
          samplerStore d' !! s = None) ∧
  (∀ a, a ∈ listAnimations d → animationStore d' !! a = None) ∧
  listAnimations d' = [].
Proof.
  intros Hrun. split_and!.
  - intros a c ch t Ha Hc Hch Ht Hn.
    assert (kept ch = bool_decide (targetPath ch = "rotation")) as Hk.
    { unfold kept. rewrite Ht. apply String.eqb_neq in Hn. rewrite Hn.
      case_bool_decide as Hd.
      - by apply String.eqb_eq.
      - by apply String.eqb_neq. }
    case_decide as Hrot.
    + rewrite bool_decide_eq_true_2 in Hk by done.
      by eapply processAnimations_kept.
    + rewrite bool_decide_eq_false_2 in Hk by done.
      destruct (removeAnimations_visit _ _ _ Hrun Ha)
        as (dk & dk' & Hev & [ank Hank] & Hp & Hev').
      destruct (channelStore dk !! c) as [chk|] eqn:Ek.
      * assert (chk = ch) as ->.
        { destruct Hev as [Hsub _ _ _ _].
          pose proof (lookup_weaken _ _ _ _ Ek Hsub). congruence. }
        eapply evolves_channel_None; [done|].
        eapply processAnimation_deletes; [done| |done|done].
        apply elem_of_listChannels in Hc as (an & Han & Hin & _).
        apply elem_of_listChannels. exists ank. split_and!; [done| |by exists ch].
        destruct Hev as [_ _ _ Hanim _].
        destruct (Hanim _ _ Hank) as (an0 & Han0 & _ & Heq & _).
        simplify_eq. apply occ_elem_of. rewrite Heq by (by exists ch).
        by apply occ_elem_of.
      * eapply evolves_channel_None; [|done].
        etrans; [by eapply processAnimation_evolves|done].
  - intros a s Ha Hs.
    destruct (removeAnimations_visit _ _ _ Hrun Ha)
      as (dk & dk' & Hev & [ank Hank] & Hp & Hev').
    destruct (samplerStore dk !! s) as [smk|] eqn:Ek.
    + eapply evolves_sampler_None; [done|].
      eapply processAnimation_samplers; [done|].
      apply elem_of_listSamplers in Hs as (an & Han & Hin & _).
      apply elem_of_listSamplers. exists ank. split_and!; [done| |by exists smk].
      destruct Hev as [_ _ _ Hanim _].
      destruct (Hanim _ _ Hank) as (an0 & Han0 & _ & _ & Heq).
      simplify_eq. apply occ_elem_of. rewrite Heq by (by exists smk).
      by apply occ_elem_of.
    + eapply evolves_sampler_None; [|done].
      etrans; [by eapply processAnimation_evolves|done].
  - intros a Ha.
    destruct (removeAnimations_visit _ _ _ Hrun Ha)
      as (dk & dk' & _ & _ & Hp & Hev').
    eapply evolves_animation_None; [done|]. by eapply processAnimation_releases.
  - by eapply removeAnimations_leaves_none.
Qed.

(** X28.  A translation channel of the node named Controller-Global that
    is listed once, and whose output accessor no other such channel
    writes to, is not disposed by the filter (its sampler and its
    animation are released like every other), and every keyframe of that
    accessor is multiplied once by [scale] = 0.032 * 1.1 (the first three
    components of each element, stored as a [Float32Array] stores
    them). *)
Theorem root_translation_rescaled_once {num : Type} `{JsNumber num}
    (d d' : Document (num := num)) (a : AnimationId) (c : ChannelId)
    (ch : Channel) (acc : AccessorId) (keyframes : list (list num)) :
  removeAnimations d = Some d' →
  occ (listAnimations d) a = 1 →
  occ (listChannels d a) c = 1 →
  (∀ a', a' ∈ listAnimations d → a' ≠ a → c ∉ listChannels d a') →
  channelStore d !! c = Some ch →
  rootTranslation ch →
  outputOf d c = Some acc →
  unshared d c acc →
  accessorStore d !! acc = Some keyframes →
  channelStore d' !! c = Some ch ∧
  accessorStore d' !! acc = Some (rescaled <$> keyframes).
Proof.
  intros Hrun Ha Hc Hoth Hch Hrt Hout Hun Hacc.
  pose proof (rootTranslation_kept _ Hrt) as Hk.
  split; [by eapply processAnimations_kept|].
  unfold removeAnimations in Hrun.
  assert (a ∈ rev (listAnimations d)) as Hin.
  { apply elem_of_rev, occ_elem_of. lia. }
  destruct (foldM_split _ _ _ _ _ Hin Hrun)
    as (l1 & l2 & s1 & s2 & Hl & Hn1 & R1 & Hv & R2).
  assert (a ∉ l2) as Hn2.
  { intros Hin2%occ_elem_of.
    pose proof (occ_rev (listAnimations d) a) as Hr. rewrite Hl in Hr.
    unfold occ in *. rewrite count_occ_app in Hr. simpl in Hr.
    destruct (Nat.eq_dec a a); [lia|done]. }
  assert (∀ a', a' ∈ rev (listAnimations d) → a' ≠ a → c ∉ listChannels d a')
    as Hoth'.
  { intros a' Ha'. apply Hoth. by apply elem_of_rev. }
  pose proof (processAnimations_evolves _ _ _ R1) as Hev1.
  pose proof (processAnimation_evolves _ _ _ Hv) as Hev2.
  rewrite (processAnimations_others d c ch acc Hch Hrt Hout Hun a l2 s2 d');
    [|by etrans|done| |done].
  2:{ intros a' Ha'. apply Hoth'. rewrite Hl. apply elem_of_app. right. by right. }
  rewrite (processAnimation_accessor d c ch acc Hch Hrt Hout Hun s1 a s2 Hev1 Hv).
  rewrite (processAnimations_others d c ch acc Hch Hrt Hout Hun a l1 d s1);
    [|reflexivity|done| |done].
  2:{ intros a' Ha'. apply Hoth'. rewrite Hl. apply elem_of_app. by left. }
  assert (occ (listChannels s1 a) c = 1) as ->.
  { pose proof (processAnimations_kept _ _ _ _ _ R1 Hch Hk) as Hc1.
    assert (is_Some (animationStore s1 !! a)) as [an1 Han1].
    { assert (is_Some (animationStore d !! a)) as Hlive.
      { assert (a ∈ listAnimations d) as [_ ?]%elem_of_listAnimations; [|done].
        apply occ_elem_of. lia. }
      revert Hlive.
      apply (foldM_invariant _ (λ d, is_Some (animationStore d !! a)) _ _ _)
        with (2 := R1).
      intros ? b ? Hb Hp. eapply processAnimation_other_alive; [done|].
      by intros ->. }
    rewrite occ_listChannels in Hc |- * by (by eexists).
    rewrite Han1. destruct Hev1 as [_ _ _ Hanim _].
    destruct (Hanim _ _ Han1) as (an0 & Han0 & _ & Heq & _).
    rewrite Han0 in Hc. rewrite Heq by (by eexists). done. }
  simpl. rewrite Hacc. simpl. by rewrite scaleKeyframes_fmap.
Qed.

(** ** The filter on the example documents *)

Lemma walkDoc_run : removeAnimations walkDoc = Some walkDoc_filtered.
Proof. vm_compute. reflexivity. Qed.

Lemma rotationDoc_run : removeAnimations rotationDoc = Some rotationDoc_filtered.
Proof. vm_compute. reflexivity. Qed.

Lemma sharedDoc_run : removeAnimations sharedDoc = Some sharedDoc_filtered.
Proof. vm_compute. reflexivity. Qed.

Lemma not_rootTranslation_scale s : ¬ rootTranslation (hipsScale s).
Proof. by intros [_ ?]. Qed.

Lemma not_rootTranslation_arm p s :
  ¬ rootTranslation {| targetNode := Some arm; targetPath := p; sampler := s |}.
Proof. intros [(t & [= <-] & Hn) _]. discriminate Hn. Qed.

Lemma rootTranslation_hips s : rootTranslation (hipsTranslation s).
Proof. split; [by exists controllerGlobal|done]. Qed.

(** C1 on [walkDoc]: the rotation of the arm is kept, its translation is
    disposed, and the samplers and the animation are released. *)
Lemma filter_releases_every_animation_witness :
  removeAnimations walkDoc = Some walkDoc_filtered ∧
  channelStore walkDoc_filtered !! 2 = Some (armRotation 2) ∧
  channelStore walkDoc_filtered !! 3 = None ∧
  samplerStore walkDoc_filtered !! 2 = None ∧
  animationStore walkDoc_filtered !! 0 = None ∧
  listAnimations walkDoc_filtered = [].
Proof.
  destruct (filter_releases_every_animation walkDoc walkDoc_filtered walkDoc_run)
    as (Hch & Hs & Ha & Hl).
  assert (listAnimations walkDoc = [0]) as Hla by (vm_compute; reflexivity).
  assert (listChannels walkDoc 0 = [0; 1; 2; 3]) as Hlc by (vm_compute; reflexivity).
  assert (listSamplers walkDoc 0 = [0; 1; 2; 3]) as Hls by (vm_compute; reflexivity).
  assert (0 ∈ listAnimations walkDoc) as H0 by (rewrite Hla; left).
  split_and!.
  - exact walkDoc_run.
  - apply (Hch 0 2 (armRotation 2) arm); [done| |done|done|done].
    rewrite Hlc. do 2 right. left.
  - apply (Hch 0 3 (armTranslation 3) arm); [done| |done|done|done].
    rewrite Hlc. do 3 right. left.
  - apply (Hs 0 2); [done|]. rewrite Hls. do 2 right. left.
  - by apply Ha.
  - exact Hl.
Defined.

(** C1 as stated fails: the animation of [rotationDoc] keeps its rotation
    channel through the channel loop, and is released all the same. *)
Lemma rotation_animation_is_released :
  removeAnimations rotationDoc = Some rotationDoc_filtered ∧
  ¬ retains_rotation_animations rotationDoc rotationDoc_filtered.
Proof.
  split; [exact rotationDoc_run|]. intros Hret.
  assert (0 ∈ listAnimations rotationDoc_filtered) as Hin.
  { apply (Hret 0 0 (armRotation 0) arm); try done.
    - replace (listAnimations rotationDoc) with [0] by (vm_compute; reflexivity).
      left.
    - replace (listChannels rotationDoc 0) with [0] by (vm_compute; reflexivity).
      left. }
  apply elem_of_listAnimations in Hin as [Hin _]. by apply elem_of_nil in Hin.
Qed.

(** X28, an instance.  On [walkDoc] the keyframe (10, 0, 0) becomes
    (0.352, 0, 0). *)
Lemma root_translation_rescaled_once_witness :
  removeAnimations walkDoc = Some walkDoc_filtered ∧
  accessorStore walkDoc !! 0 = Some [[10; 0; 0]%Q] ∧
  channelStore walkDoc_filtered !! 0 = Some (hipsTranslation 0) ∧
  accessorStore walkDoc_filtered !! 0 = Some [[44 # 125; 0; 0]%Q].
Proof.
  assert (listAnimations walkDoc = [0]) as Hla by (vm_compute; reflexivity).
  split; [exact walkDoc_run|]. split; [done|].
  assert (rescaled (num := Q) <$> [[10; 0; 0]%Q] = [[44 # 125; 0; 0]%Q]) as <-
    by (vm_compute; reflexivity).
  apply (root_translation_rescaled_once walkDoc walkDoc_filtered 0 0
           (hipsTranslation 0) 0 [[10; 0; 0]%Q]).
  - exact walkDoc_run.
  - vm_compute. reflexivity.
  - vm_compute. reflexivity.
  - intros a'. rewrite Hla. intros ->%list_elem_of_singleton. done.
  - done.
  - apply rootTranslation_hips.
  - vm_compute. reflexivity.
  - intros c' ch' Hc' Hrt _. simpl in Hc'.
    apply lookup_insert_Some in Hc' as [[<- <-]|[_ Hc']]; [done|].
    apply lookup_insert_Some in Hc' as [[<- <-]|[_ Hc']];
      [by apply not_rootTranslation_scale in Hrt|].
    apply lookup_insert_Some in Hc' as [[<- <-]|[_ Hc']];
      [by apply not_rootTranslation_arm in Hrt|].
    apply lookup_singleton_Some in Hc' as [<- <-].
    by apply not_rootTranslation_arm in Hrt.
  - done.
Defined.

(** C7.  The filter rescales the keyframes in place, once for each
    translation channel of the root that reads them: the two channels of
    [sharedDoc] share an accessor, and its keyframe (10, 0, 0), which
    rescaled once is (0.352, 0, 0), ends as 10 * 0.0352 * 0.0352 =
    0.0123904 along x. *)
Lemma shared_output_is_rescaled_twice :
  removeAnimations sharedDoc = Some sharedDoc_filtered ∧
  accessorStore sharedDoc !! 0 = Some [[10; 0; 0]%Q] ∧
  accessorStore sharedDoc_filtered !! 0 = Some [[968 # 78125; 0; 0]%Q] ∧
  rescaled (num := Q) <$> [[10; 0; 0]%Q] = [[44 # 125; 0; 0]%Q] ∧
  ¬ rescales_every_root_translation sharedDoc sharedDoc_filtered.
Proof.
  split; [exact sharedDoc_run|]. split; [reflexivity|].
  split; [reflexivity|]. split; [vm_compute; reflexivity|]. intros Hres.
  destruct (Hres 1 1 (hipsTranslation 1) 0 [[10; 0; 0]%Q]) as [_ Hacc].
  - replace (listAnimations sharedDoc) with [0; 1] by (vm_compute; reflexivity).
    right. left.
  - replace (listChannels sharedDoc 1) with [1] by (vm_compute; reflexivity).
    left.
  - done.
  - apply rootTranslation_hips.
  - vm_compute. reflexivity.
  - done.
  - vm_compute in Hacc. discriminate Hacc.
Qed.

(** The scale factor and the example of the specification, in exact
    arithmetic and as the engine computes them. *)
Lemma scale_Q : scale (num := Q) = (352 # 10000)%Q.
Proof. reflexivity. Qed.

Lemma rescaled_example_Q :
  rescaled (num := Q) [10; 0; 0]%Q = [44 # 125; 0; 0]%Q.
Proof. reflexivity. Qed.

Lemma scale_float : scale (num := float) = 0x1.205bc01a36e2fp-5%float.
Proof. reflexivity. Qed.

Lemma rescaled_example_float :
  rescaled (num := float) [10; 0; 0]%float
  = [0x1.6872b0p-2; 0; 0]%float.
Proof. vm_compute. reflexivity. Qed.

End AnimationFacts.

(** * The skeleton stage: proofs *)

Module SkeletonFacts.
Import GlMatrix Skeleton.

Section index.
Context {A V : Type} (key : A → string) (val : A → V).

Lemma foldl_insert_lookup (l : list A) (m : gmap string V) (k : string) (v : V) :
  foldl (λ index x, <[key x := val x]> index) m l !! k = Some v →
  (∃ x, x ∈ l ∧ key x = k ∧ val x = v) ∨ m !! k = Some v.
Proof.
  revert m. induction l as [|x l IH]; intros m; simpl; [by right|].
  intros [(y & Hy & Hk & Hv)|Hm]%IH.
  - left. exists y. split_and!; [by right|done|done].
  - apply lookup_insert_Some in Hm as [[<- <-]|[_ Hm]]; [|by right].
    left. exists x. split_and!; [left|done|done].
Qed.

Lemma foldl_insert_is_Some (l : list A) (m : gmap string V) (x : A) :
  x ∈ l → is_Some (foldl (λ index x, <[key x := val x]> index) m l !! key x).
Proof.
  assert (∀ (l : list A) (m : gmap string V) (k : string), is_Some (m !! k) →
            is_Some (foldl (λ index x, <[key x := val x]> index) m l !! k)) as Hkeep.
  { clear. induction l as [|y l IH]; intros m k Hk; simpl; [done|].
    apply IH. rewrite lookup_insert. case_decide; [by eexists|done]. }
  revert m. induction l as [|y l IH]; intros m Hx; [by apply elem_of_nil in Hx|].
  simpl. apply elem_of_cons in Hx as [->|Hx]; [|by apply IH].
  apply Hkeep. rewrite lookup_insert_eq. by eexists.
Qed.
End index.

Section facts.
Context {num : Type} `{JsNumber num}.
Implicit Types d : Document (num := num).

Lemma isNode_true d n : isNode d n = true ↔ is_Some (nodeStore d !! n).
Proof. unfold isNode. apply bool_decide_eq_true. Qed.

Lemma elem_of_listJoints d j :
  j ∈ listJoints d ↔ j ∈ joints (skin d) ∧ is_Some (nodeStore d !! j).
Proof.
  unfold listJoints.
  by rewrite list_elem_of_In, filter_In, isNode_true, <- list_elem_of_In.
Qed.

Lemma elem_of_removeId (i j : nat) (l : list nat) :
  j ∈ removeId i l ↔ j ∈ l ∧ j ≠ i.
Proof.
  unfold removeId. rewrite list_elem_of_In, filter_In, <- list_elem_of_In.
  rewrite negb_true_iff, Nat.eqb_neq. done.
Qed.

(** ** One joint removed *)

Lemma removeJointNode_self d p j : nodeStore (removeJointNode d p j) !! j = None.
Proof. simpl. by rewrite lookup_fmap, lookup_delete_eq. Qed.

Lemma removeJointNode_other d p j j' :
  j' ≠ j →
  nodeStore (removeJointNode d p j) !! j' =
    (λ nd, {| name := name nd; parent := clearId j (parent nd);
              matrix := matrix nd |}) <$> nodeStore d !! j'.
Proof.
  intros Hne. simpl.
  by rewrite lookup_fmap, lookup_delete_ne, !lookup_alter_ne.
Qed.

Lemma removeJointNode_name d p j j' :
  j' ≠ j → getName (removeJointNode d p j) j' = getName d j'.
Proof.
  intros Hne. unfold getName. rewrite removeJointNode_other by done.
  by destruct (nodeStore d !! j').
Qed.

Lemma removeJointNode_listJoints d p j j' :
  j' ∈ listJoints (removeJointNode d p j) ↔ j' ∈ listJoints d ∧ j' ≠ j.
Proof.
  rewrite !elem_of_listJoints. simpl. rewrite !elem_of_removeId.
  destruct (decide (j' = j)) as [->|Hne].
  - split; [by intros [[_ ?] _]|by intros [_ ?]].
  - pose proof (removeJointNode_other d p j j' Hne) as Hl. simpl in Hl.
    rewrite Hl, fmap_is_Some. tauto.
Qed.

Lemma removeJointNode_ibm d p j :
  inverseBindMatrices (skin (removeJointNode d p j)) = inverseBindMatrices (skin d).
Proof. done. Qed.

(** ** The loop over the names *)

Section prune.
Variable jointsToRemove : list string.

Lemma removeNamed_cases index d nm d' :
  removeNamed index d nm = Some d' →
  (index !! nm = None ∧ d' = d) ∨
  (∃ j p, index !! nm = Some j ∧ getParentNode d j = Some p ∧
          d' = removeJointNode d p j).
Proof.
  unfold removeNamed.
  destruct (index !! nm) as [j|].
  2: { destruct (inheritedKey nm); [done|]. intros [= <-]. by left. }
  destruct (getParentNode d j) as [p|] eqn:Ep; [|done].
  intros [= <-]. right. by exists j, p.
Qed.

Lemma removeNamed_ibm index l d d' :
  foldM (removeNamed index) l d = Some d' →
  inverseBindMatrices (skin d') = inverseBindMatrices (skin d).
Proof.
  intros Hrun.
  eapply (foldM_invariant _
            (λ d1, inverseBindMatrices (skin d1) = inverseBindMatrices (skin d)));
    [|exact Hrun|done].
  intros s1 nm s2 _ [[_ ->]|(j & p & _ & _ & ->)]%removeNamed_cases Hs; [done|].
  by rewrite removeJointNode_ibm.
Qed.

Lemma removeNamed_survivors index l d d' j :
  foldM (removeNamed index) l d = Some d' →
  j ∈ listJoints d' → j ∈ listJoints d ∧ getName d' j = getName d j.
Proof.
  revert d. induction l as [|nm l IH]; intros d; simpl.
  - by intros [= <-].
  - destruct (removeNamed index d nm) as [d1|] eqn:E1; [|done].
    intros Hrun Hj. destruct (IH _ Hrun Hj) as [Hj1 Hn1].
    apply removeNamed_cases in E1 as [[_ ->]|(j0 & p & _ & _ & ->)]; [done|].
    apply removeJointNode_listJoints in Hj1 as [Hj0 Hne].
    split; [done|]. rewrite Hn1. by apply removeJointNode_name.
Qed.

Lemma removeNamed_removes index l d d' nm j :
  foldM (removeNamed index) l d = Some d' →
  nm ∈ l → index !! nm = Some j → j ∉ listJoints d'.
Proof.
  revert d. induction l as [|nm0 l IH]; intros d; simpl.
  - intros _ Hin. by apply elem_of_nil in Hin.
  - destruct (removeNamed index d nm0) as [d1|] eqn:E1; [|done].
    intros Hrun Hin Hidx.
    destruct (decide (nm ∈ l)) as [Hl|Hnl]; [by eapply IH|].
    apply elem_of_cons in Hin as [->|?]; [|done].
    apply removeNamed_cases in E1 as [[? _]|(j0 & p & Hj0 & _ & ->)]; [congruence|].
    assert (j0 = j) as -> by congruence.
    intros Hj. apply (removeNamed_survivors _ _ _ _ _ Hrun) in Hj as [Hj _].
    apply removeJointNode_listJoints in Hj as [_ Hne]. done.
Qed.

Lemma jointsByName_Some d nm j :
  jointsByName d !! nm = Some j → j ∈ listJoints d ∧ getName d j = nm.
Proof.
  unfold jointsByName.
  intros [(x & Hx & Hk & <-)|Hm]%(foldl_insert_lookup (getName d) id); [done|].
  by rewrite lookup_empty in Hm.
Qed.

Lemma jointsByName_is_Some d j :
  j ∈ listJoints d → is_Some (jointsByName d !! getName d j).
Proof. apply (foldl_insert_is_Some (getName d) id). Qed.

Lemma uniqueNames_inj d j j' :
  uniqueNames d → j ∈ listJoints d → j' ∈ listJoints d →
  getName d j = getName d j' → j = j'.
Proof.
  unfold uniqueNames. intros Hnd [i Hi]%list_elem_of_lookup [k Hk]%list_elem_of_lookup Hn.
  assert (i = k) as ->; [|congruence].
  apply (NoDup_lookup _ _ _ (getName d j) Hnd); rewrite list_lookup_fmap.
  - by rewrite Hi.
  - by rewrite Hk, Hn.
Qed.

Lemma pruneJoints_no_pruned_name d d' nm j :
  pruneJoints jointsToRemove d = Some d' → uniqueNames d →
  nm ∈ jointsToRemove → j ∈ listJoints d' → getName d' j ≠ nm.
Proof.
  unfold pruneJoints. intros Hrun Huniq Hnm Hj Hname.
  destruct (removeNamed_survivors _ _ _ _ _ Hrun Hj) as [Hj0 Hn0].
  destruct (jointsByName_is_Some d j Hj0) as [j' Hj'].
  pose proof (jointsByName_Some _ _ _ Hj') as [Hin' Hn'].
  assert (j' = j) as -> by (by apply (uniqueNames_inj d)).
  eapply removeNamed_removes; [exact Hrun|exact Hnm| |exact Hj].
  by rewrite <- Hname, Hn0.
Qed.

Lemma removeNamed_absent index l d :
  (∀ nm, nm ∈ l → index !! nm = None ∧ inheritedKey nm = false) →
  foldM (removeNamed index) l d = Some d.
Proof.
  induction l as [|nm l IH]; intros Habs; simpl; [done|].
  unfold removeNamed at 1.
  destruct (Habs nm) as [-> ->]; [left|].
  apply IH. intros nm' Hnm'. apply Habs. by right.
Qed.
End prune.

(** ** World matrices *)

Lemma ancestorsFrom_ext fuel d d' n :
  nodeStore d = nodeStore d' → ancestorsFrom fuel d n = ancestorsFrom fuel d' n.
Proof.
  intros Heq. revert n. induction fuel as [|fuel IH]; intros n; simpl; [done|].
  unfold getParentNode, isNode. rewrite Heq.
  destruct (nodeStore d' !! n) as [nd|]; [|done]. f_equal.
  destruct (parent nd) as [p|]; [|done]. by case_bool_decide.
Qed.

Lemma getWorldMatrix_ext d d' n :
  nodeStore d = nodeStore d' → getWorldMatrix d n = getWorldMatrix d' n.
Proof.
  intros Heq. unfold getWorldMatrix.
  by rewrite (ancestorsFrom_ext _ d d' n Heq), Heq.
Qed.

Lemma listJoints_ext d d' :
  joints (skin d) = joints (skin d') →
  (∀ j, j ∈ joints (skin d') → nodeStore d !! j = nodeStore d' !! j) →
  listJoints d = listJoints d'.
Proof.
  intros Hj Hn. unfold listJoints. rewrite Hj. apply filter_ext_in.
  intros j Hin%list_elem_of_In. unfold isNode. by rewrite Hn.
Qed.

(** ** The buffer of inverse bind matrices *)

Lemma fill_buffer (g : NodeId → option (mat4 num)) (js : list NodeId) :
  ∀ (k : nat) (acc ibm : list (mat4 num)),
    foldM (λ ibm '(i, j), setElement ibm i (g j))
          (imap (λ i j, (k + i, j)) js) acc = Some ibm →
    k + length js ≤ length acc →
    ∃ vals, mapM (λ j, mat4_map fround <$> g j) js = Some vals ∧
            ibm = take k acc ++ vals ++ drop (k + length js) acc.
Proof.
  induction js as [|j js IH]; intros k acc ibm; simpl.
  - intros [= <-] _. exists []. split; [done|].
    rewrite Nat.add_0_r. simpl. by rewrite take_drop.
  - rewrite Nat.add_0_r. destruct (g j) as [m|]; [|done]. simpl.
    intros Hrun Hlen.
    rewrite (imap_ext _ (λ i j, (S k + i, j))) in Hrun
      by (intros; simpl; f_equal; lia).
    apply IH in Hrun as (vals & Hvals & ->); [|rewrite length_insert; lia].
    exists (mat4_map fround m :: vals). split.
    + by rewrite Hvals.
    + rewrite (take_S_r _ _ (mat4_map fround m))
        by (apply list_lookup_insert_eq; lia).
      rewrite take_insert_ge by lia. rewrite drop_insert_lt by lia.
      rewrite <- app_assoc. simpl. by rewrite Nat.add_succ_r.
Qed.

Lemma recompute_Some d d' :
  recomputeInverseBindMatrices d = Some d' →
  nodeStore d' = nodeStore d ∧ joints (skin d') = joints (skin d) ∧
  ∃ ibm, inverseBindMatrices (skin d') = Some ibm ∧
         mapM (storedInverse d) (listJoints d) = Some ibm.
Proof.
  unfold recomputeInverseBindMatrices.
  destruct (inverseBindMatrices (skin d)); [|done].
  destruct (foldM _ _ _) as [ibm|] eqn:E; [|done]. intros [= <-].
  split_and!; [done|done|]. exists ibm. split; [done|].
  apply (fill_buffer (λ j, mat4_invert (getWorldMatrix d j)) _ 0) in E
    as (vals & Hvals & ->); [|by rewrite length_replicate].
  simpl. rewrite drop_ge by (by rewrite length_replicate).
  by rewrite app_nil_r.
Qed.

Lemma recompute_listJoints d d' :
  recomputeInverseBindMatrices d = Some d' → listJoints d' = listJoints d.
Proof.
  intros (Hn & Hj & _)%recompute_Some. apply listJoints_ext; [done|].
  intros. by rewrite Hn.
Qed.

Lemma recompute_aligned d d' :
  recomputeInverseBindMatrices d = Some d' → aligned d'.
Proof.
  intros Hr. pose proof (recompute_listJoints _ _ Hr) as Hl.
  apply recompute_Some in Hr as (_ & _ & ibm & Hibm & Hvals).
  intros ibm' Hibm'. rewrite Hl. simplify_eq.
  symmetry. apply mapM_Some_1 in Hvals. by eapply Forall2_length.
Qed.

(** The joint index is the map of the joints whose name is not
    __proto__. *)
Lemma jointsIndex_fold d :
  jointsIndex d =
  foldl (λ index (x : nat * nat), <[getName d x.2 := x.1]> index) ∅
        (List.filter (λ x, negb (String.eqb (getName d x.2) "__proto__"))
                     (imap (λ i j, (i, j)) (listJoints d))).
Proof.
  unfold jointsIndex. generalize (imap (λ i j : nat, (i, j)) (listJoints d)).
  generalize (∅ : gmap string nat).
  intros m l. revert m. induction l as [|[a b] l IH]; intros m; simpl; [done|].
  destruct (String.eqb (getName d b) "__proto__"); simpl; apply IH.
Qed.

Lemma jointsIndex_position d nm i :
  jointsIndex d !! nm = Some i →
  nm ≠ "__proto__" ∧ ∃ j, listJoints d !! i = Some j ∧ getName d j = nm.
Proof.
  rewrite jointsIndex_fold.
  intros [([i' j] & Hin & Hk & Hv)|Hm]%(foldl_insert_lookup
      (λ p : nat * nat, getName d p.2) fst); [|by rewrite lookup_empty in Hm].
  simpl in Hk, Hv. subst i'.
  apply list_elem_of_In, filter_In in Hin as [Hin Hproto].
  apply list_elem_of_In in Hin. simpl in Hproto.
  apply negb_true_iff, String.eqb_neq in Hproto. split; [congruence|].
  exists j. split; [|done].
  apply elem_of_lookup_imap in Hin as (k & y & [= -> ->] & Hy). done.
Qed.

Lemma jointsIndex_Some d nm i :
  jointsIndex d !! nm = Some i → ∃ j, j ∈ listJoints d ∧ getName d j = nm.
Proof.
  intros (_ & j & Hj & Hname)%jointsIndex_position.
  exists j. split; [by eapply list_elem_of_lookup_2|done].
Qed.

Lemma graft_Some d d' :
  graft d = inr d' →
  nodeStore d' = nodeStore d ∧ joints (skin d') = joints (skin d) ∧
  inverseBindMatrices (skin d') = inverseBindMatrices (skin d).
Proof.
  unfold graft. destruct (sceneDonor d); [|done].
  destruct (listChildren d _); [done|]. by intros [= <-].
Qed.

Lemma uniqueNames_ext d d' :
  nodeStore d' = nodeStore d → joints (skin d') = joints (skin d) →
  uniqueNames d → uniqueNames d'.
Proof.
  intros Hn Hj. unfold uniqueNames.
  rewrite (listJoints_ext d' d Hj) by (intros; by rewrite Hn).
  assert (getName d' = getName d) as ->; [|done].
  unfold getName. by rewrite Hn.
Qed.
End facts.

(** After the recomputation the buffer holds, for every joint in list
    order, the inverse of the joint's world matrix as [mat4.invert]
    computes it and the [Float32Array] stores it. *)
Lemma recomputed_buffer_holds_inverses {num : Type} `{JsNumber num}
    (d d' : Document (num := num)) :
  recomputeInverseBindMatrices d = Some d' →
  ∃ ibm, inverseBindMatrices (skin d') = Some ibm ∧
    length ibm = length (listJoints d') ∧
    ∀ i j, listJoints d' !! i = Some j →
      ∃ inverse, mat4_invert (getWorldMatrix d j) = Some inverse ∧
                 ibm !! i = Some (mat4_map fround inverse).
Proof.
  intros Hr. pose proof (recompute_listJoints _ _ Hr) as Hl.
  pose proof (recompute_aligned _ _ Hr) as Hal.
  apply recompute_Some in Hr as (_ & _ & ibm & Hibm & Hvals).
  exists ibm. split_and!; [exact Hibm|exact (Hal _ Hibm)|].
  intros i j Hj. rewrite Hl in Hj. apply mapM_Some_1 in Hvals.
  destruct (Forall2_lookup_l _ _ _ _ _ Hvals Hj) as (m & Hm & Hs).
  unfold storedInverse in Hs.
  destruct (mat4_invert (getWorldMatrix d j)) as [inverse|]; [|done].
  exists inverse. split; [done|]. simpl in Hs. by injection Hs as <-.
Qed.

(** In exact arithmetic the matrix that is stored is the inverse: its
    product with the matrix that was inverted is the identity. *)
Lemma stored_inverse_exact (m inverse : mat4 Q) :
  mat4_invert m = Some inverse →
  mat4_equiv (mat4_multiply (mat4_map fround inverse) m) mat4_identity.
Proof.
  unfold mat4_invert.
  destruct m as [m0 m1 m2 m3 m4 m5 m6 m7 m8 m9 m10 m11 m12 m13 m14 m15].
  cbn [a00 a01 a02 a03 a10 a11 a12 a13 a20 a21 a22 a23 a30 a31 a32 a33
       nadd nsub nmul ndiv falsy num0 num1 JsNumber_Q].
  destruct (Qeq_bool _ 0) eqn:Edet; [done|].
  intros [= <-]. apply Qeq_bool_neq in Edet.
  unfold mat4_equiv, mat4_entries, mat4_multiply, multiply_column,
    mat4_identity, mat4_map.
  cbn [a00 a01 a02 a03 a10 a11 a12 a13 a20 a21 a22 a23 a30 a31 a32 a33
       nadd nsub nmul ndiv falsy num0 num1 fround JsNumber_Q].
  repeat (constructor; [rewrite !Qred_correct; field; exact Edet|]).
  constructor.
Qed.

(** C4, as amended.  After [recomputeInverseBindMatrices] the buffer has
    one matrix per joint, and the matrix at index [i] is the inverse of the
    world matrix of joint [i], as [mat4.invert] computes it and as the
    [Float32Array] stores it.  In exact arithmetic the product of the
    stored matrix and the world matrix is the identity. *)
Theorem stored_matrix_is_inverse_of_world_matrix :
  (∀ (num : Type) (JN : JsNumber num) (d d' : Document (num := num)),
     recomputeInverseBindMatrices d = Some d' →
     ∃ ibm, inverseBindMatrices (skin d') = Some ibm ∧
       length ibm = length (listJoints d') ∧
       ∀ i j, listJoints d' !! i = Some j →
         ∃ inverse, mat4_invert (getWorldMatrix d j) = Some inverse ∧
                    ibm !! i = Some (mat4_map fround inverse)) ∧
  (∀ m inverse : mat4 Q,
     mat4_invert m = Some inverse →
     mat4_equiv (mat4_multiply (mat4_map fround inverse) m) mat4_identity).
Proof.
  split.
  - intros num JN d d'. apply recomputed_buffer_holds_inverses.
  - apply stored_inverse_exact.
Qed.


(** C3, as amended.  [pruneJoints] leaves the buffer of inverse bind
    matrices as it was; after the recomputation that follows it the
    buffer has as many matrices as the skin has joints; and when the
    joints had distinct names, no name of [jointsToRemove] is a key of the
    joint index. *)
Theorem pruned_skin_aligned_after_recompute {num : Type} `{JsNumber num}
    (jointsToRemove : list string) (d d1 d2 : Document (num := num)) :
  pruneJoints jointsToRemove d = Some d1 →
  recomputeInverseBindMatrices d1 = Some d2 →
  inverseBindMatrices (skin d1) = inverseBindMatrices (skin d) ∧
  aligned d2 ∧
  (uniqueNames d →
   ∀ nm, nm ∈ jointsToRemove → jointsIndex d2 !! nm = None).
Proof.
  intros Hp Hr. split_and!.
  - by eapply removeNamed_ibm.
  - by eapply recompute_aligned.
  - intros Huniq nm Hnm.
    destruct (jointsIndex d2 !! nm) as [i|] eqn:Ei; [exfalso|done].
    apply jointsIndex_Some in Ei as (j & Hj & Hname).
    rewrite (recompute_listJoints _ _ Hr) in Hj.
    apply recompute_Some in Hr as (Hn & _).
    apply (pruneJoints_no_pruned_name _ _ _ nm j Hp Huniq Hnm Hj).
    rewrite <- Hname. unfold getName. by rewrite Hn.
Qed.

(** C9, as amended.  For a skin whose joints have distinct names, none
    of them __proto__, and a deny list without property names of
    [Object.prototype]: a second run of the stage on the processed
    document, with the donor merged in again, completes; its pruning
    skips every name of the list and leaves the grafted document as it
    is; and the nodes, the joints of the skin and the buffer of inverse
    bind matrices are as the first run left them. *)
Theorem second_splice_changes_nothing {num : Type} `{JsNumber num}
    (jointsToRemove : list string) (d d1 d2 : Document (num := num)) :
  uniqueNames d →
  indexIsMap jointsToRemove d →
  spliceSkeleton jointsToRemove d = Some d1 →
  remerged d1 d2 →
  ∃ dg d3, graft d2 = inr dg ∧
           pruneJoints jointsToRemove dg = Some dg ∧
           spliceSkeleton jointsToRemove d2 = Some d3 ∧
           nodeStore d3 = nodeStore d2 ∧
           listJoints d3 = listJoints d1 ∧
           inverseBindMatrices (skin d3) = inverseBindMatrices (skin d1).
Proof.
  intros Huniq [_ Hplain] Hrun (Hskin & Hnodes & Hworld & donor & Hdonor & Hroot).
  unfold spliceSkeleton in Hrun.
  destruct (graft d) as [e|dg] eqn:Eg; [done|].
  destruct (pruneJoints jointsToRemove dg) as [dp|] eqn:Ep; [|done].
  apply graft_Some in Eg as (Hgn & Hgj & _).
  pose proof (uniqueNames_ext _ _ Hgn Hgj Huniq) as Huniq'.
  pose proof (recompute_listJoints _ _ Hrun) as Hl1.
  pose proof (recompute_Some _ _ Hrun) as (Hn1 & Hj1 & ibm & Hibm & Hvals).
  (* the second graft *)
  unfold spliceSkeleton, graft. rewrite Hdonor.
  destruct (listChildren d2 donor) as [|r rest] eqn:Er; [done|].
  set (dg2 := {| nodeStore := nodeStore d2;
                 skin := {| joints := joints (skin d2);
                            inverseBindMatrices := inverseBindMatrices (skin d2);
                            skeleton := Some r |};
                 scene := scene d2 ++ [r]; sceneDonor := None |}).
  assert (listJoints dg2 = listJoints d1) as Hl2.
  { apply listJoints_ext; simpl; [by rewrite Hskin|done]. }
  assert (∀ j, j ∈ listJoints d1 → getName dg2 j = getName dp j) as Hnames.
  { intros j [Hj _]%elem_of_listJoints. unfold getName. simpl.
    by rewrite (Hnodes j Hj), Hn1. }
  (* no name of the list is left to remove *)
  assert (pruneJoints jointsToRemove dg2 = Some dg2) as Hskip.
  { apply removeNamed_absent. intros nm Hnm. split; [|by apply Hplain].
    destruct (jointsByName dg2 !! nm) as [j|] eqn:Ej; [exfalso|done].
    apply jointsByName_Some in Ej as [Hj Hname]. rewrite Hl2 in Hj.
    rewrite (Hnames j Hj) in Hname. rewrite Hl1 in Hj.
    by apply (pruneJoints_no_pruned_name _ _ _ nm j Ep Huniq' Hnm Hj). }
  exists dg2. rewrite Hskip.
  (* the same matrices are computed again *)
  unfold recomputeInverseBindMatrices in Hrun |- *. simpl.
  rewrite Hskin, Hibm. fold dg2. rewrite Hl2, Hl1.
  destruct (inverseBindMatrices (skin dp)); [|done].
  rewrite (foldM_ext_in _
             (λ ibm '(i, j), setElement ibm i (mat4_invert (getWorldMatrix dp j)))).
  - destruct (foldM _ _ _) as [ibm'|]; [|done].
    injection Hrun as <-. simpl in Hibm. injection Hibm as ->.
    eexists. split; [reflexivity|]. split; [reflexivity|].
    split; [reflexivity|]. split_and!; [reflexivity| |reflexivity].
    rewrite <- Hl1, <- Hl2.
    apply listJoints_ext; [subst dg2; simpl; by rewrite ?Hskin|intros; reflexivity].
  - intros acc [i j] (k & y & [= _ ->] & Hy)%elem_of_lookup_imap.
    simpl. do 2 f_equal.
    rewrite (getWorldMatrix_ext dg2 d2) by done.
    rewrite Hworld by (rewrite Hl1; by eapply list_elem_of_lookup_2).
    by apply getWorldMatrix_ext.
Qed.

(** ** The stage on the example documents *)

Lemma tailRig_prune : pruneJoints denyList tailRig = Some tailRig_pruned.
Proof. vm_compute. reflexivity. Qed.

Lemma tailRig_recompute :
  recomputeInverseBindMatrices tailRig_pruned = Some tailRig_recomputed.
Proof. vm_compute. reflexivity. Qed.

Lemma tailRig_splice : spliceSkeleton denyList tailRig = Some tailRig_spliced.
Proof. vm_compute. reflexivity. Qed.

Lemma tailRig_uniqueNames : uniqueNames tailRig.
Proof.
  unfold uniqueNames.
  replace (getName tailRig <$> listJoints tailRig)
    with ["Hips"; "Spine"; "Tail"; "TailTip"] by (vm_compute; reflexivity).
  refine (bool_decide_unpack _ _). vm_compute. exact I.
Qed.

Lemma tailRig_indexIsMap : indexIsMap denyList tailRig.
Proof.
  split.
  - intros j Hj.
    replace (listJoints tailRig) with [10; 11; 12; 13] in Hj
      by (vm_compute; reflexivity).
    repeat (apply elem_of_cons in Hj as [->|Hj]; [vm_compute; discriminate|]).
    by apply elem_of_nil in Hj.
  - intros nm Hnm. unfold denyList in Hnm.
    repeat (apply elem_of_cons in Hnm as [->|Hnm]; [vm_compute; reflexivity|]).
    by apply elem_of_nil in Hnm.
Qed.



(** C3 on [tailRig]. *)
Lemma pruned_skin_aligned_after_recompute_witness :
  pruneJoints denyList tailRig = Some tailRig_pruned ∧
  recomputeInverseBindMatrices tailRig_pruned = Some tailRig_recomputed ∧
  inverseBindMatrices (skin tailRig_pruned) = inverseBindMatrices (skin tailRig) ∧
  aligned tailRig_recomputed ∧
  jointsIndex tailRig_recomputed !! "Tail" = None.
Proof.
  destruct (pruned_skin_aligned_after_recompute denyList tailRig tailRig_pruned
              tailRig_recomputed tailRig_prune tailRig_recompute)
    as (Hibm & Hal & Hidx).
  split_and!; [exact tailRig_prune|exact tailRig_recompute|exact Hibm|exact Hal|].
  apply (Hidx tailRig_uniqueNames). left.
Defined.

(** C3 as stated fails: right after [pruneJoints] the buffer still holds
    the four matrices of [tailRig], for three joints. *)
Lemma pruned_skin_is_not_aligned :
  pruneJoints denyList tailRig = Some tailRig_pruned ∧
  aligned tailRig ∧ ¬ aligned tailRig_pruned.
Proof.
  split_and!.
  - exact tailRig_prune.
  - intros ibm [= <-]. vm_compute. reflexivity.
  - intros Hal. specialize (Hal _ eq_refl). vm_compute in Hal. discriminate Hal.
Qed.

(** C4 on [tailRig_pruned], and on the world matrix of its spine. *)
Lemma stored_matrix_is_inverse_of_world_matrix_witness :
  recomputeInverseBindMatrices tailRig_pruned = Some tailRig_recomputed ∧
  (∃ ibm, inverseBindMatrices (skin tailRig_recomputed) = Some ibm ∧
     length ibm = length (listJoints tailRig_recomputed) ∧
     ∀ i j, listJoints tailRig_recomputed !! i = Some j →
       ∃ inverse, mat4_invert (getWorldMatrix tailRig_pruned j) = Some inverse ∧
                  ibm !! i = Some (mat4_map fround inverse)) ∧
  (∃ inverse, mat4_invert (translated 0 (3 # 2) 0) = Some inverse ∧
     mat4_map fround inverse = translated 0 (-3 # 2) 0 ∧
     mat4_equiv (mat4_multiply (mat4_map fround inverse) (translated 0 (3 # 2) 0))
                mat4_identity).
Proof.
  destruct stored_matrix_is_inverse_of_world_matrix as [Hstored Hexact].
  split_and!.
  - exact tailRig_recompute.
  - exact (Hstored Q JsNumber_Q tailRig_pruned tailRig_recomputed tailRig_recompute).
  - destruct (mat4_invert (translated 0 (3 # 2) 0)) as [inverse|] eqn:E;
      [|vm_compute in E; discriminate E].
    exists inverse. split_and!; [reflexivity| |by apply Hexact].
    vm_compute in E. injection E as <-. vm_compute. reflexivity.
Defined.

(** C4 as stated fails in the engine's arithmetic: the inverse of the
    joint of [farJointRig] is stored as the translation by -1000, and its
    product with the world matrix is off the identity by 0.00003. *)
Lemma far_joint_round_trip_exceeds_tolerance :
  recomputeInverseBindMatrices farJointRig = Some farJointRig_recomputed ∧
  ¬ roundTripWithin (decimal 1 100000) farJointRig farJointRig_recomputed.
Proof.
  split; [vm_compute; reflexivity|]. intros Hwithin.
  specialize (Hwithin 0 10 _ _ eq_refl eq_refl eq_refl).
  vm_compute in Hwithin. discriminate Hwithin.
Qed.

Lemma tailRig_remerged_ok : remerged tailRig_spliced tailRig_remerged.
Proof.
  split_and!.
  - reflexivity.
  - intros j Hj. simpl in Hj.
    repeat (apply elem_of_cons in Hj as [->|Hj]; [vm_compute; reflexivity|]).
    by apply elem_of_nil in Hj.
  - intros j Hj.
    replace (listJoints tailRig_spliced) with [10; 11; 13] in Hj
      by (vm_compute; reflexivity).
    repeat (apply elem_of_cons in Hj as [->|Hj]; [vm_compute; reflexivity|]).
    by apply elem_of_nil in Hj.
  - exists [20]. split; [reflexivity|]. vm_compute. discriminate.
Qed.

(** C9 on [tailRig]. *)
Lemma second_splice_changes_nothing_witness :
  spliceSkeleton denyList tailRig = Some tailRig_spliced ∧
  ∃ dg d3, graft tailRig_remerged = inr dg ∧
           pruneJoints denyList dg = Some dg ∧
           spliceSkeleton denyList tailRig_remerged = Some d3 ∧
           nodeStore d3 = nodeStore tailRig_remerged ∧
           listJoints d3 = listJoints tailRig_spliced ∧
           inverseBindMatrices (skin d3)
           = inverseBindMatrices (skin tailRig_spliced).
Proof.
  split; [exact tailRig_splice|].
  exact (second_splice_changes_nothing denyList tailRig tailRig_spliced
           tailRig_remerged tailRig_uniqueNames tailRig_indexIsMap
           tailRig_splice tailRig_remerged_ok).
Defined.

Lemma twinRig_splice : spliceSkeleton denyList twinRig = Some twinRig_spliced.
Proof. vm_compute. reflexivity. Qed.

Lemma twinRig_resplice :
  spliceSkeleton denyList twinRig_remerged = Some twinRig_respliced.
Proof. vm_compute. reflexivity. Qed.

Lemma twinRig_remerged_ok : remerged twinRig_spliced twinRig_remerged.
Proof.
  split_and!.
  - reflexivity.
  - intros j Hj. simpl in Hj.
    repeat (apply elem_of_cons in Hj as [->|Hj]; [vm_compute; reflexivity|]).
    by apply elem_of_nil in Hj.
  - intros j Hj.
    replace (listJoints twinRig_spliced) with [10; 11] in Hj
      by (vm_compute; reflexivity).
    repeat (apply elem_of_cons in Hj as [->|Hj]; [vm_compute; reflexivity|]).
    by apply elem_of_nil in Hj.
  - exists [20]. split; [reflexivity|]. vm_compute. discriminate.
Qed.

(** C9 as stated fails: [twinRig] has two joints of the name Tail.  The
    first run removes one of them, and the second run, on the processed
    document with the donor merged in again, removes the other: the skin
    is left with one joint and one matrix, of two. *)
Lemma second_splice_removes_twin_joint :
  spliceSkeleton denyList twinRig = Some twinRig_spliced ∧
  remerged twinRig_spliced twinRig_remerged ∧
  spliceSkeleton denyList twinRig_remerged = Some twinRig_respliced ∧
  listJoints twinRig_spliced = [10; 11] ∧
  listJoints twinRig_respliced = [10] ∧
  ¬ rerun_keeps_skin denyList twinRig_spliced twinRig_remerged.
Proof.
  split_and!.
  - exact twinRig_splice.
  - exact twinRig_remerged_ok.
  - exact twinRig_resplice.
  - vm_compute. reflexivity.
  - vm_compute. reflexivity.
  - intros Hkeep. destruct (Hkeep _ twinRig_resplice) as [Hjoints _].
    vm_compute in Hjoints. discriminate Hjoints.
Qed.

End SkeletonFacts.

(** * Rigid skinning: proofs *)

Module RigidSkinFacts.
Import GlMatrix RigidSkin.

(** ** The arrays of the two attributes *)

Section fill.
Context {A : Type} (v z : A).

Lemma fill_first (n : nat) :
  foldl (λ array w, <[w * 4 + 0 := v]> array) (replicate (n * 4) z) (seq 0 n)
  = mjoin (replicate n (element v z)).
Proof.
  assert (∀ j, j ≤ n →
            foldl (λ array w, <[w * 4 + 0 := v]> array)
                  (replicate (n * 4) z) (seq 0 j)
            = mjoin (replicate j (element v z)) ++ replicate ((n - j) * 4) z) as Hj.
  { induction j as [|j IH]; intros Hle.
    - simpl. by rewrite Nat.sub_0_r.
    - rewrite seq_S, foldl_app, IH by lia.
      rewrite replicate_S_end, join_app. simpl.
      assert (length (mjoin (replicate j (element v z))) = j * 4) as Hlen.
      { clear. induction j as [|j IH]; simpl; [done|]. rewrite IH. lia. }
      rewrite insert_app_r_alt by lia.
      rewrite Hlen, Nat.add_0_r, Nat.sub_diag.
      replace ((n - j) * 4) with (4 + (n - S j) * 4) by lia. simpl.
      rewrite <- app_assoc. done. }
  rewrite Hj by done. by rewrite Nat.sub_diag, app_nil_r.
Qed.

Lemma getElement4_fill (n w : nat) :
  w < n → getElement4 (mjoin (replicate n (element v z))) w = element v z.
Proof.
  unfold getElement4. revert w. induction n as [|n IH]; intros w Hw; [lia|].
  destruct w as [|w]; simpl; [done|].
  apply IH. lia.
Qed.

Lemma length_fill (n : nat) : length (mjoin (replicate n (element v z))) = n * 4.
Proof. induction n as [|n IH]; simpl; [done|]. by rewrite IH. Qed.
End fill.

Section facts.
Context {num : Type} `{JsNumber num}.
Implicit Types d : Document (num := num).

Lemma joints_0_array_fill (n k : nat) :
  joints_0_array n k = mjoin (replicate n (element (toUint8 k) 0%Z)).
Proof. apply fill_first. Qed.

Lemma weights_0_array_fill (n : nat) :
  weights_0_array (num := num) n = mjoin (replicate n (element num1 num0)).
Proof. apply fill_first. Qed.

Lemma length_bake (m : mat4 num) (positions : list (vec3 num)) :
  length (bake m positions) = length positions.
Proof. apply length_fmap. Qed.

Lemma length_iter_bake (m : mat4 num) (j : nat) (positions : list (vec3 num)) :
  length (Nat.iter j (bake m) positions) = length positions.
Proof. induction j as [|j IH]; simpl; [done|]. by rewrite length_bake. Qed.

Lemma skinnedUpTo_0 (m : mat4 num) (k : nat) (ps : list Primitive) :
  skinnedUpTo m k 0 ps ps.
Proof.
  split; [done|]. intros p prim Hp. exists prim. split_and!; [done| |lia|done].
  simpl. by destruct (POSITION prim).
Qed.

Section loop.
Variables (worldTransform : mat4 num) (k : nat) (n : NodeId) (m : MeshId).

Lemma skinPrimitive_step d j ps0 ps d' :
  meshStore d !! m = Some ps →
  skinnedUpTo worldTransform k j ps0 ps →
  skinPrimitive worldTransform k n m d j = Some d' →
  ∃ ps', meshStore d' !! m = Some ps' ∧
         skinnedUpTo worldTransform k (S j) ps0 ps'.
Proof.
  intros Hm [Hlen Hps] Hstep. unfold skinPrimitive in Hstep. rewrite Hm in Hstep.
  destruct (ps !! j) as [primitive|] eqn:Ej; [|done].
  destruct (POSITION primitive) as [positions|] eqn:Epos; [|done].
  injection Hstep as <-. eexists. split.
  { simpl. apply lookup_insert_eq. }
  split.
  { unfold transformMesh. by rewrite length_fmap, length_insert. }
  intros p prim0 Hp0. destruct (Hps p prim0 Hp0) as (prim & Hp & Hpos & Hlt & Hge).
  unfold transformMesh. rewrite list_lookup_fmap.
  destruct (decide (p = j)) as [->|Hne].
  - rewrite list_lookup_insert_eq by (by eapply lookup_lt_Some).
    eexists. split; [reflexivity|]. simplify_eq. simpl.
    rewrite Epos in Hpos.
    destruct (POSITION prim0) as [positions0|] eqn:E0; [|done].
    simpl in Hpos. injection Hpos as ->.
    split_and!; [done| |lia].
    intros _. exists positions0. by rewrite length_iter_bake.
  - rewrite list_lookup_insert_ne by done. rewrite Hp.
    eexists. split; [reflexivity|]. simpl. split_and!.
    + rewrite Hpos. by destruct (POSITION prim0).
    + intros Hlt'. apply Hlt. lia.
    + intros Hge'. apply Hge. lia.
Qed.

Lemma skinPrimitives_run ps0 :
  ∀ cnt j d ps d',
    meshStore d !! m = Some ps →
    skinnedUpTo worldTransform k j ps0 ps →
    foldM (skinPrimitive worldTransform k n m) (seq j cnt) d = Some d' →
    ∃ ps', meshStore d' !! m = Some ps' ∧
           skinnedUpTo worldTransform k (j + cnt) ps0 ps'.
Proof.
  induction cnt as [|cnt IH]; intros j d ps d' Hm Hinv; simpl.
  - intros [= <-]. exists ps. by rewrite Nat.add_0_r.
  - destruct (skinPrimitive _ _ _ _ d j) as [d1|] eqn:E1; [|done].
    intros Hrun.
    destruct (skinPrimitive_step _ _ _ _ _ Hm Hinv E1) as (ps1 & Hm1 & Hinv1).
    destruct (IH _ _ _ _ Hm1 Hinv1 Hrun) as (ps' & Hm' & Hinv').
    exists ps'. split; [done|]. by rewrite Nat.add_succ_r.
Qed.

Lemma skinMesh_spec d d' ps0 :
  meshStore d !! m = Some ps0 →
  skinMesh worldTransform k n m d = Some d' →
  ∃ ps', meshStore d' !! m = Some ps' ∧
         skinnedUpTo worldTransform k (length ps0) ps0 ps'.
Proof.
  intros Hm. unfold skinMesh. rewrite Hm. intros Hrun.
  by apply (skinPrimitives_run ps0 (length ps0) 0 (setSkin d n) ps0 d' Hm
              (skinnedUpTo_0 _ _ _)).
Qed.
End loop.

Section node.
Variable jointsTuples : gmap string string.
Variable jointsIndex : gmap string nat.

Lemma processNode_skinned d n d' p m k prims :
  processNode jointsTuples jointsIndex d n = Some d' →
  getParentNode d n = Some p → getMesh d n = Some m →
  jointOf jointsTuples jointsIndex (reparent d n p m) (Some p) = Some k →
  meshStore d !! m = Some prims →
  ∃ prims', meshStore d' !! m = Some prims' ∧
    skinnedUpTo (getWorldMatrix d n) k (length prims)
      (transformMesh (mat4_fromScaling (scale, scale, scale)) prims) prims'.
Proof.
  intros Hrun Hp Hmesh Hk Hprims. unfold processNode in Hrun.
  destruct (nodeStore d !! n) as [nd|] eqn:En.
  2:{ unfold getMesh in Hmesh. by rewrite En in Hmesh. }
  rewrite Hmesh, Hp, Hk in Hrun.
  eapply skinMesh_spec in Hrun as (prims' & Hm' & Hinv).
  2:{ simpl. rewrite lookup_alter_eq, Hprims. reflexivity. }
  exists prims'. split; [done|].
  unfold transformMesh in Hinv at 1. by rewrite length_fmap in Hinv.
Qed.

Lemma processNode_bound d n d' p m k prims' i prim' :
  processNode jointsTuples jointsIndex d n = Some d' →
  getParentNode d n = Some p → getMesh d n = Some m →
  jointOf jointsTuples jointsIndex (reparent d n p m) (Some p) = Some k →
  meshStore d' !! m = Some prims' → prims' !! i = Some prim' →
  boundTo (toUint8 k) prim'.
Proof.
  intros Hrun Hp Hmesh Hk Hm' Hi.
  assert (is_Some (meshStore d !! m)) as [prims Hprims].
  { unfold getMesh in Hmesh. destruct (nodeStore d !! n) as [nd|]; [|done].
    destruct (mesh nd) as [m0|]; [|done].
    case_bool_decide; [|done]. by simplify_eq. }
  destruct (processNode_skinned _ _ _ _ _ _ _ Hrun Hp Hmesh Hk Hprims)
    as (prims'' & Hm'' & Hlen & Hinv).
  simplify_eq.
  assert (i < length prims) as Hilt.
  { apply lookup_lt_Some in Hi. unfold transformMesh in Hlen.
    rewrite length_fmap in Hlen. lia. }
  destruct (lookup_lt_is_Some_2
              (transformMesh (mat4_fromScaling (scale, scale, scale)) prims) i)
    as [prim0 Hprim0].
  { unfold transformMesh. by rewrite length_fmap. }
  destruct (Hinv i prim0 Hprim0) as (prim & Hprim & Hpos & Hlt & _).
  simplify_eq. destruct (Hlt Hilt) as (positions0 & Hpos0 & Hj & Hw).
  rewrite Hpos0 in Hpos. simpl in Hpos.
  eexists _, _, _. split_and!; [exact Hpos|exact Hj|exact Hw|..].
  - rewrite length_iter_bake, joints_0_array_fill. apply length_fill.
  - rewrite length_iter_bake, weights_0_array_fill. apply length_fill.
  - intros w Hwlt. rewrite length_iter_bake in Hwlt.
    rewrite joints_0_array_fill, weights_0_array_fill.
    by rewrite !getElement4_fill.
Qed.

Lemma processNode_positions d n d' p m k prims prims' i prim prim' :
  processNode jointsTuples jointsIndex d n = Some d' →
  getParentNode d n = Some p → getMesh d n = Some m →
  jointOf jointsTuples jointsIndex (reparent d n p m) (Some p) = Some k →
  meshStore d !! m = Some prims → prims !! i = Some prim →
  meshStore d' !! m = Some prims' → prims' !! i = Some prim' →
  POSITION prim' =
    (λ positions,
       Nat.iter (length prims) (bake (getWorldMatrix d n))
                (bake (mat4_fromScaling (scale, scale, scale)) positions))
    <$> POSITION prim.
Proof.
  intros Hrun Hp Hmesh Hk Hprims Hi Hm' Hi'.
  destruct (processNode_skinned _ _ _ _ _ _ _ Hrun Hp Hmesh Hk Hprims)
    as (prims'' & Hm'' & Hlen & Hinv).
  simplify_eq.
  destruct (Hinv i (transformPrimitive (mat4_fromScaling (scale, scale, scale)) prim))
    as (prim'' & Hprim'' & Hpos & _).
  { unfold transformMesh. by rewrite list_lookup_fmap, Hi. }
  simplify_eq. rewrite Hpos. simpl. by destruct (POSITION prim).
Qed.
End node.
End facts.

(** C6, as amended.  When a mesh node is bound to the joint of index
    [k] and [k] is below 256, every vertex of every primitive of its mesh
    has the joints [k, 0, 0, 0] and the weights [1, 0, 0, 0]. *)
Theorem rigid_binding_below_256 {num : Type} `{JsNumber num}
    (jointsTuples : gmap string string) (jointsIndex : gmap string nat)
    (d d' : Document (num := num)) (n p : NodeId) (m : MeshId) (k : nat)
    (prims' : list Primitive) (i : nat) (prim' : Primitive) :
  processNode jointsTuples jointsIndex d n = Some d' →
  getParentNode d n = Some p → getMesh d n = Some m →
  jointOf jointsTuples jointsIndex (reparent d n p m) (Some p) = Some k →
  k < 256 →
  meshStore d' !! m = Some prims' → prims' !! i = Some prim' →
  boundTo (Z.of_nat k) prim'.
Proof.
  intros Hrun Hp Hm Hk Hlt Hm' Hi.
  replace (Z.of_nat k) with (toUint8 k).
  - by eapply processNode_bound.
  - unfold toUint8. apply Z.mod_small. lia.
Qed.

(** C10.  The joint written for every vertex is the index that was found
    modulo 256, the buffer being a [Uint8Array]; it is the index itself
    exactly when the index is below 256. *)
Theorem joint_index_stored_modulo_256 {num : Type} `{JsNumber num}
    (jointsTuples : gmap string string) (jointsIndex : gmap string nat)
    (d d' : Document (num := num)) (n p : NodeId) (m : MeshId) (k : nat)
    (prims' : list Primitive) (i : nat) (prim' : Primitive) :
  processNode jointsTuples jointsIndex d n = Some d' →
  getParentNode d n = Some p → getMesh d n = Some m →
  jointOf jointsTuples jointsIndex (reparent d n p m) (Some p) = Some k →
  meshStore d' !! m = Some prims' → prims' !! i = Some prim' →
  boundTo (Z.of_nat k mod 256) prim' ∧
  ((Z.of_nat k mod 256)%Z = Z.of_nat k ↔ k < 256).
Proof.
  intros Hrun Hp Hm Hk Hm' Hi. split.
  - by eapply processNode_bound.
  - split.
    + intros Heq. pose proof (Z.mod_pos_bound (Z.of_nat k) 256). lia.
    + intros Hlt. apply Z.mod_small. lia.
Qed.

(** ** The stage on the example documents *)

Lemma handDoc_run (k : nat) :
  k < 256 →
  processNode armMap (armIndex k) (handDoc [twoVertices]) 2
  = Some (handDoc_processed [twoVertices_skinned (Z.of_nat k) (169 # 125) 1]).
Proof.
  intros Hk. unfold twoVertices_skinned.
  replace (Z.of_nat k) with (toUint8 k) by (apply Z.mod_small; lia).
  reflexivity.
Qed.

Lemma handDoc_parent ps : getParentNode (handDoc ps) 2 = Some 1.
Proof. reflexivity. Qed.

Lemma handDoc_mesh ps : getMesh (handDoc ps) 2 = Some 0.
Proof. reflexivity. Qed.

Lemma handDoc_joint ps k :
  jointOf armMap (armIndex k) (reparent (handDoc ps) 2 1 0) (Some 1) = Some k.
Proof. reflexivity. Qed.

(** C6 on [handDoc], bound to joint 7. *)
Lemma rigid_binding_below_256_witness :
  processNode armMap (armIndex 7) (handDoc [twoVertices]) 2
  = Some (handDoc_processed [twoVertices_skinned 7 (169 # 125) 1]) ∧
  boundTo 7 (twoVertices_skinned 7 (169 # 125) 1).
Proof.
  assert (7 < 256) as Hlt by lia.
  split; [exact (handDoc_run 7 Hlt)|].
  apply (rigid_binding_below_256 armMap (armIndex 7) (handDoc [twoVertices])
           (handDoc_processed [twoVertices_skinned 7 (169 # 125) 1]) 2 1 0 7
           [twoVertices_skinned 7 (169 # 125) 1] 0).
  - exact (handDoc_run 7 Hlt).
  - reflexivity.
  - reflexivity.
  - reflexivity.
  - exact Hlt.
  - reflexivity.
  - reflexivity.
Defined.

(** With 263 joints before it in the skin, the joint is written as 7. *)
Lemma handDoc_run_263 :
  processNode armMap (armIndex 263) (handDoc [twoVertices]) 2
  = Some (handDoc_processed [twoVertices_skinned 7 (169 # 125) 1]).
Proof. vm_compute. reflexivity. Qed.

(** C10 on [handDoc], bound to joint 263. *)
Lemma joint_index_stored_modulo_256_witness :
  processNode armMap (armIndex 263) (handDoc [twoVertices]) 2
  = Some (handDoc_processed [twoVertices_skinned 7 (169 # 125) 1]) ∧
  boundTo (263 mod 256) (twoVertices_skinned 7 (169 # 125) 1) ∧
  ((263 mod 256)%Z = 263%Z ↔ 263 < 256).
Proof.
  split; [exact handDoc_run_263|].
  apply (joint_index_stored_modulo_256 armMap (armIndex 263)
           (handDoc [twoVertices])
           (handDoc_processed [twoVertices_skinned 7 (169 # 125) 1]) 2 1 0 263
           [twoVertices_skinned 7 (169 # 125) 1] 0).
  - exact handDoc_run_263.
  - reflexivity.
  - reflexivity.
  - reflexivity.
  - reflexivity.
  - reflexivity.
Defined.

(** C6 as stated fails: bound to joint 256, every vertex is written with
    joint 0. *)
Lemma joint_256_is_written_as_0 :
  processNode armMap (armIndex 256) (handDoc [twoVertices]) 2
  = Some (handDoc_processed [twoVertices_skinned 0 (169 # 125) 1]) ∧
  ¬ binds_to_found_joint armMap (armIndex 256) (handDoc [twoVertices]) 2
      (handDoc_processed [twoVertices_skinned 0 (169 # 125) 1]).
Proof.
  split; [vm_compute; reflexivity|]. intros Hbind.
  destruct (Hbind 1 0 256 [twoVertices_skinned 0 (169 # 125) 1] 0
              (twoVertices_skinned 0 (169 # 125) 1))
    as (positions & js & ws & Hpos & Hjs & _ & _ & _ & Hall);
    try reflexivity.
  injection Hpos as <-. injection Hjs as <-.
  destruct (Hall 0) as [Hj _]; [simpl; lia|]. discriminate Hj.
Qed.

(** C2: a mesh of two primitives has the world transform of its node,
    the translation by (1, 1, 0), applied twice to the scaled geometry:
    the vertex (10, 0, 0) ends at (2.352, 2, 0), not at (1.352, 1, 0). *)
Lemma world_transform_baked_once_per_primitive :
  processNode armMap (armIndex 7) (handDoc [twoVertices; twoVertices]) 2
  = Some (handDoc_processed [twoVertices_skinned 7 (294 # 125) 2;
                             twoVertices_skinned 7 (294 # 125) 2]) ∧
  ¬ bakes_world_transform_once armMap (armIndex 7)
      (handDoc [twoVertices; twoVertices]) 2
      (handDoc_processed [twoVertices_skinned 7 (294 # 125) 2;
                          twoVertices_skinned 7 (294 # 125) 2]).
Proof.
  split; [vm_compute; reflexivity|]. intros Hbake.
  specialize (Hbake 1 0 7 [twoVertices; twoVertices]
                [twoVertices_skinned 7 (294 # 125) 2;
                 twoVertices_skinned 7 (294 # 125) 2]
                0 twoVertices (twoVertices_skinned 7 (294 # 125) 2)).
  vm_compute in Hbake.
  specialize (Hbake eq_refl eq_refl eq_refl eq_refl eq_refl eq_refl eq_refl).
  discriminate Hbake.
Qed.

(** With one primitive the same node has it applied once. *)
Lemma one_primitive_baked_once :
  bakes_world_transform_once armMap (armIndex 7) (handDoc [twoVertices]) 2
    (handDoc_processed [twoVertices_skinned 7 (169 # 125) 1]).
Proof.
  intros p m k prims prims' i prim prim' Hp Hm Hk Hprims Hi Hprims' Hi'.
  assert (7 < 256) as Hlt by lia.
  rewrite (processNode_positions armMap (armIndex 7) (handDoc [twoVertices]) 2
             _ p m k prims prims' i prim prim' (handDoc_run 7 Hlt)
             Hp Hm Hk Hprims Hi Hprims' Hi').
  rewrite handDoc_mesh in Hm. injection Hm as <-.
  injection Hprims as <-. done.
Qed.

End RigidSkinFacts.

(** * The atlas grid: proofs *)

Module AtlasFacts.
Import Atlas.

Lemma Math_ceil_sqrt_spec (n : N) :
  (n ≤ Math_ceil_sqrt n * Math_ceil_sqrt n)%N ∧
  (∀ h, n ≤ h * h → Math_ceil_sqrt n ≤ h)%N.
Proof.
  unfold Math_ceil_sqrt. pose proof (N.sqrt_spec' n) as [Hlo Hhi].
  destruct (N.eqb_spec (N.sqrt n * N.sqrt n) n) as [Heq|Hne].
  - split; [lia|]. intros h Hh. nia.
  - split; [nia|]. intros h Hh. nia.
Qed.

(** A slot below the primitive count lies inside the grid. *)
Lemma slot_in_grid (primitiveCount slotIndex : N) :
  (slotIndex < primitiveCount)%N →
  (slotColumn slotIndex (atlasWidth primitiveCount) < atlasWidth primitiveCount)%N ∧
  (slotRow slotIndex (atlasWidth primitiveCount) < atlasWidth primitiveCount)%N.
Proof.
  intros Hlt. unfold slotColumn, slotRow, atlasWidth.
  destruct (Math_ceil_sqrt_spec primitiveCount) as [Hsq _].
  assert (Math_ceil_sqrt primitiveCount ≠ 0)%N as Hpos by nia.
  split.
  - by apply N.mod_lt.
  - apply N.Div0.div_lt_upper_bound. nia.
Qed.

(** Two slots of one cell are one slot. *)
Lemma slot_cell_inj (gridSide s t : N) :
  gridSide ≠ 0%N →
  slotColumn s gridSide = slotColumn t gridSide →
  slotRow s gridSide = slotRow t gridSide → s = t.
Proof.
  unfold slotColumn, slotRow. intros Hg Hc Hr.
  rewrite (N.div_mod s gridSide), (N.div_mod t gridSide) by done.
  by rewrite Hc, Hr.
Qed.

(** The integer model agrees with the engine's arithmetic on every count
    up to 4096. *)
Lemma atlasWidth_float_agrees :
  forallb (λ n, (atlasWidth_float (N.of_nat n) =? Z.of_N (atlasWidth (N.of_nat n)))%Z)
          (seq 0 4097) = true.
Proof. vm_compute. reflexivity. Qed.

Section loop.
Context {num : Type} `{JsNumber num}.

Lemma remapAttribute_lookup (i g : N) (uv : option nat)
    (accessors : gmap nat (list (num * num))) (a : nat) :
  remapAttribute i g uv accessors !! a =
    (if decide (uv = Some a)
     then (λ uvs, remapUvsToAtlas uvs i g) <$> accessors !! a
     else accessors !! a).
Proof.
  destruct uv as [b|]; simpl; [|done].
  destruct (decide (Some b = Some a)) as [[= ->]|Hne].
  - by rewrite lookup_alter_eq.
  - rewrite lookup_alter_ne; [done|congruence].
Qed.

Lemma remap_primitive (i g : N) (primitive : Primitive)
    (accessors : gmap nat (list (num * num))) (a : nat) :
  remapAttribute i g (TEXCOORD_1 primitive)
    (remapAttribute i g (TEXCOORD_0 primitive) accessors) !! a =
  (λ uvs, foldl (λ uvs s, remapUvsToAtlas uvs s g) uvs
                (replicate (references a primitive) i))
    <$> accessors !! a.
Proof.
  rewrite !remapAttribute_lookup. unfold references.
  destruct (decide (TEXCOORD_0 primitive = Some a)),
           (decide (TEXCOORD_1 primitive = Some a));
    destruct (accessors !! a); done.
Qed.

Lemma remap_all (g : N) (l : list (nat * Primitive)) (a : nat) :
  ∀ accessors : gmap nat (list (num * num)),
    foldl (λ accessors '(i, primitive),
             let uv0 := TEXCOORD_0 primitive in
             let uv1 := TEXCOORD_1 primitive in
             remapAttribute (N.of_nat i) g uv1
               (remapAttribute (N.of_nat i) g uv0 accessors))
          accessors l !! a =
    (λ uvs, foldl (λ uvs s, remapUvsToAtlas uvs s g) uvs
              (mjoin ((λ '(i, primitive),
                         replicate (references a primitive) (N.of_nat i))
                        <$> l)))
      <$> accessors !! a.
Proof.
  induction l as [|[i primitive] l IH]; intros accessors.
  - simpl. by destruct (accessors !! a).
  - cbn [foldl]. rewrite IH. cbn zeta. rewrite remap_primitive.
    rewrite fmap_cons. simpl mjoin. destruct (accessors !! a); [|done].
    simpl. by rewrite foldl_app.
Qed.

Lemma updateUvs_lookup (allPrimitives : list Primitive)
    (accessors : gmap nat (list (num * num))) (a : nat) :
  updateUvs allPrimitives accessors !! a =
  (λ uvs, foldl (λ uvs s, remapUvsToAtlas uvs s
                            (atlasWidth (N.of_nat (length allPrimitives))))
                uvs (slotsOf allPrimitives a))
    <$> accessors !! a.
Proof. unfold updateUvs, slotsOf. apply remap_all. Qed.

Lemma slotsOf_below (allPrimitives : list Primitive) (a : nat) (s : N) :
  s ∈ slotsOf allPrimitives a → (s < N.of_nat (length allPrimitives))%N.
Proof.
  unfold slotsOf. intros (l & Hs & Hl)%list_elem_of_join.
  apply list_elem_of_fmap in Hl as ([i primitive] & -> & Hin).
  apply elem_of_lookup_imap in Hin as (k & y & [= -> ->] & Hy).
  apply elem_of_replicate in Hs as [-> _].
  apply lookup_lt_Some in Hy. lia.
Qed.
End loop.

(** C8.  The grid side is the least integer whose square is not below
    the primitive count, and the atlas is 64 pixels per cell wide; slot
    [s] is in column [s mod gridSide] and row [s / gridSide], and a
    coordinate [(u, v)] of slot [s] is remapped to
    [((u + col) / gridSide, (v + row) / gridSide)].  For five primitives
    the side is 3, slot 3 is in row 1 and column 0, and (0.5, 0.5) in slot
    3 is remapped to (1/6, 1/2), which is (0.1667, 0.5) to four places.
    The loop over the collected primitives remaps the coordinates of an
    accessor into slot [i] once for each attribute of primitive [i] that
    is this accessor, with the grid side of the whole collection: an
    accessor that is the attribute of one primitive, once, ends with
    every coordinate remapped into the slot of that primitive, a slot
    inside the grid; and two slots are two cells of the grid. *)
Theorem atlas_grid_layout :
  (∀ n : N,
     (n ≤ atlasWidth n * atlasWidth n)%N ∧
     (∀ h, n ≤ h * h → atlasWidth n ≤ h)%N ∧
     targetAtlasSize n = (atlasWidth n * 64)%N) ∧
  (∀ s g : N, slotColumn s g = (s mod g)%N ∧ slotRow s g = (s / g)%N) ∧
  (∀ (u v : Q) (s g : N),
     remapUv (u, v) s g
     = (((u + (Z.of_N (slotColumn s g) # 1)) / (Z.of_N g # 1))%Q,
        ((v + (Z.of_N (slotRow s g) # 1)) / (Z.of_N g # 1))%Q)) ∧
  atlasWidth 5 = 3%N ∧ targetAtlasSize 5 = 192%N ∧
  (slotRow 0 3, slotColumn 0 3) = (0, 0)%N ∧
  (slotRow 3 3, slotColumn 3 3) = (1, 0)%N ∧
  (fst (remapUv ((1 # 2)%Q, (1 # 2)%Q) 3 3) == 1 # 6)%Q ∧
  (snd (remapUv ((1 # 2)%Q, (1 # 2)%Q) 3 3) == 1 # 2)%Q ∧
  ((16665 # 100000) <= (1 # 6))%Q ∧ ((1 # 6) <= (16675 # 100000))%Q ∧
  (∀ (num : Type) (JN : JsNumber num) (allPrimitives : list Primitive)
     (accessors : gmap nat (list (num * num))) (a : nat),
     let gridSide := atlasWidth (N.of_nat (length allPrimitives)) in
     updateUvs allPrimitives accessors !! a =
       (λ uvs, foldl (λ uvs s, remapUvsToAtlas uvs s gridSide) uvs
                     (slotsOf allPrimitives a))
         <$> accessors !! a ∧
     (∀ s, s ∈ slotsOf allPrimitives a →
           (s < N.of_nat (length allPrimitives))%N ∧
           (slotColumn s gridSide < gridSide)%N ∧
           (slotRow s gridSide < gridSide)%N) ∧
     (∀ s uvs, slotsOf allPrimitives a = [s] → accessors !! a = Some uvs →
               updateUvs allPrimitives accessors !! a =
                 Some ((λ uv, remapUv uv s gridSide) <$> uvs))) ∧
  (∀ g s t : N, g ≠ 0%N → s ≠ t →
                (slotRow s g, slotColumn s g) ≠ (slotRow t g, slotColumn t g)) ∧
  slotsOf fivePrimitives 3 = [3%N] ∧
  (∃ u v, updateUvs fivePrimitives fiveAccessors !! 3 = Some [(u, v)] ∧
          (u == 1 # 6)%Q ∧ (v == 1 # 2)%Q).
Proof.
  split_and!; try reflexivity.
  - intros n. destruct (Math_ceil_sqrt_spec n) as [Hsq Hleast].
    split_and!; [exact Hsq|exact Hleast|reflexivity].
  - intros s g. done.
  - vm_compute. discriminate.
  - vm_compute. discriminate.
  - intros num JN allPrimitives accessors a gridSide. split_and!.
    + apply updateUvs_lookup.
    + intros s Hs%slotsOf_below. split; [done|]. by apply slot_in_grid.
    + intros s uvs Hslots Hacc.
      by rewrite updateUvs_lookup, Hslots, Hacc.
  - intros g s t Hg Hne [= Hrow Hcol]. by apply Hne, (slot_cell_inj g).
  - eexists _, _. split; [vm_compute; reflexivity|]. split; reflexivity.
Qed.

End AtlasFacts.

(** * Facts about the data files *)

Module DataPathFacts.
Import DataPath.

Section environment.
Variable existsSync : string → bool.
Variable path_join : list string → string.
Variable path_resolve : list string → string.
Variable __dirname : string.
Variable process_cwd : string.

Local Abbreviation resolveDataPath :=
  (resolveDataPath existsSync path_join path_resolve __dirname process_cwd).
Local Abbreviation candidates :=
  (candidates path_join path_resolve __dirname process_cwd).
Local Abbreviation notFound :=
  (notFound path_join path_resolve __dirname process_cwd).

Lemma resolveDataPath_find (relativePath : string) :
  resolveDataPath relativePath =
    match List.find existsSync (candidates relativePath) with
    | Some path => Return path
    | None => Throw (notFound relativePath)
    end.
Proof.
  unfold DataPath.resolveDataPath, DataPath.candidates. simpl.
  repeat (case_match; [reflexivity|]). reflexivity.
Qed.

Lemma find_first {A : Type} (p : A → bool) (l : list A) (x : A) :
  List.find p l = Some x →
  ∃ i, l !! i = Some x ∧ p x = true ∧
       ∀ j y, j < i → l !! j = Some y → p y = false.
Proof.
  induction l as [|a l IH]; simpl; [done|].
  destruct (p a) eqn:Ea.
  - intros [= ->]. exists 0. repeat split; [done|]. intros j y Hj. lia.
  - intros Hf. destruct (IH Hf) as (i & Hi & Hp & Hbefore).
    exists (S i). repeat split; [done..|].
    intros [|j] y Hj Hy; simpl in Hy.
    + by injection Hy as <-.
    + apply (Hbefore j); [lia|done].
Qed.

Lemma find_none {A : Type} (p : A → bool) (l : list A) :
  List.find p l = None ↔ Forall (λ x, p x = false) l.
Proof.
  induction l as [|a l IH]; simpl.
  - split; [constructor|done].
  - destruct (p a) eqn:Ea.
    + split; [done|]. intros Hall. apply Forall_cons_1 in Hall as [Hf _].
      congruence.
    + rewrite IH. split; [by constructor|].
      intros Hall. by apply Forall_cons_1 in Hall as [_ ?].
Qed.

(** X1.  The path the function returns is one of the five candidates, it
    exists, and no candidate that is tried before it exists. *)
Theorem resolveDataPath_returns_first_existing (relativePath path : string) :
  resolveDataPath relativePath = Return path →
  ∃ i, candidates relativePath !! i = Some path ∧
       existsSync path = true ∧
       ∀ j earlier, j < i → candidates relativePath !! j = Some earlier →
                    existsSync earlier = false.
Proof.
  rewrite resolveDataPath_find.
  destruct (List.find existsSync (candidates relativePath)) as [q|] eqn:Ef;
    [|done].
  intros [= <-]. by apply find_first.
Qed.

(** X2.  The function throws exactly when none of the five candidates exists,
    and the message of the error is the one that names the relative path
    and the five candidates. *)
Theorem resolveDataPath_throws_iff_no_candidate (relativePath : string) :
  ((∃ message, resolveDataPath relativePath = Throw message) ↔
   Forall (λ candidate, existsSync candidate = false)
          (candidates relativePath)) ∧
  (∀ message, resolveDataPath relativePath = Throw message →
              message = notFound relativePath).
Proof.
  rewrite resolveDataPath_find.
  destruct (List.find existsSync (candidates relativePath)) as [q|] eqn:Ef.
  - split; [|done]. split; [by intros [? ?]|].
    intros Hall. apply find_none in Hall. congruence.
  - split; [|by intros ? [= <-]].
    split; [|by eexists]. intros _. by apply find_none.
Qed.

End environment.

(** X1, an instance.
    In the example deployment the file is found one level up, although it
    is in the public directory as well. *)
Lemma resolveDataPath_returns_first_existing_witness :
  resolveDataPath deployedFiles joinWithSlash joinWithSlash "/app/dist" "/app"
                  "t-pose.json"
  = Return "/app/dist/../data/t-pose.json" ∧
  ∃ i, candidates joinWithSlash joinWithSlash "/app/dist" "/app" "t-pose.json"
         !! i = Some "/app/dist/../data/t-pose.json" ∧
       deployedFiles "/app/dist/../data/t-pose.json" = true ∧
       ∀ j earlier, j < i →
         candidates joinWithSlash joinWithSlash "/app/dist" "/app" "t-pose.json"
           !! j = Some earlier →
         deployedFiles earlier = false.
Proof.
  split; [reflexivity|].
  apply (resolveDataPath_returns_first_existing deployedFiles joinWithSlash
           joinWithSlash "/app/dist" "/app" "t-pose.json").
  reflexivity.
Defined.

End DataPathFacts.

(** * Facts about the traversal of a scene *)

Module CollectFacts.
Import Collect.

(** Induction on a node, with the property for each of its children. *)
Lemma Node_induction (P : Node → Prop) :
  (∀ i name children, Forall P children → P (mkNode i name children)) →
  ∀ n, P n.
Proof.
  intros step. fix go 1. intros [i name children]. apply step.
  induction children as [|c children IH]; constructor; [apply go|exact IH].
Qed.

Lemma foldl_collect (children : list Node) (l : list Node) :
  Forall (λ c, ∀ l, collectNodes c l = l ++ collectNodes c []) children →
  foldl (λ list child, collectNodes child list) l children
  = l ++ mjoin ((λ c, collectNodes c []) <$> children).
Proof.
  intros Hall. revert l.
  induction Hall as [|c children Hc _ IH]; intros l; simpl.
  - by rewrite app_nil_r.
  - rewrite IH, Hc. by rewrite <- app_assoc.
Qed.

Lemma collectNodes_app (n : Node) :
  ∀ l, collectNodes n l = l ++ collectNodes n [].
Proof.
  induction n as [i name children IH] using Node_induction. intros l.
  simpl. rewrite !(foldl_collect _ _ IH). simpl. by rewrite <- app_assoc.
Qed.

Lemma collectNodes_unfold (n : Node) (l : list Node) :
  collectNodes n l
  = l ++ n :: mjoin ((λ c, collectNodes c []) <$> listChildren n).
Proof.
  destruct n as [i name children]. simpl.
  rewrite foldl_collect.
  - by rewrite <- app_assoc.
  - apply Forall_forall. intros c _. apply collectNodes_app.
Qed.

Lemma collectScene_unfold (children : list Node) :
  collectScene children = mjoin ((λ c, collectNodes c []) <$> children).
Proof.
  unfold collectScene. rewrite foldl_collect; [done|].
  apply Forall_forall. intros c _. apply collectNodes_app.
Qed.

Lemma elem_of_collected (children : list Node) (x : Node) :
  x ∈ mjoin ((λ c, collectNodes c []) <$> children) ↔
  ∃ c, c ∈ children ∧ x ∈ collectNodes c [].
Proof.
  rewrite list_elem_of_join. split.
  - intros (l & Hx & Hl). apply list_elem_of_fmap in Hl as (c & -> & Hc).
    by exists c.
  - intros (c & Hc & Hx). exists (collectNodes c []). split; [done|].
    apply list_elem_of_fmap. by exists c.
Qed.

Lemma collected_below (n : Node) :
  ∀ x, x ∈ collectNodes n [] → below n x.
Proof.
  induction n as [i name children IH] using Node_induction. intros x.
  rewrite collectNodes_unfold. simpl. rewrite elem_of_cons, elem_of_collected.
  intros [->|(c & Hc & Hx)]; [constructor|].
  apply (below_child _ c); [done|].
  rewrite Forall_forall in IH. by apply IH.
Qed.

Lemma below_collected (n x : Node) : below n x → x ∈ collectNodes n [].
Proof.
  induction 1 as [n|n c x Hc _ IH]; rewrite collectNodes_unfold; simpl.
  - apply elem_of_cons. by left.
  - apply elem_of_cons. right. apply elem_of_collected. by exists c.
Qed.

Lemma length_collected (n : Node) : length (collectNodes n []) = size n.
Proof.
  induction n as [i name children IH] using Node_induction.
  rewrite collectNodes_unfold. simpl. f_equal.
  induction IH as [|c children Hc _ IHchildren]; [done|].
  rewrite fmap_cons, foldr_cons. simpl mjoin.
  rewrite length_app, Hc, IHchildren. reflexivity.
Qed.

Lemma precedes_embed (l a b : list Node) (x y : Node) :
  precedes l x y → precedes (a ++ l ++ b) x y.
Proof.
  intros (l1 & l2 & l3 & ->). exists (a ++ l1), l2, (l3 ++ b).
  rewrite <- !app_assoc. simpl. by rewrite <- !app_assoc.
Qed.

Lemma precedes_collected (n p : Node) :
  below n p → ∀ c x, c ∈ listChildren p → below c x →
  precedes (collectNodes n []) p x.
Proof.
  induction 1 as [n|n c0 p Hc0 _ IH]; intros c x Hc Hx.
  - rewrite collectNodes_unfold. simpl.
    assert (x ∈ mjoin ((λ c, collectNodes c []) <$> listChildren n)) as Hin.
    { apply elem_of_collected. exists c. split; [done|].
      by apply below_collected. }
    apply list_elem_of_split in Hin as (l2 & l3 & ->).
    by exists [], l2, l3.
  - rewrite collectNodes_unfold. simpl.
    apply list_elem_of_split in Hc0 as (before & after & ->).
    rewrite fmap_app, join_app. simpl.
    apply (precedes_embed _ (n :: _)). by apply (IH c).
Qed.

(** X3.  [collectNodes] leaves what is in the list in front, pushes the node,
    and then the nodes collected below each child, child after child; the
    nodes of a scene are those collected below its root children, in
    their order. *)
Theorem collectNodes_pushes_node_then_children :
  (∀ (node : Node) (list : list Node),
     collectNodes node list
     = list ++ node
         :: mjoin ((λ child, collectNodes child []) <$> listChildren node)) ∧
  (∀ children : list Node,
     collectScene children
     = mjoin ((λ child, collectNodes child []) <$> children)).
Proof.
  split; [apply collectNodes_unfold|apply collectScene_unfold].
Qed.

(** X4.  The nodes collected from a node are the node and its descendants, one
    entry for each node of the subtree, and a node is listed before every
    node below one of its children. *)
Theorem collectNodes_lists_subtree_parents_first (node : Node) :
  (∀ x, x ∈ collectNodes node [] ↔ below node x) ∧
  length (collectNodes node []) = size node ∧
  (∀ p c x, below node p → c ∈ listChildren p → below c x →
            precedes (collectNodes node []) p x).
Proof.
  split; [|split].
  - intros x. split; [apply collected_below|apply below_collected].
  - apply length_collected.
  - intros p c x Hp Hc Hx. by apply (precedes_collected _ _ Hp c).
Qed.

End CollectFacts.

(** * Facts about the world node and the T-pose *)

Module TPoseFacts.
Import GlMatrix TPose.

Section facts.
Context {num : Type} `{JsNumber num}.
Variable tPose : gmap string (Pose (num := num)).

Implicit Types (d : gmap nat (Node (num := num))) (nodes : list nat).
Implicit Types (nd : Node (num := num)) (raw : Pose (num := num)).

Lemma findWorldNode_Some d nodes w :
  findWorldNode d nodes = Some w → w ∈ nodes.
Proof.
  unfold findWorldNode. intros Hw. apply head_Some_elem_of in Hw.
  apply list_elem_of_In, filter_In in Hw as [Hw _].
  by apply list_elem_of_In.
Qed.

Lemma resetWorldNode_lookup d worldNode n :
  resetWorldNode d worldNode !! n =
    if decide (worldNode = Some n) then upright <$> d !! n else d !! n.
Proof.
  destruct worldNode as [w|]; simpl; [|done].
  destruct (decide (Some w = Some n)) as [[= ->]|Hne].
  - by rewrite lookup_alter_eq.
  - rewrite lookup_alter_ne; [done|congruence].
Qed.

Lemma resetWorldNode_name d worldNode n :
  nameOf (resetWorldNode d worldNode) n = nameOf d n.
Proof.
  unfold nameOf. rewrite resetWorldNode_lookup.
  destruct (decide _); [|done]. by destruct (d !! n).
Qed.

Lemma poseNode_other worldNode d node n :
  n ≠ node → poseNode tPose worldNode d node !! n = d !! n.
Proof.
  intros Hne. unfold poseNode.
  destruct (d !! node) as [nd|]; [|done].
  destruct (match worldNode with Some w => _ | None => false end); [done|].
  destruct (tPose !! getName nd); by rewrite lookup_insert_ne.
Qed.

Lemma poseNode_name worldNode d node n :
  nameOf (poseNode tPose worldNode d node) n = nameOf d n.
Proof.
  destruct (decide (n = node)) as [->|Hne].
  - unfold poseNode, nameOf.
    destruct (d !! node) as [nd|] eqn:End; [|by rewrite End].
    destruct (match worldNode with Some w => _ | None => false end);
      [by rewrite End|].
    destruct (tPose !! getName nd); by rewrite lookup_insert_eq.
  - unfold nameOf. by rewrite poseNode_other.
Qed.

Lemma poseNode_is_Some worldNode d node n :
  is_Some (poseNode tPose worldNode d node !! n) ↔ is_Some (d !! n).
Proof.
  destruct (decide (n = node)) as [->|Hne]; [|by rewrite poseNode_other].
  unfold poseNode. destruct (d !! node) as [nd|] eqn:End; [|by rewrite End].
  destruct (match worldNode with Some w => _ | None => false end);
    [by rewrite End|].
  destruct (tPose !! getName nd); rewrite lookup_insert_eq;
    split; by eauto.
Qed.

Lemma poseNodes_other worldNode l d n :
  n ∉ l → foldl (poseNode tPose worldNode) d l !! n = d !! n.
Proof.
  revert d. induction l as [|x l IH]; intros d Hn; simpl; [done|].
  apply not_elem_of_cons in Hn as [Hne Hn].
  rewrite IH; [|done]. by apply poseNode_other.
Qed.

Lemma poseNodes_name worldNode l d n :
  nameOf (foldl (poseNode tPose worldNode) d l) n = nameOf d n.
Proof.
  revert d. induction l as [|x l IH]; intros d; simpl; [done|].
  rewrite IH. apply poseNode_name.
Qed.

Lemma poseNodes_is_Some worldNode l d n :
  is_Some (foldl (poseNode tPose worldNode) d l !! n) ↔ is_Some (d !! n).
Proof.
  revert d. induction l as [|x l IH]; intros d; simpl; [done|].
  rewrite IH. apply poseNode_is_Some.
Qed.

(** A node of the world node's name is passed over. *)
Lemma poseNode_namesake w d node n nd :
  d !! n = Some nd → getName nd = nameOf d w →
  poseNode tPose (Some w) d node !! n = Some nd.
Proof.
  intros Hn Hname.
  destruct (decide (n = node)) as [<-|Hne]; [|by rewrite poseNode_other].
  unfold poseNode. rewrite Hn. simpl. rewrite Hname, String.eqb_refl. done.
Qed.

Lemma poseNodes_namesake w l d n nd :
  d !! n = Some nd → getName nd = nameOf d w →
  foldl (poseNode tPose (Some w)) d l !! n = Some nd.
Proof.
  revert d. induction l as [|x l IH]; intros d Hn Hname; simpl; [done|].
  apply IH; [by apply poseNode_namesake|].
  by rewrite poseNode_name.
Qed.

(** The turn of a node that is not passed over. *)
Lemma poseNode_self worldNode d n nd :
  d !! n = Some nd →
  nameOf d <$> worldNode ≠ Some (getName nd) →
  poseNode tPose worldNode d n !! n =
    Some (match tPose !! getName nd with
          | Some raw => posed raw nd
          | None => rescaled nd
          end).
Proof.
  intros Hn Hname. unfold poseNode. rewrite Hn. simpl.
  assert (match worldNode with
          | Some w => String.eqb (getName nd) (nameOf d w)
          | None => false
          end = false) as ->.
  { destruct worldNode as [w|]; [|done]. apply String.eqb_neq.
    intros Heq. apply Hname. simpl. by rewrite Heq. }
  destruct (tPose !! getName nd); by rewrite lookup_insert_eq.
Qed.

Lemma poseNodes_posed worldNode l d n nd raw :
  tPose !! getName nd = Some raw →
  nameOf d <$> worldNode ≠ Some (getName nd) →
  d !! n = Some nd ∨ d !! n = Some (posed raw nd) →
  (foldl (poseNode tPose worldNode) d l !! n = Some nd ∧ n ∉ l) ∨
  foldl (poseNode tPose worldNode) d l !! n = Some (posed raw nd).
Proof.
  intros Hraw. revert d.
  induction l as [|x l IH]; intros d Hname Hn; simpl.
  - destruct Hn as [Hn|Hn]; [left|right]; [split|]; [done| |done].
    apply not_elem_of_nil.
  - assert (nameOf (poseNode tPose worldNode d x) <$> worldNode
            ≠ Some (getName nd)) as Hname'.
    { destruct worldNode as [w|]; [|done]. simpl. rewrite poseNode_name.
      exact Hname. }
    destruct (decide (n = x)) as [<-|Hne].
    + right.
      assert (poseNode tPose worldNode d n !! n = Some (posed raw nd)) as Hp.
      { destruct Hn as [Hn|Hn].
        - rewrite (poseNode_self _ _ _ _ Hn Hname). by rewrite Hraw.
        - rewrite (poseNode_self _ _ _ _ Hn Hname). simpl. by rewrite Hraw. }
      destruct (IH _ Hname' (or_intror Hp)) as [[_ Hl]|Hq]; [|done].
      by rewrite poseNodes_other.
    + destruct (IH (poseNode tPose worldNode d x) Hname') as [[Hq Hl]|Hq].
      * by rewrite poseNode_other.
      * left. split; [done|]. by apply not_elem_of_cons.
      * by right.
Qed.

Lemma worldName_reset d nodes nd :
  worldName d nodes ≠ Some (getName nd) →
  nameOf (resetWorldNode d (findWorldNode d nodes)) <$> findWorldNode d nodes
  ≠ Some (getName nd).
Proof.
  unfold worldName. destruct (findWorldNode d nodes) as [w|]; [|done].
  intros Hne Heq. apply Hne.
  change (Some (nameOf (resetWorldNode d (Some w)) w) = Some (getName nd))
    in Heq.
  by rewrite resetWorldNode_name in Heq.
Qed.

Lemma worldName_not_world d nodes n nd :
  d !! n = Some nd → worldName d nodes ≠ Some (getName nd) →
  resetWorldNode d (findWorldNode d nodes) !! n = Some nd.
Proof.
  intros Hn Hname. rewrite resetWorldNode_lookup.
  destruct (decide _) as [Hw|]; [|done].
  exfalso. apply Hname. unfold worldName, nameOf. rewrite Hw. simpl.
  by rewrite Hn.
Qed.

(** X5.  When there is a world node, the stage leaves it where it was, upright
    and of unit scale, whatever the pose table says of its name; and
    every other node of the world node's name is left as it was. *)
Theorem world_node_upright_and_namesakes_passed_over
    (nodes : list NodeId) (d : gmap nat Node) (w : NodeId) :
  findWorldNode d nodes = Some w →
  (∀ nd, d !! w = Some nd →
         transformToTPose tPose nodes d !! w = Some (upright nd)) ∧
  (∀ n nd, n ≠ w → d !! n = Some nd → getName nd = nameOf d w →
           transformToTPose tPose nodes d !! n = Some nd).
Proof.
  intros Hw. unfold transformToTPose. rewrite Hw. split.
  - intros nd Hnd. apply poseNodes_namesake.
    + rewrite resetWorldNode_lookup, decide_True by done. by rewrite Hnd.
    + rewrite resetWorldNode_name. unfold nameOf. by rewrite Hnd.
  - intros n nd Hne Hn Hname. apply poseNodes_namesake.
    + rewrite resetWorldNode_lookup, decide_False; [done|congruence].
    + by rewrite resetWorldNode_name.
Qed.

(** X6.  A node of the list whose name has an entry in the pose table, and is
    not the name of the world node, ends with the position and the
    rotation of its entry, and with the scale it had. *)
Theorem node_in_pose_table_takes_its_pose
    (nodes : list NodeId) (d : gmap nat Node) (n : NodeId) (nd : Node)
    (raw : Pose) :
  n ∈ nodes → d !! n = Some nd →
  worldName d nodes ≠ Some (getName nd) →
  tPose !! getName nd = Some raw →
  transformToTPose tPose nodes d !! n = Some (posed raw nd).
Proof.
  intros Hin Hn Hname Hraw. unfold transformToTPose.
  destruct (poseNodes_posed (findWorldNode d nodes) nodes
              (resetWorldNode d (findWorldNode d nodes)) n nd raw Hraw)
    as [[_ Hnot]|Hposed]; [|..|done|done].
  - by apply worldName_reset.
  - left. by apply worldName_not_world.
Qed.

(** X7.  A node that is listed once, whose name has no entry in the pose
    table, is not a property name of [Object.prototype] and is not the
    name of the world node, has its translation multiplied by the scale
    factor, once; its rotation and scale are as they were. *)
Theorem node_without_pose_is_rescaled_once
    (nodes : list NodeId) (d : gmap nat Node) (n : NodeId) (nd : Node) :
  NoDup nodes → n ∈ nodes → d !! n = Some nd →
  worldName d nodes ≠ Some (getName nd) →
  tPose !! getName nd = None →
  inheritedKey (getName nd) = false →
  transformToTPose tPose nodes d !! n = Some (rescaled nd).
Proof.
  intros Hnodup Hin Hn Hname Hraw _. unfold transformToTPose.
  pose proof (worldName_reset _ _ _ Hname) as Hname'.
  pose proof (worldName_not_world _ _ _ _ Hn Hname) as Hn'.
  set (worldNode := findWorldNode d nodes) in *.
  set (d1 := resetWorldNode d worldNode) in *.
  clearbody worldNode d1.
  apply list_elem_of_split in Hin as (l1 & l2 & ->).
  apply NoDup_app in Hnodup as (_ & Hl1 & Hl2).
  apply NoDup_cons in Hl2 as [Hl2 _].
  rewrite foldl_app. simpl. rewrite poseNodes_other by done.
  assert (foldl (poseNode tPose worldNode) d1 l1 !! n = Some nd) as Hbefore.
  { rewrite poseNodes_other; [done|]. intros Hl. apply (Hl1 n Hl).
    apply elem_of_cons. by left. }
  rewrite (poseNode_self _ _ _ _ Hbefore); [by rewrite Hraw|].
  destruct worldNode as [w|]; [|done]. simpl. by rewrite poseNodes_name.
Qed.

(** X8.  The stage renames no node, creates and removes no node object, and
    leaves every node that is not in the list as it was: the nodes of the
    donor skeleton, which are not collected, keep their pose. *)
Theorem tpose_touches_listed_nodes_only
    (nodes : list NodeId) (d : gmap nat Node) :
  (∀ n, nameOf (transformToTPose tPose nodes d) n = nameOf d n) ∧
  (∀ n, is_Some (transformToTPose tPose nodes d !! n) ↔ is_Some (d !! n)) ∧
  (∀ n, n ∉ nodes → transformToTPose tPose nodes d !! n = d !! n).
Proof.
  unfold transformToTPose. split; [|split].
  - intros n. by rewrite poseNodes_name, resetWorldNode_name.
  - intros n. rewrite poseNodes_is_Some, resetWorldNode_lookup.
    destruct (decide _); [|done]. by rewrite fmap_is_Some.
  - intros n Hn. rewrite poseNodes_other, resetWorldNode_lookup by done.
    destruct (decide _) as [Hw|]; [|done].
    by apply findWorldNode_Some in Hw.
Qed.

End facts.

(** X5, an instance.
    On the example rig the world node keeps its place at (0, 5, 0),
    although the pose table has an entry of its name, and the second node
    of its name is left alone. *)
Lemma world_node_upright_and_namesakes_passed_over_witness :
  findWorldNode rigNodes [0; 1; 2; 3] = Some 0 ∧
  (∀ nd, rigNodes !! 0 = Some nd →
         transformToTPose poseTable [0; 1; 2; 3] rigNodes !! 0
         = Some (upright nd)) ∧
  (∀ n nd, n ≠ 0 → rigNodes !! n = Some nd →
           getName nd = nameOf rigNodes 0 →
           transformToTPose poseTable [0; 1; 2; 3] rigNodes !! n = Some nd).
Proof.
  split; [reflexivity|].
  apply (world_node_upright_and_namesakes_passed_over poseTable
           [0; 1; 2; 3] rigNodes 0).
  reflexivity.
Defined.

(** X6, an instance.
    The hips of the example rig take the pose of the table. *)
Lemma node_in_pose_table_takes_its_pose_witness :
  transformToTPose poseTable [0; 1; 2; 3] rigNodes !! 1
  = Some {| getName := "Hips-Global"; getTranslation := (0, 1, 0)%Q;
            getRotation := level; getScale := (1, 1, 1)%Q |}.
Proof.
  apply (node_in_pose_table_takes_its_pose poseTable [0; 1; 2; 3] rigNodes 1
           {| getName := "Hips-Global"; getTranslation := (0, 30, 0)%Q;
              getRotation := tilted; getScale := (1, 1, 1)%Q |}
           {| position := (0, 1, 0)%Q; rotation := level |}).
  - rewrite !elem_of_cons. auto.
  - reflexivity.
  - vm_compute. discriminate.
  - reflexivity.
Defined.

(** X7, an instance.
    The arm of the example rig, 10 units from its parent, ends 10 times
    the scale factor from it. *)
Lemma node_without_pose_is_rescaled_once_witness :
  transformToTPose poseTable [0; 1; 2; 3] rigNodes !! 2
  = Some {| getName := "Arm-Global";
            getTranslation := (10 * scale, 0 * scale, 0 * scale)%Q;
            getRotation := tilted; getScale := (2, 2, 2)%Q |}.
Proof.
  change (transformToTPose poseTable [0; 1; 2; 3] rigNodes !! 2
          = Some (rescaled
                    {| getName := "Arm-Global";
                       getTranslation := (10, 0, 0)%Q;
                       getRotation := tilted; getScale := (2, 2, 2)%Q |})).
  apply (node_without_pose_is_rescaled_once poseTable [0; 1; 2; 3] rigNodes 2
           {| getName := "Arm-Global"; getTranslation := (10, 0, 0)%Q;
              getRotation := tilted; getScale := (2, 2, 2)%Q |}).
  - repeat constructor; rewrite ?elem_of_cons, ?elem_of_nil; lia.
  - rewrite !elem_of_cons. auto.
  - reflexivity.
  - vm_compute. discriminate.
  - reflexivity.
  - reflexivity.
Defined.

End TPoseFacts.

(** * Facts about the collection of the primitives *)

Module MergeFacts.
Import Merge.

Section facts.
Variable material : MaterialId.

Local Abbreviation visit := (visit material).

Lemma collectPrimitive_run (l : list PrimitiveId) :
  ∀ (allPrimitives : list PrimitiveId) (store : gmap nat Primitive),
    ∃ store',
      foldl (collectPrimitive material) (allPrimitives, store) l
      = (allPrimitives ++ l, store') ∧
      ∀ p, store' !! p = Nat.iter (pushes l p) visit <$> store !! p.
Proof.
  induction l as [|x l IH]; intros allPrimitives store; simpl.
  - exists store. split; [by rewrite app_nil_r|].
    intros p. by destruct (store !! p).
  - destruct (IH (allPrimitives ++ [x]) (alter visit x store))
      as (store' & Hrun & Hstore).
    exists store'. split.
    + unfold Merge.visit, rematerialed in Hrun. rewrite Hrun.
      by rewrite <- app_assoc.
    + intros p. rewrite Hstore. unfold pushes. simpl.
      destruct (Nat.eq_dec x p) as [->|Hne].
      * rewrite lookup_alter_eq. destruct (store !! p); simpl; [|done].
        by rewrite Nat.iter_swap.
      * by rewrite lookup_alter_ne.
Qed.

Lemma pushes_app (l1 l2 : list PrimitiveId) (p : PrimitiveId) :
  pushes (l1 ++ l2) p = pushes l1 p + pushes l2 p.
Proof. apply count_occ_app. Qed.

Lemma collectPrimitives_run (d : Document) (nodes : list NodeId) :
  ∀ (allPrimitives : list PrimitiveId) (store : gmap nat Primitive),
    ∃ store',
      foldl (λ state n,
               foldl (collectPrimitive material) state (primitivesOf d n))
            (allPrimitives, store) nodes
      = (allPrimitives ++ mjoin (primitivesOf d <$> nodes), store') ∧
      ∀ p, store' !! p =
           Nat.iter (pushes (mjoin (primitivesOf d <$> nodes)) p) visit
             <$> store !! p.
Proof.
  induction nodes as [|n nodes IH]; intros allPrimitives store; simpl.
  - exists store. split; [by rewrite app_nil_r|].
    intros p. by destruct (store !! p).
  - destruct (collectPrimitive_run (primitivesOf d n) allPrimitives store)
      as (store1 & Hrun1 & Hstore1).
    destruct (IH (allPrimitives ++ primitivesOf d n) store1)
      as (store' & Hrun & Hstore).
    exists store'. split.
    + rewrite Hrun1, Hrun. by rewrite <- app_assoc.
    + intros p. rewrite Hstore, Hstore1, pushes_app.
      destruct (store !! p); simpl; [|done].
      by rewrite Nat.add_comm, Nat.iter_add.
Qed.

Lemma collectPrimitives_spec (d : Document) (nodes : list NodeId) :
  ∃ store',
    collectPrimitives material nodes d
    = (mjoin (primitivesOf d <$> nodes), store') ∧
    ∀ p, store' !! p =
         Nat.iter (pushes (mjoin (primitivesOf d <$> nodes)) p) visit
           <$> primitiveStore d !! p.
Proof. apply (collectPrimitives_run d nodes []). Qed.

(** X9.  [allPrimitives] holds the primitives of the meshes of the nodes, node
    after node in the order of the list: a primitive is pushed once for
    every node that carries its mesh, so its length, from which the side
    of the atlas is computed, counts a shared mesh once per node. *)
Theorem allPrimitives_lists_primitives_node_by_node
    (d : Document) (nodes : list NodeId) :
  (collectPrimitives material nodes d).1 = mjoin (primitivesOf d <$> nodes) ∧
  length (collectPrimitives material nodes d).1
  = sum_list (length ∘ primitivesOf d <$> nodes).
Proof.
  destruct (collectPrimitives_spec d nodes) as (store' & -> & _). simpl.
  split; [done|].
  induction nodes as [|n nodes IH]; [done|].
  rewrite !fmap_cons. simpl mjoin. rewrite length_app, IH. done.
Qed.

(** X10.  A primitive that is pushed once ends with the new material and with
    the material it had in [materialOld]; a primitive that is not pushed
    is left as it was. *)
Theorem primitive_collected_once_remembers_material
    (d : Document) (nodes : list NodeId) (p : PrimitiveId)
    (primitive : Primitive) :
  primitiveStore d !! p = Some primitive →
  pushes (collectPrimitives material nodes d).1 p ≤ 1 →
  (collectPrimitives material nodes d).2 !! p =
    Some (if decide (p ∈ (collectPrimitives material nodes d).1)
          then rematerialed material (getMaterial primitive)
          else primitive).
Proof.
  destruct (collectPrimitives_spec d nodes) as (store' & -> & Hstore). simpl.
  intros Hp Hone. rewrite Hstore, Hp. simpl. f_equal.
  unfold pushes in *.
  destruct (decide _) as [Hin|Hnot].
  - apply list_elem_of_In, (count_occ_In Nat.eq_dec) in Hin.
    by replace (count_occ _ _ p) with 1 by lia.
  - rewrite list_elem_of_In, (count_occ_not_In Nat.eq_dec) in Hnot.
    by rewrite Hnot.
Qed.

(** X11.  A primitive that is pushed more than once, its mesh being that of
    several nodes, ends with the new material in [materialOld] as well:
    the material it had is not remembered. *)
Theorem primitive_collected_twice_forgets_material
    (d : Document) (nodes : list NodeId) (p : PrimitiveId)
    (primitive : Primitive) :
  primitiveStore d !! p = Some primitive →
  2 ≤ pushes (collectPrimitives material nodes d).1 p →
  (collectPrimitives material nodes d).2 !! p =
    Some (rematerialed material (Some material)).
Proof.
  destruct (collectPrimitives_spec d nodes) as (store' & -> & Hstore). simpl.
  intros Hp Htwo. rewrite Hstore, Hp. simpl. f_equal.
  destruct (pushes _ p) as [|[|k]]; [lia..|]. done.
Qed.

End facts.

(** X10, an instance.
    In the example, primitive 100 had material 1 and is pushed once. *)
Lemma primitive_collected_once_remembers_material_witness :
  (collectPrimitives 9 [1; 2; 3; 4] wardrobe).1 = [100; 101; 102; 103; 103] ∧
  (collectPrimitives 9 [1; 2; 3; 4] wardrobe).2 !! 100 =
    Some (if decide (100 ∈ (collectPrimitives 9 [1; 2; 3; 4] wardrobe).1)
          then rematerialed 9 (Some 1)
          else {| getMaterial := Some 1; materialOld := None |}).
Proof.
  split; [reflexivity|].
  apply (primitive_collected_once_remembers_material 9 wardrobe [1; 2; 3; 4]
           100 {| getMaterial := Some 1; materialOld := None |}).
  - reflexivity.
  - vm_compute. lia.
Defined.

(** X11, an instance.
    Primitive 103 had material 3; its mesh is that of nodes 3 and 4. *)
Lemma primitive_collected_twice_forgets_material_witness :
  primitiveStore wardrobe !! 103
  = Some {| getMaterial := Some 3; materialOld := None |} ∧
  (collectPrimitives 9 [1; 2; 3; 4] wardrobe).2 !! 103 =
    Some (rematerialed 9 (Some 9)).
Proof.
  split; [reflexivity|].
  apply (primitive_collected_twice_forgets_material 9 wardrobe [1; 2; 3; 4]
           103 {| getMaterial := Some 3; materialOld := None |}).
  - reflexivity.
  - vm_compute. lia.
Defined.

End MergeFacts.

(** * The animation filter: channels of the root, errors, accessors *)

Module AnimationMore.
Import Animation AnimationFacts Examples.

Section facts.
Context {num : Type} `{JsNumber num}.
Implicit Types d : Document (num := num).

(** A channel of the animation whose turn it is, is still one of its
    channels when the loop reaches the animation, if it is in the store
    then. *)
Lemma listChannels_evolves d dk a c :
  evolves d dk → is_Some (animationStore dk !! a) →
  is_Some (channelStore dk !! c) →
  c ∈ listChannels d a → c ∈ listChannels dk a.
Proof.
  intros Hev [ank Hank] Hlive Hc.
  apply elem_of_listChannels in Hc as (an & Han & Hin & _).
  apply elem_of_listChannels. exists ank. split_and!; [done| |done].
  destruct Hev as [_ _ _ Hanim _].
  destruct (Hanim _ _ Hank) as (an0 & Han0 & _ & Heq & _).
  simplify_eq. apply occ_elem_of. rewrite Heq by done.
  by apply occ_elem_of.
Qed.

(** What the filter does to a channel of a listed animation is decided by
    [kept]. *)
Lemma removeAnimations_channel d d' a c ch :
  removeAnimations d = Some d' →
  a ∈ listAnimations d → c ∈ listChannels d a →
  channelStore d !! c = Some ch →
  channelStore d' !! c = if kept ch then Some ch else None.
Proof.
  intros Hrun Ha Hc Hch. destruct (kept ch) eqn:Hk.
  - by eapply processAnimations_kept.
  - destruct (removeAnimations_visit _ _ _ Hrun Ha)
      as (dk & dk' & Hev & Hlive & Hp & Hev').
    destruct (channelStore dk !! c) as [chk|] eqn:Ek.
    + assert (chk = ch) as ->.
      { destruct Hev as [Hsub _ _ _ _].
        pose proof (lookup_weaken _ _ _ _ Ek Hsub). congruence. }
      eapply evolves_channel_None; [done|].
      eapply processAnimation_deletes; [done| |done|done].
      by eapply listChannels_evolves.
    + eapply evolves_channel_None; [|done].
      etrans; [by eapply processAnimation_evolves|done].
Qed.

Lemma processChannels_kept a l d d' c ch :
  foldM (processChannel a) l d = Some d' →
  channelStore d !! c = Some ch → kept ch = true →
  channelStore d' !! c = Some ch.
Proof.
  intros Hrun Hch Hk. revert Hch.
  apply (foldM_invariant _ (λ d, channelStore d !! c = Some ch) _ _ _)
    with (2 := Hrun).
  intros d1 x d2 _ Hp Hd1. by eapply processChannel_kept.
Qed.

Lemma outputOf_evolves d dk ch s acc :
  evolves d dk → getSampler dk ch = Some s → getOutput dk s = Some acc →
  ∀ c, channelStore d !! c = Some ch → outputOf d c = Some acc.
Proof.
  intros [_ Hs _ _ _] Hgs Hgo c Hch.
  unfold getSampler in Hgs. unfold getOutput in Hgo.
  destruct (sampler ch) as [s'|] eqn:Es; [|done].
  destruct (alive _ s'); [|done]. injection Hgs as ->.
  destruct (samplerStore dk !! s) as [sm|] eqn:Esm; [|done].
  pose proof (lookup_weaken _ _ _ _ Esm Hs) as Esm0.
  destruct (output sm) as [o|] eqn:Eo; [|done].
  destruct (alive _ o); [|done]. injection Hgo as ->.
  unfold outputOf. by rewrite Hch, Es, Esm0.
Qed.

Section other_accessor.
Context (d0 : Document (num := num)) (acc : AccessorId).
Context (Hother : ∀ c ch, channelStore d0 !! c = Some ch →
                          rootTranslation ch → outputOf d0 c ≠ Some acc).

Lemma processChannel_other_accessor a d x d' :
  evolves d0 d → processChannel a d x = Some d' →
  accessorStore d' !! acc = accessorStore d !! acc.
Proof using Hother.
  intros Hev Hp. unfold processChannel in Hp.
  destruct (channelStore d !! x) as [ch|] eqn:Ech; [|done].
  assert (channelStore d0 !! x = Some ch) as Ech0.
  { destruct Hev as [Hc _ _ _ _]. by eapply lookup_weaken. }
  destruct (targetNode ch) as [t|] eqn:Et; [|done].
  assert (accessorStore (deleteChannel d a x) = accessorStore d) as Hdel
    by done.
  destruct (String.eqb (getName t) "Controller-Global") eqn:En.
  - destruct (String.eqb (targetPath ch) "scale") eqn:Eps.
    { injection Hp as <-. by rewrite Hdel. }
    destruct (String.eqb (targetPath ch) "translation") eqn:Ept.
    + destruct (getSampler d ch) as [s|] eqn:Egs; [|done].
      destruct (getOutput d s) as [a'|] eqn:Ego; [|done].
      injection Hp as <-. simpl.
      destruct (decide (a' = acc)) as [->|Hna]; [|by rewrite lookup_alter_ne].
      exfalso. apply (Hother x ch Ech0).
      * split; [exists t; split; [done|by apply String.eqb_eq]
               |by apply String.eqb_eq].
      * by eapply outputOf_evolves.
    + by injection Hp as <-.
  - destruct (negb _); injection Hp as <-; [by rewrite Hdel|done].
Qed.

Lemma processAnimation_other_accessor d a d' :
  evolves d0 d → processAnimation d a = Some d' →
  accessorStore d' !! acc = accessorStore d !! acc.
Proof using Hother.
  intros Hev Hp. unfold processAnimation in Hp.
  destruct (foldM _ _ _) as [d1|] eqn:E1; [|done]. injection Hp as <-.
  simpl. rewrite releaseSamplers_accessors.
  assert (evolves d0 d1 ∧ accessorStore d1 !! acc = accessorStore d !! acc)
    as [_ Hacc]; [|done].
  apply (foldM_invariant _
           (λ dk, evolves d0 dk ∧
                  accessorStore dk !! acc = accessorStore d !! acc) _ _ _)
    with (2 := E1); [|done].
  intros dk x dk' _ Hstep [Hevk Hacck]. split.
  - etrans; [done|]. by eapply processChannel_evolves.
  - rewrite <- Hacck. by eapply processChannel_other_accessor.
Qed.

Lemma removeAnimations_other_accessor d' :
  removeAnimations d0 = Some d' →
  accessorStore d' !! acc = accessorStore d0 !! acc.
Proof using Hother.
  unfold removeAnimations. intros Hrun.
  assert (evolves d0 d' ∧ accessorStore d' !! acc = accessorStore d0 !! acc)
    as [_ Hacc]; [|done].
  apply (foldM_invariant _
           (λ dk, evolves d0 dk ∧
                  accessorStore dk !! acc = accessorStore d0 !! acc) _ _ _)
    with (2 := Hrun); [|done].
  intros dk a dk' _ Hstep [Hevk Hacck]. split.
  - etrans; [done|]. by eapply processAnimation_evolves.
  - rewrite <- Hacck. by eapply processAnimation_other_accessor.
Qed.
End other_accessor.

End facts.

(** X12.  For every channel of a listed animation that targets the root node
    'Controller-Global', the filter deletes the channel when its path is
    'scale' and leaves it as it was otherwise, whether the path is
    'translation', 'rotation' or any other. *)
Theorem root_channels_lose_scale_only {num : Type} `{JsNumber num}
    (d d' : Document (num := num)) (a : AnimationId) (c : ChannelId)
    (ch : Channel) (t : Node) :
  removeAnimations d = Some d' →
  a ∈ listAnimations d → c ∈ listChannels d a →
  channelStore d !! c = Some ch → targetNode ch = Some t →
  getName t = "Controller-Global" →
  channelStore d' !! c =
    if decide (targetPath ch = "scale") then None else Some ch.
Proof.
  intros Hrun Ha Hc Hch Ht Hn.
  rewrite (removeAnimations_channel _ _ _ _ _ Hrun Ha Hc Hch).
  unfold kept. rewrite Ht, Hn. simpl.
  case_decide as Hs.
  - by rewrite Hs.
  - apply String.eqb_neq in Hs. by rewrite Hs.
Qed.

(** X13.  A channel without a target node, in a listed animation, makes the
    filter throw: the name of the target is read of every channel. *)
Theorem filter_throws_on_channel_without_target {num : Type} `{JsNumber num}
    (d : Document (num := num)) (a : AnimationId) (c : ChannelId)
    (ch : Channel) :
  a ∈ listAnimations d → c ∈ listChannels d a →
  channelStore d !! c = Some ch → targetNode ch = None →
  removeAnimations d = None.
Proof.
  intros Ha Hc Hch Ht.
  destruct (removeAnimations d) as [d'|] eqn:Hrun; [exfalso|done].
  assert (kept ch = true) as Hk by (unfold kept; by rewrite Ht).
  unfold removeAnimations in Hrun.
  pose proof Ha as [_ Hlive]%elem_of_listAnimations.
  apply elem_of_rev in Ha.
  destruct (foldM_split _ _ _ _ _ Ha Hrun)
    as (l1 & l2 & dk & dk' & _ & Hnot & R1 & Hv & _).
  assert (channelStore dk !! c = Some ch) as Hchk
    by (by eapply processAnimations_kept).
  assert (is_Some (animationStore dk !! a)) as Hlivek.
  { revert Hlive.
    apply (foldM_invariant _ (λ d, is_Some (animationStore d !! a)) _ _ _)
      with (2 := R1).
    intros ? b ? Hb Hp. eapply processAnimation_other_alive; [done|].
    by intros ->. }
  assert (c ∈ listChannels dk a) as Hck.
  { eapply listChannels_evolves; [|done|by exists ch|done].
    by eapply processAnimations_evolves. }
  unfold processAnimation in Hv.
  destruct (foldM _ _ dk) as [d1|] eqn:E1; [|done].
  apply elem_of_rev in Hck.
  destruct (foldM_split _ _ _ _ _ Hck E1)
    as (k1 & k2 & s1 & s2 & _ & _ & Q1 & Hstep & _).
  pose proof (processChannels_kept _ _ _ _ _ _ Q1 Hchk Hk) as Hchs.
  unfold processChannel in Hstep. by rewrite Hchs, Ht in Hstep.
Qed.

(** X14.  The filter creates and disposes no accessor, and an accessor that is
    not the output of a translation channel of the root node holds the
    same elements afterwards. *)
Theorem filter_rewrites_root_translation_outputs_only
    {num : Type} `{JsNumber num} (d d' : Document (num := num)) :
  removeAnimations d = Some d' →
  (∀ acc, is_Some (accessorStore d' !! acc) ↔ is_Some (accessorStore d !! acc)) ∧
  (∀ acc,
     (∀ c ch, channelStore d !! c = Some ch → rootTranslation ch →
              outputOf d c ≠ Some acc) →
     accessorStore d' !! acc = accessorStore d !! acc).
Proof.
  intros Hrun. split.
  - intros acc. unfold removeAnimations in Hrun.
    apply processAnimations_evolves in Hrun. by destruct Hrun.
  - intros acc Hother. by eapply removeAnimations_other_accessor.
Qed.

(** X12, an instance.
    In [walkDoc] the scale channel of the root is deleted. *)
Lemma root_channels_lose_scale_only_witness :
  removeAnimations walkDoc = Some walkDoc_filtered ∧
  channelStore walkDoc !! 1 = Some (hipsScale 1) ∧
  channelStore walkDoc_filtered !! 1 = None.
Proof.
  split; [exact walkDoc_run|]. split; [done|].
  apply (root_channels_lose_scale_only walkDoc walkDoc_filtered 0 1
           (hipsScale 1) controllerGlobal).
  - exact walkDoc_run.
  - vm_compute. left.
  - vm_compute. right. left.
  - reflexivity.
  - reflexivity.
  - reflexivity.
Defined.

(** X13, an instance.
    The filter throws on the animation whose second channel has no
    target node. *)
Lemma filter_throws_on_channel_without_target_witness :
  channelStore untargetedDoc !! 1 = Some (untargeted 1) ∧
  removeAnimations untargetedDoc = None.
Proof.
  split; [reflexivity|].
  apply (filter_throws_on_channel_without_target untargetedDoc 0 1
           (untargeted 1)).
  - vm_compute. left.
  - vm_compute. right. left.
  - reflexivity.
  - reflexivity.
Defined.

(** X14, an instance.
    In [walkDoc] the accessors of the rotation of the arm and of the
    deleted channels are as they were. *)
Lemma filter_rewrites_root_translation_outputs_only_witness :
  removeAnimations walkDoc = Some walkDoc_filtered ∧
  (∀ acc, is_Some (accessorStore walkDoc_filtered !! acc)
          ↔ is_Some (accessorStore walkDoc !! acc)) ∧
  (∀ acc,
     (∀ c ch, channelStore walkDoc !! c = Some ch → rootTranslation ch →
              outputOf walkDoc c ≠ Some acc) →
     accessorStore walkDoc_filtered !! acc = accessorStore walkDoc !! acc).
Proof.
  split; [exact walkDoc_run|].
  apply (filter_rewrites_root_translation_outputs_only walkDoc
           walkDoc_filtered).
  exact walkDoc_run.
Defined.

End AnimationMore.

(** * The skeleton stage: pruning errors, orphans, the joint index *)

Module SkeletonMore.
Import GlMatrix Skeleton SkeletonFacts SkeletonOrder.

Section facts.
Context {num : Type} `{JsNumber num}.
Implicit Types d : Document (num := num).

(** ** Pruning *)

Lemma jointsByName_None d nm :
  (∀ j, j ∈ listJoints d → getName d j ≠ nm) → jointsByName d !! nm = None.
Proof.
  intros Hno. destruct (jointsByName d !! nm) as [j|] eqn:Ej; [|done].
  apply jointsByName_Some in Ej as [Hj Hname]. by destruct (Hno j Hj).
Qed.

Lemma jointsByName_unique d j :
  uniqueNames d → j ∈ listJoints d → jointsByName d !! getName d j = Some j.
Proof.
  intros Hu Hj. destruct (jointsByName_is_Some d j Hj) as [j' Hj'].
  rewrite Hj'. f_equal.
  apply jointsByName_Some in Hj' as [Hin Hname].
  by apply (uniqueNames_inj d).
Qed.

Lemma getParentNode_None d j :
  getParentNode d j = None ↔
  ∀ nd p, nodeStore d !! j = Some nd → parent nd = Some p →
          nodeStore d !! p = None.
Proof.
  unfold getParentNode. split.
  - intros Hg nd p Hnd Hp. rewrite Hnd, Hp in Hg.
    destruct (isNode d p) eqn:Ep; [done|].
    destruct (nodeStore d !! p) eqn:Esp; [|done].
    assert (isNode d p = true) by (apply isNode_true; by rewrite Esp).
    congruence.
  - intros Hall. destruct (nodeStore d !! j) as [nd|]; [|done].
    destruct (parent nd) as [p|] eqn:Epar; [|done].
    destruct (isNode d p) eqn:Ep; [|done].
    apply isNode_true in Ep as [x Hx].
    by rewrite (Hall nd p eq_refl Epar) in Hx.
Qed.

Lemma clearId_Some j o p : clearId j o = Some p → o = Some p ∧ p ≠ j.
Proof.
  destruct o as [m|]; simpl; [|done].
  destruct (Nat.eqb m j) eqn:E; [done|]. intros [= ->].
  by apply Nat.eqb_neq in E.
Qed.

Lemma removeJointNode_lookup d p j j' nd' :
  nodeStore (removeJointNode d p j) !! j' = Some nd' →
  j' ≠ j ∧ ∃ nd, nodeStore d !! j' = Some nd ∧
    name nd' = name nd ∧ matrix nd' = matrix nd ∧
    parent nd' = clearId j (parent nd).
Proof.
  intros Hl. destruct (decide (j' = j)) as [->|Hne].
  - by rewrite removeJointNode_self in Hl.
  - split; [done|]. rewrite removeJointNode_other in Hl by done.
    destruct (nodeStore d !! j') as [nd|]; [|done].
    injection Hl as <-. by exists nd.
Qed.

Lemma removeJointNode_parentless d p j j' :
  getParentNode d j' = None → getParentNode (removeJointNode d p j) j' = None.
Proof.
  rewrite !getParentNode_None. intros Hd nd' q Hnd' Hq.
  apply removeJointNode_lookup in Hnd' as (Hne & nd & Hnd & _ & _ & Hpar).
  rewrite Hq in Hpar. symmetry in Hpar.
  apply clearId_Some in Hpar as [Hpar Hqj].
  rewrite removeJointNode_other by done. by rewrite (Hd nd q).
Qed.

Lemma removeNamed_parentless index l :
  ∀ d nm j, nm ∈ l → index !! nm = Some j → getParentNode d j = None →
            foldM (removeNamed index) l d = None.
Proof.
  induction l as [|x l IH]; intros d nm j Hin Hidx Hpar.
  - by apply elem_of_nil in Hin.
  - simpl. destruct (removeNamed index d x) as [d1|] eqn:Estep; [|done].
    apply elem_of_cons in Hin as [->|Hin].
    + unfold removeNamed in Estep. by rewrite Hidx, Hpar in Estep.
    + apply (IH d1 nm j Hin Hidx).
      apply removeNamed_cases in Estep
        as [[_ ->]|(j' & p & _ & _ & ->)]; [done|].
      by apply removeJointNode_parentless.
Qed.

#[local] Instance survives_refl : Reflexive (survives (num := num)).
Proof. intros d j nd Hj. exists nd. by auto. Qed.

#[local] Instance survives_trans : Transitive (survives (num := num)).
Proof.
  intros d1 d2 d3 H12 H23 j nd3 Hj.
  destruct (H23 j nd3 Hj) as (nd2 & Hj2 & Hn & Hm & Hp).
  destruct (H12 j nd2 Hj2) as (nd1 & Hj1 & Hn1 & Hm1 & Hp1).
  exists nd1. split_and!; [done|congruence|congruence|].
  destruct Hp as [Hp | Hp]; [rewrite Hp; done|by right].
Qed.

Lemma removeJointNode_survives d p j : survives d (removeJointNode d p j).
Proof.
  intros j' nd' Hl.
  apply removeJointNode_lookup in Hl as (_ & nd & Hnd & Hn & Hm & Hp).
  exists nd. split_and!; [done..|].
  rewrite Hp. destruct (parent nd) as [q|]; simpl; [|by left].
  destruct (Nat.eqb q j); by auto.
Qed.

Lemma removeNamed_survives index l d d' :
  foldM (removeNamed index) l d = Some d' → survives d d'.
Proof.
  apply foldM_preserves; [apply _..|].
  intros d1 x d2 _ Hstep.
  apply removeNamed_cases in Hstep as [[_ ->]|(j & p & _ & _ & ->)];
    [done|apply removeJointNode_survives].
Qed.

Lemma getWorldMatrix_parentless d j nd :
  nodeStore d !! j = Some nd → getParentNode d j = None →
  getWorldMatrix d j = matrix nd.
Proof.
  intros Hnd Hpar. unfold getWorldMatrix.
  destruct (size (nodeStore d)) as [|k] eqn:Es.
  - apply map_size_empty_inv in Es. by rewrite Es in Hnd.
  - simpl. by rewrite Hnd, Hpar.
Qed.

(** ** The joint index *)

Lemma foldl_insert_agree {A V : Type} (key : A → string) (val : A → V)
    (l : list A) (k : string) (v : V) :
  (∀ y, y ∈ l → key y = k → val y = v) →
  ∀ m : gmap string V, m !! k = Some v ∨ (∃ y, y ∈ l ∧ key y = k) →
       foldl (λ index x, <[key x := val x]> index) m l !! k = Some v.
Proof.
  induction l as [|x l IH]; intros Hval m Hm; simpl.
  - destruct Hm as [Hm|(y & Hy & _)]; [done|by apply elem_of_nil in Hy].
  - apply IH.
    + intros y Hy. apply Hval. by right.
    + destruct (decide (key x = k)) as [Hk|Hk].
      * left. rewrite <- Hk, lookup_insert_eq. f_equal. apply Hval; [left|done].
      * destruct Hm as [Hm|(y & Hy & Hyk)].
        -- left. by rewrite lookup_insert_ne.
        -- right. exists y. split; [|done].
           apply elem_of_cons in Hy as [->|Hy]; [done|done].
Qed.

Lemma elem_of_indexed {A : Type} (l : list A) (i : nat) (x : A) :
  (i, x) ∈ imap (λ i j, (i, j)) l ↔ l !! i = Some x.
Proof.
  rewrite list_elem_of_lookup. split.
  - intros (k & Hk). rewrite list_lookup_imap in Hk.
    destruct (l !! k) as [y|] eqn:Ey; [|done]. simpl in Hk.
    by injection Hk as <- <-.
  - intros Hi. exists i. by rewrite list_lookup_imap, Hi.
Qed.

(** ** The inverse bind matrices *)

Lemma foldM_None {S A : Type} (step : S → A → option S) (l : list A) (s : S) :
  foldM step l s = None → ∃ x s', x ∈ l ∧ step s' x = None.
Proof.
  revert s. induction l as [|x l IH]; intros s; simpl; [done|].
  destruct (step s x) as [s1|] eqn:E.
  - intros Hrun. destruct (IH _ Hrun) as (y & s' & Hy & Hs).
    exists y, s'. split; [by right|done].
  - intros _. exists x, s. split; [by left|done].
Qed.

Lemma foldM_fails {S A : Type} (step : S → A → option S) (l : list A) (x : A) :
  x ∈ l → (∀ s, step s x = None) → ∀ s, foldM step l s = None.
Proof.
  intros Hx Hfail. induction l as [|y l IH]; intros s; simpl.
  - by apply elem_of_nil in Hx.
  - destruct (step s y) as [s1|] eqn:E; [|done].
    apply elem_of_cons in Hx as [->|Hx]; [by rewrite Hfail in E|by apply IH].
Qed.

End facts.

(** X15.  When the index of the joints by name is a map, and no name of
    the deny list is the name of a joint of the skin, the pruning leaves
    the document as it is. *)
Theorem prune_changes_nothing_without_match {num : Type} `{JsNumber num}
    (jointsToRemove : list string) (d : Document (num := num)) :
  indexIsMap jointsToRemove d →
  (∀ nm j, nm ∈ jointsToRemove → j ∈ listJoints d → getName d j ≠ nm) →
  pruneJoints jointsToRemove d = Some d.
Proof.
  intros [_ Hplain] Hno. unfold pruneJoints. apply removeNamed_absent.
  intros nm Hnm. split; [|by apply Hplain].
  apply jointsByName_None. intros j Hj. by apply Hno.
Qed.

(** X16.
    A joint of the deny list that has no parent node, such as the root of
    the skeleton, makes the pruning throw: the joint is removed from its
    parent before anything else. *)
Theorem prune_throws_on_joint_without_parent {num : Type} `{JsNumber num}
    (jointsToRemove : list string) (d : Document (num := num)) (j : NodeId) :
  uniqueNames d → j ∈ listJoints d →
  getName d j ∈ jointsToRemove → getParentNode d j = None →
  pruneJoints jointsToRemove d = None.
Proof.
  intros Hu Hj Hnm Hpar. unfold pruneJoints.
  apply (removeNamed_parentless _ _ d (getName d j) j); [done| |done].
  by apply jointsByName_unique.
Qed.

(** X17.  A deny list that names a joint and, later, a child of that joint
    makes the pruning throw: when the child's turn comes, the disposal of
    its parent has left it without a parent node. *)
Theorem prune_throws_on_parent_then_child {num : Type} `{JsNumber num}
    (jointsToRemove before after : list string) (d : Document (num := num))
    (parentJoint child : NodeId) :
  uniqueNames d → parentJoint ∈ listJoints d → child ∈ listJoints d →
  getParentNode d child = Some parentJoint →
  jointsToRemove = before ++ getName d parentJoint :: after →
  getName d child ∈ after →
  pruneJoints jointsToRemove d = None.
Proof.
  intros Hu Hp Hc Hpar -> Hafter. unfold pruneJoints. rewrite foldM_app.
  destruct (foldM _ before d) as [s1|] eqn:E1; [|done]. simpl.
  destruct (removeNamed _ s1 _) as [s2|] eqn:E2; [|done].
  apply (removeNamed_parentless _ _ s2 (getName d child) child);
    [done|by apply jointsByName_unique|].
  apply removeNamed_survives in E1.
  apply removeNamed_cases in E2 as [[Hidx _]|(j & p & Hidx & _ & ->)].
  { by rewrite jointsByName_unique in Hidx. }
  rewrite jointsByName_unique in Hidx by done. injection Hidx as <-.
  apply getParentNode_None. intros nd' q Hnd' Hq.
  apply removeJointNode_lookup in Hnd' as (Hne & nd & Hnd & _ & _ & Hpar').
  rewrite Hq in Hpar'. symmetry in Hpar'.
  apply clearId_Some in Hpar' as [Hpar' Hqp].
  destruct (E1 _ _ Hnd) as (nd0 & Hnd0 & _ & _ & Hp0).
  destruct Hp0 as [Hp0|Hp0]; [|congruence].
  unfold getParentNode in Hpar. rewrite Hnd0 in Hpar.
  rewrite <- Hp0, Hpar' in Hpar.
  destruct (isNode d q); [|done]. congruence.
Qed.

(** X18.
    The pruning removes a joint and not the joints below it: a joint that
    is left, and whose parent node was removed, has no parent node any
    more, and its world matrix is its local matrix. *)
Theorem joint_below_pruned_joint_becomes_root {num : Type} `{JsNumber num}
    (jointsToRemove : list string) (d d' : Document (num := num))
    (j p : NodeId) (nd : Node) :
  pruneJoints jointsToRemove d = Some d' →
  nodeStore d !! j = Some nd → parent nd = Some p →
  nodeStore d' !! p = None → j ∈ listJoints d' →
  getParentNode d' j = None ∧ getWorldMatrix d' j = matrix nd.
Proof.
  intros Hrun Hnd Hp Hgone Hj. unfold pruneJoints in Hrun.
  apply removeNamed_survives in Hrun.
  apply elem_of_listJoints in Hj as [_ [nd' Hnd']].
  destruct (Hrun _ _ Hnd') as (nd0 & Hnd0 & _ & Hm & Hp0).
  assert (nd0 = nd) as -> by congruence.
  assert (getParentNode d' j = None) as Hnone.
  { apply getParentNode_None. intros nd1 q Hnd1 Hq.
    assert (nd1 = nd') as -> by congruence.
    destruct Hp0 as [Hp0|Hp0]; [|congruence].
    assert (q = p) as -> by congruence. done. }
  split; [done|]. rewrite <- Hm. by apply getWorldMatrix_parentless.
Qed.

(** X19.  In a skin whose joints have distinct names, the joint index
    maps a name to [i] exactly when the name is not __proto__ and the
    joint at position [i] of the skin has that name. *)
Theorem joint_index_is_position_in_skin {num : Type} `{JsNumber num}
    (d : Document (num := num)) (nm : string) (i : nat) :
  uniqueNames d →
  jointsIndex d !! nm = Some i ↔
  nm ≠ "__proto__" ∧ ∃ j, listJoints d !! i = Some j ∧ getName d j = nm.
Proof.
  intros Hu. split; [apply jointsIndex_position|].
  intros (Hproto & j & Hj & Hname). rewrite jointsIndex_fold.
  apply (foldl_insert_agree (λ x, getName d x.2) (λ x : nat * nat, x.1)).
  - intros [i' j'] Hy Hk. simpl in *.
    apply list_elem_of_In, filter_In in Hy as [Hy _].
    apply list_elem_of_In, elem_of_indexed in Hy.
    apply (NoDup_lookup _ i' i nm Hu); rewrite list_lookup_fmap;
      [rewrite Hy|rewrite Hj]; simpl; congruence.
  - right. exists (i, j). split; [|done].
    apply list_elem_of_In, filter_In. split.
    + by apply list_elem_of_In, elem_of_indexed.
    + simpl. apply negb_true_iff, String.eqb_neq. congruence.
Qed.

(** X20.  Recomputing the inverse bind matrices a second time changes nothing:
    the matrices depend on the joints and their world matrices only. *)
Theorem recompute_twice_is_recompute_once {num : Type} `{JsNumber num}
    (d d' : Document (num := num)) :
  recomputeInverseBindMatrices d = Some d' →
  recomputeInverseBindMatrices d' = Some d'.
Proof.
  unfold recomputeInverseBindMatrices.
  destruct (inverseBindMatrices (skin d)) as [old|] eqn:Eold; [|done].
  destruct (foldM _ _ _) as [ibm|] eqn:Erun; [|done].
  intros [= <-]. simpl.
  assert (listJoints (withSkin d
            {| joints := joints (skin d); inverseBindMatrices := Some ibm;
               skeleton := skeleton (skin d) |}) = listJoints d) as ->
    by done.
  rewrite (foldM_ext_in _
             (λ ibm '(i, j), setElement ibm i (mat4_invert (getWorldMatrix d j)))).
  - by rewrite Erun.
  - intros s [i j] _. by rewrite (getWorldMatrix_ext _ d).
Qed.

(** X21.  The recomputation throws exactly when the skin has no accessor of
    inverse bind matrices, or when the world matrix of one of its joints
    has no inverse. *)
Theorem recompute_throws_iff {num : Type} `{JsNumber num}
    (d : Document (num := num)) :
  recomputeInverseBindMatrices d = None ↔
  inverseBindMatrices (skin d) = None ∨
  ∃ j, j ∈ listJoints d ∧ mat4_invert (getWorldMatrix d j) = None.
Proof.
  unfold recomputeInverseBindMatrices. split.
  - destruct (inverseBindMatrices (skin d)) as [old|]; [|by left].
    destruct (foldM _ _ _) as [ibm|] eqn:Erun; [done|]. intros _. right.
    apply foldM_None in Erun as ([i j] & s' & Hin & Hstep).
    exists j. split.
    + apply elem_of_indexed in Hin. by eapply list_elem_of_lookup_2.
    + unfold setElement in Hstep. by destruct (mat4_invert _).
  - intros [->|(j & Hj & Hinv)]; [done|].
    destruct (inverseBindMatrices (skin d)) as [old|]; [|done].
    apply list_elem_of_lookup in Hj as [i Hi].
    rewrite (foldM_fails _ _ (i, j)); [done|by apply elem_of_indexed|].
    intros s. by rewrite Hinv.
Qed.

(** X15, an instance.  The example rig has no wing. *)
Lemma prune_changes_nothing_without_match_witness :
  pruneJoints ["Wing"] tailRig = Some tailRig.
Proof.
  assert (listJoints tailRig = [10; 11; 12; 13]) as Hl
    by (vm_compute; reflexivity).
  apply (prune_changes_nothing_without_match ["Wing"] tailRig).
  - split.
    + intros j Hj. rewrite Hl in Hj.
      repeat (apply elem_of_cons in Hj as [->|Hj]; [vm_compute; discriminate|]).
      by apply elem_of_nil in Hj.
    + intros nm ->%list_elem_of_singleton. vm_compute. reflexivity.
  - intros nm j ->%list_elem_of_singleton Hj Hname. rewrite Hl in Hj.
    repeat (apply elem_of_cons in Hj as [->|Hj]; [by vm_compute in Hname|]).
    by apply elem_of_nil in Hj.
Defined.

(** X16, an instance.  The hips are the root of the example rig. *)
Lemma prune_throws_on_joint_without_parent_witness :
  pruneJoints ["Tail"; "Hips"] tailRig = None.
Proof.
  apply (prune_throws_on_joint_without_parent ["Tail"; "Hips"] tailRig 10).
  - exact tailRig_uniqueNames.
  - vm_compute. left.
  - vm_compute. right. left.
  - reflexivity.
Defined.

(** X17, an instance.  The tip of the tail is a child of the tail. *)
Lemma prune_throws_on_parent_then_child_witness :
  pruneJoints ["Tail"; "TailTip"] tailRig = None ∧
  pruneJoints ["TailTip"; "Tail"] tailRig ≠ None.
Proof.
  split.
  - apply (prune_throws_on_parent_then_child ["Tail"; "TailTip"] []
             ["TailTip"] tailRig 12 13).
    + exact tailRig_uniqueNames.
    + vm_compute. do 2 right. left.
    + vm_compute. do 3 right. left.
    + reflexivity.
    + reflexivity.
    + vm_compute. left.
  - vm_compute. discriminate.
Defined.

(** X18, an instance.  The tip of the tail stays when the tail is pruned. *)
Lemma joint_below_pruned_joint_becomes_root_witness :
  pruneJoints denyList tailRig = Some tailRig_pruned ∧
  getParentNode tailRig 13 = Some 12 ∧
  getParentNode tailRig_pruned 13 = None ∧
  getWorldMatrix tailRig_pruned 13 = translated 0 0 (-1 # 4).
Proof.
  split; [exact tailRig_prune|]. split; [reflexivity|].
  apply (joint_below_pruned_joint_becomes_root denyList tailRig
           tailRig_pruned 13 12 (tailTip (Some 12))).
  - exact tailRig_prune.
  - reflexivity.
  - reflexivity.
  - reflexivity.
  - vm_compute. do 2 right. left.
Defined.

(** X19, an instance.  The spine is the second joint of the example rig. *)
Lemma joint_index_is_position_in_skin_witness :
  jointsIndex tailRig !! "Spine" = Some 1 ↔
  "Spine" ≠ "__proto__" ∧
  ∃ j, listJoints tailRig !! 1 = Some j ∧ getName tailRig j = "Spine".
Proof.
  apply (joint_index_is_position_in_skin tailRig "Spine" 1).
  exact tailRig_uniqueNames.
Defined.

(** X20, an instance.  The pruned example rig, recomputed twice. *)
Lemma recompute_twice_is_recompute_once_witness :
  recomputeInverseBindMatrices tailRig_pruned = Some tailRig_recomputed ∧
  recomputeInverseBindMatrices tailRig_recomputed = Some tailRig_recomputed.
Proof.
  split; [exact tailRig_recompute|].
  apply (recompute_twice_is_recompute_once tailRig_pruned tailRig_recomputed).
  exact tailRig_recompute.
Defined.

End SkeletonMore.

(** * The mesh loop: the joint that is found, errors, removed nodes *)

Module RigidSkinMore.
Import GlMatrix RigidSkin RigidSkinFacts RigidSkinOrder Examples.

Section facts.
Context {num : Type} `{JsNumber num}.
Implicit Types d : Document (num := num).

#[local] Instance settles_refl : Reflexive (settles (num := num)).
Proof. intros d. split; [done|]. intros y nd Hy. exists nd. by auto. Qed.

#[local] Instance settles_trans : Transitive (settles (num := num)).
Proof.
  intros d1 d2 d3 [Hm12 Hn12] [Hm23 Hn23]. split.
  - intros m. by rewrite Hm23.
  - intros y nd3 Hy.
    destruct (Hn23 y nd3 Hy) as (nd2 & Hy2 & Hn & Hmesh & Hp).
    destruct (Hn12 y nd2 Hy2) as (nd1 & Hy1 & Hn1 & Hmesh1 & Hp1).
    exists nd1. split_and!; [done|congruence|congruence|].
    destruct Hp as [Hp|Hp]; [rewrite Hp; done|by right].
Qed.

#[local] Instance quiet_refl : Reflexive (quiet (num := num)).
Proof. intros d. split; [reflexivity|done]. Qed.

#[local] Instance quiet_trans : Transitive (quiet (num := num)).
Proof.
  intros d1 d2 d3 [Hs12 Hk12] [Hs23 Hk23]. split; [by etrans|].
  intros y Hy. by apply Hk23, Hk12.
Qed.

(** A change of one node that keeps its name and mesh. *)
Lemma alter_quiet d (f : Node → Node) x :
  (∀ nd, name (f nd) = name nd ∧ mesh (f nd) = mesh nd ∧
         (parent (f nd) = parent nd ∨ parent (f nd) = None)) →
  quiet d (withNodes d (alter f x (nodeStore d))).
Proof.
  intros Hf. split; [split; [done|]|].
  - intros y nd' Hy. simpl in Hy.
    destruct (decide (y = x)) as [->|Hne].
    + rewrite lookup_alter_eq in Hy.
      destruct (nodeStore d !! x) as [nd|]; [|done]. injection Hy as <-.
      exists nd. split; [done|]. apply Hf.
    + rewrite lookup_alter_ne in Hy by done. exists nd'. by auto.
  - intros y Hy. simpl.
    destruct (decide (y = x)) as [->|Hne].
    + rewrite lookup_alter_eq. by apply fmap_is_Some.
    + by rewrite lookup_alter_ne.
Qed.

Lemma setMatrix_quiet d x m : quiet d (setMatrix d x m).
Proof. apply alter_quiet. intros nd. by auto. Qed.

Lemma setSkin_quiet d x : quiet d (setSkin d x).
Proof. apply alter_quiet. intros nd. by auto. Qed.

Lemma removeChild_quiet d p x : quiet d (removeChild d p x).
Proof.
  apply alter_quiet. intros nd. destruct (bool_decide _); simpl; by auto.
Qed.

Lemma addChild_quiet d x : quiet d (addChild d x).
Proof. split; [split; [done|]|done]. intros y nd Hy. exists nd. by auto. Qed.

Lemma detach_settles d x : settles d (detach d x).
Proof.
  split; [done|]. intros y nd' Hy. simpl in Hy.
  destruct (decide (y = x)) as [->|Hne].
  - rewrite lookup_alter_eq in Hy.
    destruct (nodeStore d !! x) as [nd|]; [|done]. injection Hy as <-.
    exists nd. simpl. by auto.
  - rewrite lookup_alter_ne in Hy by done. exists nd'. by auto.
Qed.

Lemma dispose_lookup d x y :
  nodeStore (dispose d x) !! y =
    if decide (y = x) then None
    else (λ nd, setParent nd (clearId x (parent nd))) <$> nodeStore d !! y.
Proof.
  simpl. rewrite lookup_fmap. destruct (decide (y = x)) as [->|Hne].
  - by rewrite lookup_delete_eq.
  - by rewrite lookup_delete_ne.
Qed.

Lemma dispose_settles d x : settles d (dispose d x).
Proof.
  split; [done|]. intros y nd' Hy. rewrite dispose_lookup in Hy.
  destruct (decide (y = x)); [done|].
  destruct (nodeStore d !! y) as [nd|]; [|done]. injection Hy as <-.
  exists nd. simpl. split_and!; [done..|].
  destruct (parent nd) as [q|]; simpl; [|by left].
  destruct (Nat.eqb q x); by auto.
Qed.

Lemma withMeshes_alter_quiet d (g : list Primitive → list Primitive) m :
  quiet d (withMeshes d (alter g m (meshStore d))).
Proof.
  split; [split|done].
  - intros m'. simpl. destruct (decide (m' = m)) as [->|Hne].
    + rewrite lookup_alter_eq. by rewrite fmap_is_Some.
    + by rewrite lookup_alter_ne.
  - intros y nd Hy. exists nd. by auto.
Qed.

Lemma withMeshes_insert_quiet d m ps :
  is_Some (meshStore d !! m) →
  quiet d (withMeshes d (<[m := ps]> (meshStore d))).
Proof.
  intros Hm. split; [split|done].
  - intros m'. simpl. destruct (decide (m' = m)) as [->|Hne].
    + rewrite lookup_insert_eq. split; [done|by eauto].
    + by rewrite lookup_insert_ne.
  - intros y nd Hy. exists nd. by auto.
Qed.

Lemma reparent_quiet d n p m : quiet d (reparent d n p m).
Proof.
  unfold reparent.
  etrans; [apply (removeChild_quiet d p n)|].
  etrans; [apply addChild_quiet|].
  etrans; [apply setMatrix_quiet|].
  apply withMeshes_alter_quiet.
Qed.

Lemma skinPrimitive_quiet worldTransform k n m d i d' :
  skinPrimitive worldTransform k n m d i = Some d' → quiet d d'.
Proof.
  unfold skinPrimitive. intros Hs.
  destruct (meshStore d !! m) as [ps|] eqn:Em; [|done].
  destruct (ps !! i) as [primitive|]; [|done].
  destruct (POSITION primitive) as [positions|]; [|done].
  injection Hs as <-.
  etrans; [apply (withMeshes_insert_quiet d m); by rewrite Em|].
  apply setMatrix_quiet.
Qed.

Lemma skinMesh_quiet worldTransform k n m d d' :
  skinMesh worldTransform k n m d = Some d' → quiet d d'.
Proof.
  unfold skinMesh. intros Hs.
  destruct (meshStore d !! m) as [ps|]; [|done].
  etrans; [apply (setSkin_quiet d n)|].
  revert Hs. apply foldM_preserves; [apply _..|].
  intros d1 i d2 _. apply skinPrimitive_quiet.
Qed.

Section node.
Variable jointsTuples : gmap string string.
Variable jointsIndex : gmap string nat.

Local Abbreviation processNode := (processNode jointsTuples jointsIndex).
Local Abbreviation processMeshes := (processMeshes jointsTuples jointsIndex).
Local Abbreviation jointOf := (jointOf jointsTuples jointsIndex).
Local Abbreviation lookupJoint := (lookupJoint jointsTuples jointsIndex).

(** The three ways a turn of the loop can end well. *)
Lemma processNode_cases d n d' :
  processNode d n = Some d' →
  (quiet d d' ∧
   (nodeStore d !! n = None ∨ is_Some (getMesh d n) ∨
    ∃ nd, nodeStore d !! n = Some nd ∧ endsWith (name nd) "-Local" = false)) ∨
  (∃ nd p, nodeStore d !! n = Some nd ∧ getMesh d n = None ∧
           endsWith (name nd) "-Local" = true ∧
           d' = dispose (detach (removeChild d p n) n) n).
Proof.
  unfold RigidSkin.processNode. intros Hp.
  destruct (nodeStore d !! n) as [nd|] eqn:End.
  2: { injection Hp as <-. left. split; [reflexivity|by left]. }
  destruct (getMesh d n) as [m|] eqn:Em.
  - left. split; [|right; left; by eexists].
    destruct (getParentNode d n) as [p|]; [|done].
    destruct (RigidSkin.jointOf _ _ _ _) as [k|].
    + etrans; [apply (reparent_quiet d n p m)|]. by eapply skinMesh_quiet.
    + injection Hp as <-. apply reparent_quiet.
  - destruct (endsWith (name nd) "-Local") eqn:El.
    + right. destruct (getParentNode d n) as [p|]; [|done].
      injection Hp as <-. by exists nd, p.
    + injection Hp as <-. left. split; [reflexivity|].
      right. right. by exists nd.
Qed.

Lemma processNode_settles d n d' : processNode d n = Some d' → settles d d'.
Proof.
  intros Hp. apply processNode_cases in Hp
    as [[[Hs _] _]|(nd & p & _ & _ & _ & ->)]; [done|].
  etrans; [apply removeChild_quiet|].
  etrans; [apply detach_settles|apply dispose_settles].
Qed.

Lemma processMeshes_settles nodes d d' :
  processMeshes nodes d = Some d' → settles d d'.
Proof.
  apply foldM_preserves; [apply _..|].
  intros d1 x d2 _. apply processNode_settles.
Qed.

(** What [settles] keeps. *)
Lemma settles_gone d d' y :
  settles d d' → nodeStore d !! y = None → nodeStore d' !! y = None.
Proof.
  intros [_ Hn] Hy. destruct (nodeStore d' !! y) as [nd'|] eqn:Ey; [|done].
  destruct (Hn y nd' Ey) as (nd & Hnd & _). congruence.
Qed.

Lemma parentless_iff d j :
  getParentNode d j = None ↔
  ∀ nd p, nodeStore d !! j = Some nd → parent nd = Some p →
          nodeStore d !! p = None.
Proof.
  unfold getParentNode, isNode. split.
  - intros Hg nd p Hnd Hp. rewrite Hnd, Hp in Hg.
    case_bool_decide as Hd; [done|].
    by destruct (nodeStore d !! p) eqn:Esp; [destruct Hd; eauto|].
  - intros Hall. destruct (nodeStore d !! j) as [nd|]; [|done].
    destruct (parent nd) as [p|] eqn:Epar; [|done].
    case_bool_decide as Hd; [|done].
    destruct Hd as [x Hx]. by rewrite (Hall nd p eq_refl Epar) in Hx.
Qed.

Lemma settles_parentless d d' y :
  settles d d' → getParentNode d y = None → getParentNode d' y = None.
Proof.
  intros Hs. rewrite !parentless_iff. intros Hd nd' q Hnd' Hq.
  destruct Hs as [Hm Hn].
  destruct (Hn y nd' Hnd') as (nd & Hnd & _ & _ & Hp).
  destruct Hp as [Hp|Hp]; [|congruence].
  apply (settles_gone d d'); [by split|]. apply (Hd nd q Hnd). congruence.
Qed.

Lemma settles_getMesh d d' y :
  settles d d' → is_Some (nodeStore d' !! y) → getMesh d' y = getMesh d y.
Proof.
  intros [Hm Hn] [nd' Hnd'].
  destruct (Hn y nd' Hnd') as (nd & Hnd & _ & Hmesh & _).
  unfold getMesh. rewrite Hnd, Hnd', Hmesh.
  destruct (mesh nd) as [m|]; [|done].
  by rewrite (bool_decide_ext _ _ (Hm m)).
Qed.

Lemma settles_name d d' y nd nd' :
  settles d d' → nodeStore d !! y = Some nd → nodeStore d' !! y = Some nd' →
  name nd' = name nd.
Proof.
  intros [_ Hn] Hnd Hnd'.
  destruct (Hn y nd' Hnd') as (nd0 & Hnd0 & Hname & _). congruence.
Qed.

Lemma processNode_keeps_others d x d' y :
  processNode d x = Some d' → y ≠ x →
  is_Some (nodeStore d !! y) → is_Some (nodeStore d' !! y).
Proof.
  intros Hp Hne Hy. apply processNode_cases in Hp
    as [[[_ Hk] _]|(nd & p & _ & _ & _ & ->)]; [by apply Hk|].
  rewrite dispose_lookup, decide_False by done. apply fmap_is_Some.
  simpl. rewrite !lookup_alter_ne by done. exact Hy.
Qed.

Lemma processNode_removes d x d' nd :
  processNode d x = Some d' → nodeStore d !! x = Some nd →
  getMesh d x = None → endsWith (name nd) "-Local" = true →
  nodeStore d' !! x = None.
Proof.
  intros Hp Hnd Hmesh Hl. apply processNode_cases in Hp
    as [[_ [Hx|[[m Hm]|(nd' & Hnd' & Hl')]]]|(nd' & p & _ & _ & _ & ->)].
  - congruence.
  - congruence.
  - congruence.
  - by rewrite dispose_lookup, decide_True.
Qed.

Lemma processMeshes_keeps nodes :
  ∀ d d' n nd,
    processMeshes nodes d = Some d' → nodeStore d !! n = Some nd →
    n ∉ nodes ∨ is_Some (getMesh d n) ∨ endsWith (name nd) "-Local" = false →
    is_Some (nodeStore d' !! n).
Proof.
  induction nodes as [|x l IH]; intros d d' n nd Hrun Hnd Hwhy.
  - injection Hrun as <-. by eexists.
  - unfold RigidSkin.processMeshes in Hrun. cbn [foldM] in Hrun.
    destruct (processNode d x) as [d1|] eqn:Estep; [|done].
    pose proof (processNode_settles _ _ _ Estep) as Hs.
    assert (is_Some (nodeStore d1 !! n)) as [nd1 Hnd1].
    { pose proof Estep as Hcases. apply processNode_cases in Hcases
        as [[[_ Hk] _]|(ndx & p & Hndx & Hmx & Hlx & _)];
        [apply Hk; by eexists|].
      destruct (decide (n = x)) as [->|Hne].
      - exfalso. destruct Hwhy as [Hn|[[m Hm]|Hl]].
        + apply Hn. left.
        + congruence.
        + congruence.
      - eapply processNode_keeps_others; [done..|by eexists]. }
    apply (IH d1 d' n nd1 Hrun Hnd1).
    destruct Hwhy as [Hn|[Hm|Hl]].
    + left. intros Hin. apply Hn. by right.
    + right. left. rewrite (settles_getMesh d d1); [done|done|by eexists].
    + right. right. by rewrite (settles_name d d1 n nd nd1).
Qed.

End node.
End facts.


(** X23.  A node of the list that has a mesh and no parent node, a root child
    of the scene, makes the loop throw. *)
Theorem mesh_node_without_parent_makes_loop_throw {num : Type} `{JsNumber num}
    (jointsTuples : gmap string string) (jointsIndex : gmap string nat)
    (nodes : list NodeId) (d : Document (num := num)) (n : NodeId) :
  n ∈ nodes → is_Some (getMesh d n) → getParentNode d n = None →
  processMeshes jointsTuples jointsIndex nodes d = None.
Proof.
  revert d. induction nodes as [|x l IH]; intros d Hin Hmesh Hpar.
  - by apply elem_of_nil in Hin.
  - unfold processMeshes. cbn [foldM].
    destruct (processNode _ _ d x) as [d1|] eqn:Estep; [|done].
    assert (is_Some (nodeStore d !! n)) as Hnode.
    { destruct Hmesh as [m Hm]. unfold getMesh in Hm.
      destruct (nodeStore d !! n); [by eexists|done]. }
    destruct (decide (n = x)) as [->|Hne].
    + exfalso. unfold processNode in Estep. destruct Hnode as [nd Hnd].
      destruct Hmesh as [m Hm]. by rewrite Hnd, Hm, Hpar in Estep.
    + apply elem_of_cons in Hin as [->|Hin]; [done|].
      pose proof (processNode_settles _ _ _ _ _ Estep) as Hs.
      pose proof (processNode_keeps_others _ _ _ _ _ _ Estep Hne Hnode).
      apply IH; [done| |by eapply settles_parentless].
      by rewrite (settles_getMesh d d1).
Qed.

(** X24.  When the loop ends well, the nodes it has removed are the nodes of
    the list that have no mesh and a name ending in -Local; every other
    node is still there. *)
Theorem loop_removes_local_nodes_without_mesh {num : Type} `{JsNumber num}
    (jointsTuples : gmap string string) (jointsIndex : gmap string nat)
    (nodes : list NodeId) (d d' : Document (num := num)) (n : NodeId)
    (nd : Node) :
  processMeshes jointsTuples jointsIndex nodes d = Some d' →
  nodeStore d !! n = Some nd →
  nodeStore d' !! n = None ↔
  n ∈ nodes ∧ getMesh d n = None ∧ endsWith (name nd) "-Local" = true.
Proof.
  intros Hrun Hnd. split.
  - intros Hgone.
    destruct (decide (n ∈ nodes)) as [Hin|Hout].
    2: { destruct (processMeshes_keeps _ _ _ _ _ _ _ Hrun Hnd) as [? ?];
           [by left|congruence]. }
    destruct (getMesh d n) as [m|] eqn:Em.
    { destruct (processMeshes_keeps _ _ _ _ _ _ _ Hrun Hnd) as [? ?];
        [right; left; rewrite Em; by eexists|congruence]. }
    destruct (endsWith (name nd) "-Local") eqn:El; [done|].
    destruct (processMeshes_keeps _ _ _ _ _ _ _ Hrun Hnd) as [? ?];
      [by right; right|congruence].
  - intros (Hin & Hmesh & Hl). unfold processMeshes in Hrun.
    destruct (foldM_split _ _ _ _ _ Hin Hrun)
      as (l1 & l2 & s1 & s2 & _ & Hnot & R1 & Hstep & R2).
    assert (settles d s1) as Hs1 by (by eapply processMeshes_settles).
    assert (is_Some (nodeStore s1 !! n)) as [nd1 Hnd1].
    { eapply processMeshes_keeps; [exact R1|done|by left]. }
    eapply settles_gone; [by eapply processMeshes_settles|].
    eapply processNode_removes; [done|done| |].
    + rewrite (settles_getMesh d s1); [done|done|by eexists].
    + by rewrite (settles_name d s1 n nd nd1).
Qed.


(** X23, an instance.
    The prop of the example is a root child of the scene. *)
Lemma mesh_node_without_parent_makes_loop_throw_witness :
  processMeshes armMap (armIndex 7) [0; 5] rootMeshDoc = None.
Proof.
  apply (mesh_node_without_parent_makes_loop_throw armMap (armIndex 7)
           [0; 5] rootMeshDoc 5).
  - right. left.
  - by eexists.
  - reflexivity.
Defined.

Lemma helperDoc_run :
  processMeshes armMap (armIndex 7) [0; 1; 3] helperDoc
  = Some helperDoc_processed.
Proof. vm_compute. reflexivity. Qed.

(** X24, an instance.
    The helper node of the example is removed, and the arm is not. *)
Lemma loop_removes_local_nodes_without_mesh_witness :
  processMeshes armMap (armIndex 7) [0; 1; 3] helperDoc
  = Some helperDoc_processed ∧
  (nodeStore helperDoc_processed !! 3 = None ↔
   3 ∈ [0; 1; 3] ∧ getMesh helperDoc 3 = None ∧
   endsWith "Helper-Local" "-Local" = true) ∧
  nodeStore helperDoc_processed !! 3 = None.
Proof.
  split; [exact helperDoc_run|]. split; [|reflexivity].
  apply (loop_removes_local_nodes_without_mesh armMap (armIndex 7)
           [0; 1; 3] helperDoc helperDoc_processed 3
           (plainNode "Helper-Local" (Some 1) None)).
  - exact helperDoc_run.
  - reflexivity.
Defined.


End RigidSkinMore.

(** * The atlas grid in the engine's arithmetic *)

Module AtlasMore.
Import Atlas AtlasFacts.

(** X26.
    For up to 4096 collected primitives, [Math.ceil(Math.sqrt(n))] as the
    engine computes it in double precision is the integer ceiling of the
    square root: the least side whose square holds [n] cells. *)
Theorem atlasWidth_float_is_exact (n : nat) :
  n ≤ 4096 →
  atlasWidth_float (N.of_nat n) = Z.of_N (atlasWidth (N.of_nat n)) ∧
  (N.of_nat n ≤ atlasWidth (N.of_nat n) * atlasWidth (N.of_nat n))%N ∧
  (∀ h, N.of_nat n ≤ h * h → atlasWidth (N.of_nat n) ≤ h)%N.
Proof.
  intros Hn. split; [|apply Math_ceil_sqrt_spec].
  pose proof atlasWidth_float_agrees as Hall.
  rewrite forallb_forall in Hall.
  apply Z.eqb_eq, (Hall n). apply in_seq. lia.
Qed.

(** X26, an instance.
    Five primitives: the square root of 5 is 2.236..., and the side is
    3. *)
Lemma atlasWidth_float_is_exact_witness :
  atlasWidth_float 5 = 3%Z ∧
  (5 ≤ atlasWidth 5 * atlasWidth 5)%N ∧
  (∀ h, 5 ≤ h * h → atlasWidth 5 ≤ h)%N.
Proof.
  apply (atlasWidth_float_is_exact 5). lia.
Defined.

End AtlasMore.

(** * The skeleton stage and the mesh loop together *)

Module PipelineFacts.
Import GlMatrix Examples.

Section facts.
Context {num : Type} `{JsNumber num}.

Lemma findJointIndex_indexed (jointsTuples : gmap string string)
    (jointsIndex : gmap string nat) (d : RigidSkin.Document (num := num))
    (fuel : nat) :
  ∀ parentNode k,
    RigidSkin.findJointIndex jointsTuples jointsIndex fuel d parentNode
    = Some k →
    ∃ nm, jointsIndex !! nm = Some k.
Proof.
  induction fuel as [|fuel IH]; intros parentNode k; simpl; [done|].
  destruct parentNode as [p|]; [|done].
  destruct (RigidSkin.lookupJoint _ _ _) as [index|] eqn:El.
  - intros [= ->]. unfold RigidSkin.lookupJoint in El. by eexists.
  - apply IH.
Qed.

End facts.

(** X27.  The joint index the mesh loop reads is that of the skin as the
    skeleton stage leaves it: whatever joint index a mesh is bound to, the
    skin has a joint at that position, and the buffer of inverse bind
    matrices has, at that position, the stored inverse of that joint's
    world matrix. *)
Theorem bound_joint_has_inverse_bind_matrix {num : Type} `{JsNumber num}
    (jointsToRemove : list string) (jointsTuples : gmap string string)
    (d d' : Skeleton.Document (num := num))
    (meshes : RigidSkin.Document (num := num))
    (parentNode : option nat) (k : nat) :
  Skeleton.spliceSkeleton jointsToRemove d = Some d' →
  RigidSkin.jointOf jointsTuples (Skeleton.jointsIndex d') meshes parentNode
  = Some k →
  ∃ j ibm m,
    Skeleton.listJoints d' !! k = Some j ∧
    Skeleton.inverseBindMatrices (Skeleton.skin d') = Some ibm ∧
    ibm !! k = Some m ∧
    Skeleton.storedInverse d' j = Some m.
Proof.
  intros Hsplice Hjoint.
  apply findJointIndex_indexed in Hjoint as [nm Hnm].
  apply SkeletonFacts.jointsIndex_position in Hnm as (_ & j & Hx & _).
  unfold Skeleton.spliceSkeleton in Hsplice.
  destruct (Skeleton.graft d) as [e|d1]; [done|].
  destruct (Skeleton.pruneJoints jointsToRemove d1) as [d2|]; [|done].
  pose proof (SkeletonFacts.recompute_Some _ _ Hsplice) as (Hnodes & _ & _).
  apply SkeletonFacts.recomputed_buffer_holds_inverses in Hsplice
    as (ibm & Hibm & _ & Hall).
  destruct (Hall k j Hx) as (inverse & Hinv & Hk).
  exists j, ibm, (mat4_map fround inverse). split_and!; [done..|].
  unfold Skeleton.storedInverse.
  rewrite (SkeletonFacts.getWorldMatrix_ext d' d2) by done.
  by rewrite Hinv.
Qed.

(** X27, an instance.
    An arm that is mapped to the spine of the example rig is bound to
    joint 1, whose inverse bind matrix is the second of the buffer. *)
Lemma bound_joint_has_inverse_bind_matrix_witness :
  ∃ j ibm m,
    Skeleton.listJoints Skeleton.tailRig_spliced !! 1 = Some j ∧
    Skeleton.inverseBindMatrices (Skeleton.skin Skeleton.tailRig_spliced)
    = Some ibm ∧
    ibm !! 1 = Some m ∧
    Skeleton.storedInverse Skeleton.tailRig_spliced j = Some m.
Proof.
  apply (bound_joint_has_inverse_bind_matrix Skeleton.denyList spineMap
           Skeleton.tailRig Skeleton.tailRig_spliced
           (RigidSkin.handDoc []) (Some 1) 1).
  - exact SkeletonFacts.tailRig_splice.
  - vm_compute. reflexivity.
Defined.

End PipelineFacts.
